(** * LLM-TXT server: data-aggregation and dynamic-pricing engine

    A shallow embedding of [server/src/index.ts] and the properties its
    specification states about it.  The first part of the file holds the
    embedding, one module per component of the server; the second part holds
    the lemmas and theorems. *)

From Stdlib Require Import ZArith QArith Qround Qabs Qpower Qminmax Lia Lqa.
From Stdlib Require Import String Ascii List Bool Sorted.
From stdpp Require Import gmap strings list sorting.

Set Warnings "-register-all".

(* ===================================================================== *)
(** * Part I: the embedding                                               *)
(* ===================================================================== *)

(** ** JavaScript numbers

    A finite JavaScript number is an IEEE-754 binary64 value.  It is modelled
    by the rational it denotes; every arithmetic operator computes the exact
    rational result and rounds it back to binary64 with [binary64]
    (round-to-nearest, ties-to-even, gradual underflow).  [NaN], the
    infinities and the sign of zero are not represented: no operation below
    divides by zero, and overflow would need magnitudes of 2^1024. *)
Module JSNumber.
Local Open Scope Q_scope.

Definition pow2 (e : Z) : Q := 2 ^ e.

(** [ilog2 q] is the binary exponent of [q <> 0]: [2^ilog2 q <= |q| < 2^(ilog2 q + 1)]. *)
Definition ilog2 (q : Q) : Z :=
  let k := (Z.log2 (Z.abs (Qnum q)) - Z.log2 (Zpos (Qden q)))%Z in
  if Qle_bool (pow2 k) (Qabs q) then k else (k - 1)%Z.

(** Nearest integer, ties to the even one. *)
Definition roundHalfEven (q : Q) : Z :=
  let f := Qfloor q in
  match Qcompare (q - inject_Z f) (1 # 2) with
  | Lt => f
  | Gt => (f + 1)%Z
  | Eq => if Z.even f then f else (f + 1)%Z
  end.

(** The exponent of the unit in the last place: 53 significant bits, and no
    finer than 2^-1074 (the subnormal range). *)
Definition ulpExponent (q : Q) : Z := Z.max (ilog2 q - 52) (-1074).

Definition binary64 (q : Q) : Q :=
  let e := ulpExponent q in
  Qred (inject_Z (roundHalfEven (q / pow2 e)) * pow2 e).

(** The arithmetic operators [+], [*], [/] of the language. *)
Definition add (x y : Q) : Q := binary64 (x + y).
Definition mul (x y : Q) : Q := binary64 (x * y).
Definition div (x y : Q) : Q := binary64 (x / y).

(** A decimal literal of the source text denotes the nearest binary64. *)
Definition lit (q : Q) : Q := binary64 q.

(** [Math.ceil], [Math.round] (ties towards +infinity) and [Math.max] are exact. *)
Definition Math_ceil (x : Q) : Q := inject_Z (Qceiling x).
Definition Math_round (x : Q) : Q := inject_Z (Qfloor (x + (1 # 2))).
Definition Math_max (x y : Q) : Q := Qmax x y.

(** Truthiness of a number, and [x || d] on a possibly absent number.
    [NaN] is falsy as well, so an absent value also stands for [NaN]. *)
Definition truthy (x : Q) : bool := negb (Qeq_bool x 0).
Definition orDefault (x : option Q) (d : Q) : Q :=
  match x with
  | Some q => if truthy q then q else d
  | None => d
  end.

Definition gtb (x y : Q) : bool := negb (Qle_bool x y).
Definition geb (x y : Q) : bool := Qle_bool y x.
Definition ltb (x y : Q) : bool := negb (Qle_bool y x).

(** *** [Number.prototype.toString]

    ECMA-262, Number::toString(x) in radix 10: the shortest digit string [s]
    of [k] digits and the exponent [n] with [binary64 (s * 10^(n-k)) = x]. *)

Definition pow10 (e : Z) : Q := 10 ^ e.

Fixpoint raiseExponent (fuel : nat) (n : Z) (x : Q) : Z :=
  match fuel with
  | O => n
  | S fuel' => if Qle_bool (pow10 n) x then raiseExponent fuel' (n + 1)%Z x else n
  end.

Fixpoint lowerExponent (fuel : nat) (n : Z) (x : Q) : Z :=
  match fuel with
  | O => n
  | S fuel' => if ltb x (pow10 (n - 1)) then lowerExponent fuel' (n - 1)%Z x else n
  end.

(** The [n] with [10^(n-1) <= x < 10^n], for [0 < x]. *)
Definition decimalExponent (x : Q) : Z :=
  let n0 := ((ilog2 x * 3) / 10)%Z in
  lowerExponent 16 (raiseExponent 16 n0 x) x.

(** The [k]-digit candidates around [x / 10^(n-k)] that read back as [x],
    the closest to [x] first.  Rounding up may carry into a power of ten,
    which is the digit 1 at the next exponent. *)
Definition digitCandidate (x : Q) (n k : Z) : option (Z * Z) :=
  let scale := pow10 (n - k) in
  let v := x / scale in
  let lo := Qfloor v in
  let hi := (lo + 1)%Z in
  let ok (s : Z) := Qeq_bool (binary64 (inject_Z s * scale)) x in
  let norm (s : Z) := if Qle_bool (pow10 k) (inject_Z s) then ((s / 10)%Z, (n + 1)%Z) else (s, n) in
  let loFirst := Qle_bool (v - inject_Z lo) (inject_Z hi - v) in
  let first := if loFirst then lo else hi in
  let second := if loFirst then hi else lo in
  if ok first then Some (norm first) else if ok second then Some (norm second) else None.

Fixpoint shortestDigits (fuel : nat) (x : Q) (n k : Z) : Z * Z * Z :=
  match fuel with
  | O => (Qfloor (x / pow10 (n - k)), k, n)
  | S fuel' =>
      match digitCandidate x n k with
      | Some (s, n') => (s, k, n')
      | None => shortestDigits fuel' x n (k + 1)%Z
      end
  end.

Definition digitChar (d : Z) : ascii := ascii_of_nat (48 + Z.to_nat d).

Fixpoint digitsAcc (fuel : nat) (s : Z) (acc : string) : string :=
  match fuel with
  | O => acc
  | S fuel' =>
      let acc' := String (digitChar (s mod 10)) acc in
      if (s / 10 =? 0)%Z then acc' else digitsAcc fuel' (s / 10)%Z acc'
  end.

Definition digitsOf (s : Z) : string := digitsAcc 400 s EmptyString.

Fixpoint zeros (n : nat) : string :=
  match n with
  | O => EmptyString
  | S n' => String "0" (zeros n')
  end.

Definition takeStr (n : nat) (s : string) : string := substring 0 n s.
Definition dropStr (n : nat) (s : string) : string := substring n (String.length s - n) s.

Definition positiveToString (x : Q) : string :=
  let '(s, k, n) := shortestDigits 17 x (decimalExponent x) 1 in
  let ds := digitsOf s in
  if ((k <=? n) && (n <=? 21))%Z then
    ds +:+ zeros (Z.to_nat (n - k))
  else if ((0 <? n) && (n <=? 21))%Z then
    takeStr (Z.to_nat n) ds +:+ "." +:+ dropStr (Z.to_nat n) ds
  else if ((-6 <? n) && (n <=? 0))%Z then
    "0." +:+ zeros (Z.to_nat (- n)) +:+ ds
  else
    let e := (n - 1)%Z in
    let sign := if (e <? 0)%Z then "-" else "+" in
    let mant := if (k =? 1)%Z then ds else takeStr 1 ds +:+ "." +:+ dropStr 1 ds in
    mant +:+ "e" +:+ sign +:+ digitsOf (Z.abs e).

Definition toString (x : Q) : string :=
  let x := Qred x in
  if Qeq_bool x 0 then "0"
  else if ltb x 0 then "-" +:+ positiveToString (- x)
  else positiveToString x.

End JSNumber.

(** ** Pricing engine (Farcaster and Bluesky) *)
Module Pricing.
Import JSNumber.
Local Open Scope Q_scope.

(** [interface PricingParams].  An optional boolean is only ever tested for
    truthiness, so [undefined] and [false] are one value; an absent [limit]
    is [None] (which also stands for [NaN], see [JSNumber.orDefault]). *)
Record PricingParams := {
  limit : option Q;
  all : bool;
  includeReplies : bool;
  includeParents : bool;
  includeReactions : bool
}.

(** [const FREE_TIER]. *)
Definition FREE_TIER_maxLimit : Q := 10.

(** [const PRICING]. *)
Definition perApiCall : Q := lit (1 # 1000).
Definition castsPerPage : Q := 150.
Definition fetchAllDefaultPages : Q := 50.
Definition fetchAllBuffer : Q := 5.
Definition parentRatioWithReplies : Q := lit (6 # 10).
Definition parentRatioWithoutReplies : Q := lit (1 # 10).
Definition repliesDataMultiplier : Q := lit (125 # 100).
Definition reactionsDataMultiplier : Q := lit (11 # 10).

Definition isFreeTier (params : PricingParams) : bool :=
  let limit := orDefault (limit params) 50 in
  if gtb limit FREE_TIER_maxLimit then false
  else if all params then false
  else if includeReplies params then false
  else if includeParents params then false
  else true.

(** The part of the two price functions after [requestedLimit] is known:
    the value of [rounded]. *)
Definition roundedCost (params : PricingParams) (requestedLimit basePrice : Q) : Q :=
  let castPages := Math_ceil (div requestedLimit castsPerPage) in
  let apiCalls := castPages in
  let apiCalls := if all params then add apiCalls fetchAllBuffer else apiCalls in
  let apiCalls :=
    if includeParents params then
      let parentRatio :=
        if includeReplies params then parentRatioWithReplies
        else parentRatioWithoutReplies in
      let estimatedParentCalls := Math_ceil (mul requestedLimit parentRatio) in
      add apiCalls estimatedParentCalls
    else apiCalls in
  let cost := mul apiCalls perApiCall in
  let cost := if includeReplies params then mul cost repliesDataMultiplier else cost in
  let cost := if includeReactions params then mul cost reactionsDataMultiplier else cost in
  let cost := Math_max cost basePrice in
  div (Math_round (mul cost 1000000)) 1000000.

(** The number behind the string [calculateDynamicPrice] returns. *)
Definition dynamicPriceAmount (params : PricingParams) (basePrice : Q) : Q :=
  if isFreeTier params then 0
  else
    let requestedLimit :=
      if all params then mul fetchAllDefaultPages castsPerPage
      else orDefault (limit params) 50 in
    roundedCost params requestedLimit basePrice.

Definition calculateDynamicPrice (params : PricingParams) (basePrice : Q) : string :=
  if isFreeTier params then "$0"
  else
    let requestedLimit :=
      if all params then mul fetchAllDefaultPages castsPerPage
      else orDefault (limit params) 50 in
    "$" +:+ toString (roundedCost params requestedLimit basePrice).

(** [castCount] is [number | null]. *)
Definition calculateDynamicPriceWithCastCount
    (params : PricingParams) (castCount : option Q) (basePrice : Q) : string :=
  if isFreeTier params then "$0"
  else
    let requestedLimit :=
      if all params then
        match castCount with
        | Some n => n
        | None => mul fetchAllDefaultPages castsPerPage
        end
      else orDefault (limit params) 50 in
    "$" +:+ toString (roundedCost params requestedLimit basePrice).

(** The parameter set [params] with its limit replaced, all else equal. *)
Definition withLimit (l : Q) (params : PricingParams) : PricingParams :=
  {| limit := Some l;
     all := all params;
     includeReplies := includeReplies params;
     includeParents := includeParents params;
     includeReactions := includeReactions params |}.

(** The parameter set [params] with its reaction flag replaced. *)
Definition withReactions (b : bool) (params : PricingParams) : PricingParams :=
  {| limit := limit params;
     all := all params;
     includeReplies := includeReplies params;
     includeParents := includeParents params;
     includeReactions := b |}.

(** Two parameter sets that are the same input: equal flags, and limits
    that are the same number. *)
Definition sameParams (p q : PricingParams) : Prop :=
  match limit p, limit q with
  | Some l, Some l' => l == l'
  | None, None => True
  | _, _ => False
  end
  /\ all p = all q
  /\ includeReplies p = includeReplies q
  /\ includeParents p = includeParents q
  /\ includeReactions p = includeReactions q.

End Pricing.

(** ** Pricing requests, one flag replaced *)
Module PricingRequests.
Import JSNumber Pricing.
Local Open Scope Q_scope.

Definition withReplies (b : bool) (params : PricingParams) : PricingParams :=
  {| limit := limit params;
     all := all params;
     includeReplies := b;
     includeParents := includeParents params;
     includeReactions := includeReactions params |}.

Definition withParents (b : bool) (params : PricingParams) : PricingParams :=
  {| limit := limit params;
     all := all params;
     includeReplies := includeReplies params;
     includeParents := b;
     includeReactions := includeReactions params |}.

(** The base price rounded to 6 decimal places, as the last step of every
    price function rounds. *)
Definition roundedBase (basePrice : Q) : Q :=
  div (Math_round (mul basePrice 1000000)) 1000000.

(** [x] is a binary64 value. *)
Definition representable (x : Q) : Prop := binary64 x == x.

(** [apiCalls] and the cost before the multipliers. *)
Definition apiCallsOf (params : PricingParams) (l : Q) : Q :=
  let apiCalls :=
    if all params then add (Math_ceil (div l castsPerPage)) fetchAllBuffer
    else Math_ceil (div l castsPerPage) in
  if includeParents params then
    add apiCalls
      (Math_ceil (mul l (if includeReplies params then parentRatioWithReplies
                         else parentRatioWithoutReplies)))
  else apiCalls.

Definition costOf (params : PricingParams) (l : Q) : Q :=
  let cost := mul (apiCallsOf params l) perApiCall in
  let cost := if includeReplies params then mul cost repliesDataMultiplier else cost in
  if includeReactions params then mul cost reactionsDataMultiplier else cost.

(** [requestedLimit]. *)
Definition requested (params : PricingParams) : Q :=
  if all params then mul fetchAllDefaultPages castsPerPage else orDefault (limit params) 50.

End PricingRequests.

(** ** RSS pricing ([isRssFreeTier], [calculateRssPrice]) *)
Module RssPricing.
Import JSNumber.
Local Open Scope Q_scope.

(** [const RSS_PRICING]. *)
Definition baseFetch : Q := lit (5 # 10000).
Definition perItem : Q := lit (5 # 100000).
Definition contentMultiplier : Q := lit (15 # 10).
Definition freeTierMaxItems : Q := 5.

(** [interface RssPricingParams]. *)
Record RssPricingParams := {
  itemCount : option Q;
  includeContent : bool;
  all : bool
}.

Definition isRssFreeTier (params : RssPricingParams) : bool :=
  if all params then false
  else if includeContent params then false
  else
    let itemCount := orDefault (itemCount params) 10 in
    Qle_bool itemCount freeTierMaxItems.

(** The number behind the string [calculateRssPrice] returns for a request
    that is not free. *)
Definition rssRounded (params : RssPricingParams) (basePrice : Q) : Q :=
  let itemCount := orDefault (itemCount params) 10 in
  let cost := add baseFetch (mul itemCount perItem) in
  let cost := if includeContent params then mul cost contentMultiplier else cost in
  let cost := Math_max cost basePrice in
  div (Math_round (mul cost 1000000)) 1000000.

Definition rssPriceAmount (params : RssPricingParams) (basePrice : Q) : Q :=
  if isRssFreeTier params then 0 else rssRounded params basePrice.

Definition calculateRssPrice (params : RssPricingParams) (basePrice : Q) : string :=
  if isRssFreeTier params then "$0"
  else "$" +:+ toString (rssRounded params basePrice).

Definition withItemCount (n : option Q) (params : RssPricingParams) : RssPricingParams :=
  {| itemCount := n; includeContent := includeContent params; all := all params |}.

Definition withContent (b : bool) (params : RssPricingParams) : RssPricingParams :=
  {| itemCount := itemCount params; includeContent := b; all := all params |}.

End RssPricing.

(** ** Git pricing ([isGitFreeTier], [calculateGitPrice]) *)
Module GitPricing.
Import JSNumber.
Local Open Scope Q_scope.

(** [const GIT_PRICING], the entries the code reads. *)
Definition baseRequest : Q := lit (5 # 10000).
Definition perKB : Q := lit (5 # 100000).
Definition minPrice : Q := lit (1 # 10000).
Definition freeTierMaxFiles : Q := 10.

(** [interface GitPricingParams]. *)
Record GitPricingParams := {
  repoSize : option Q;
  fileCount : option Q;
  estimatedOutputKB : option Q;
  includeContent : bool;
  includeTree : bool;
  includePatterns : option (list string);
  excludePatterns : option (list string);
  maxFileSize : option Q
}.

(** [patterns && patterns.length > 0]. *)
Definition nonEmpty (patterns : option (list string)) : bool :=
  match patterns with
  | Some (_ :: _) => true
  | _ => false
  end.

Definition isGitFreeTier (params : GitPricingParams) : bool :=
  if includeContent params then false
  else if includeTree params && gtb (orDefault (fileCount params) 0) freeTierMaxFiles then false
  else true.

(** The value of [contentEstimate]. *)
Definition contentEstimate (params : GitPricingParams) : Q :=
  let contentEstimate := mul (orDefault (repoSize params) 0) (lit (3 # 10)) in
  let contentEstimate :=
    if nonEmpty (includePatterns params) then mul contentEstimate (lit (2 # 10))
    else contentEstimate in
  let contentEstimate :=
    if nonEmpty (excludePatterns params) then mul contentEstimate (lit (7 # 10))
    else contentEstimate in
  match maxFileSize params with
  | Some m =>
      if truthy m && ltb m 100000 then
        let reduction := Math_max (lit (1 # 10)) (div m 100000) in
        mul contentEstimate reduction
      else contentEstimate
  | None => contentEstimate
  end.

(** The value of [estimatedKB]. *)
Definition estimatedKB (params : GitPricingParams) : Q :=
  let estimatedKB := orDefault (estimatedOutputKB params) 0 in
  if truthy estimatedKB then estimatedKB
  else
    let estimatedKB := 5 in
    let estimatedKB :=
      if includeTree params
      then add estimatedKB (mul (orDefault (fileCount params) 0) (lit (5 # 100)))
      else estimatedKB in
    if includeContent params then add estimatedKB (contentEstimate params)
    else estimatedKB.

(** The number behind the string [calculateGitPrice] returns for a request
    that is not free. *)
Definition gitRounded (params : GitPricingParams) (basePrice : Q) : Q :=
  let cost := add baseRequest (mul (estimatedKB params) perKB) in
  let cost := Math_max (Math_max cost minPrice) basePrice in
  div (Math_round (mul cost 1000000)) 1000000.

Definition gitPriceAmount (params : GitPricingParams) (basePrice : Q) : Q :=
  if isGitFreeTier params then 0 else gitRounded params basePrice.

Definition calculateGitPrice (params : GitPricingParams) (basePrice : Q) : string :=
  if isGitFreeTier params then "$0"
  else "$" +:+ toString (gitRounded params basePrice).

(** The request with its filters replaced. *)
Definition withFilters (includes excludes : option (list string)) (ceiling : option Q)
    (params : GitPricingParams) : GitPricingParams :=
  {| repoSize := repoSize params;
     fileCount := fileCount params;
     estimatedOutputKB := estimatedOutputKB params;
     includeContent := includeContent params;
     includeTree := includeTree params;
     includePatterns := includes;
     excludePatterns := excludes;
     maxFileSize := ceiling |}.

Definition withFileCount (n : option Q) (params : GitPricingParams) : GitPricingParams :=
  {| repoSize := repoSize params;
     fileCount := n;
     estimatedOutputKB := estimatedOutputKB params;
     includeContent := includeContent params;
     includeTree := includeTree params;
     includePatterns := includePatterns params;
     excludePatterns := excludePatterns params;
     maxFileSize := maxFileSize params |}.

End GitPricing.

(** ** Rate limiter ([class RateLimiter]) *)
Module RateLimiter.
Local Open Scope Z_scope.

Definition ENDPOINT_LIMIT : nat := 250.
Definition GLOBAL_LIMIT : nat := 450.
Definition WINDOW_MS : Z := 60000.

(** The two private fields of the class. *)
Record State := {
  endpointRequests : gmap string (list Z);
  globalRequests : list Z
}.

Definition initial : State :=
  {| endpointRequests := ∅; globalRequests := [] |}.

(** [cleanOldRequests], with the value [Date.now()] returns inside it. *)
Definition cleanOldRequests (now : Z) (requests : list Z) : list Z :=
  List.filter (fun timestamp => now - timestamp <? WINDOW_MS) requests.

(** What one pass through the body of [waitForSlot] ends with: the request
    is recorded, or the caller sleeps [ms] milliseconds and calls again. *)
Inductive Outcome :=
| Recorded
| Retry (ms : Z).

(** The three readings of [Date.now()] one pass makes: at its start, inside
    the cleaning of the global list and inside that of the endpoint's list. *)
Record Clock := {
  now : Z;
  nowGlobal : Z;
  nowEndpoint : Z
}.

(** One pass through [waitForSlot] up to its first [await] or its end.  The
    pass contains no suspension point before it records, so passes of
    concurrent requests never interleave. *)
Definition attempt (st : State) (endpoint : string) (clk : Clock) : State * Outcome :=
  let globalRequests := cleanOldRequests (nowGlobal clk) (globalRequests st) in
  let endpointReqs :=
    cleanOldRequests (nowEndpoint clk) (default [] (endpointRequests st !! endpoint)) in
  let requests := <[endpoint := endpointReqs]> (endpointRequests st) in
  let globalCount := length globalRequests in
  let endpointCount := length endpointReqs in
  if (GLOBAL_LIMIT <=? globalCount)%nat || (ENDPOINT_LIMIT <=? endpointCount)%nat then
    let relevantRequests :=
      if (GLOBAL_LIMIT <=? globalCount)%nat then globalRequests else endpointReqs in
    let st' := {| endpointRequests := requests; globalRequests := globalRequests |} in
    match head relevantRequests with
    | Some oldestRequest =>
        if oldestRequest =? 0 then (st', Retry 1000)
        else (st', Retry (WINDOW_MS - (now clk - oldestRequest) + 100))
    | None => (st', Retry 1000)
    end
  else
    ({| endpointRequests := <[endpoint := endpointReqs ++ [now clk]]> requests;
        globalRequests := globalRequests ++ [now clk] |},
     Recorded).

(** [waitForSlot]: passes repeat until one records.  [clocks] lists the clock
    readings of the successive passes; the result is [false] when the call is
    still suspended after the last of them. *)
Fixpoint waitForSlot (st : State) (endpoint : string) (clocks : list Clock) : State * bool :=
  match clocks with
  | [] => (st, false)
  | clk :: clocks' =>
      match attempt st endpoint clk with
      | (st', Recorded) => (st', true)
      | (st', Retry _) => waitForSlot st' endpoint clocks'
      end
  end.

(** A history of calls, each with the endpoint it names and its passes. *)
Fixpoint run (st : State) (calls : list (string * list Clock)) : State :=
  match calls with
  | [] => st
  | (endpoint, clocks) :: calls' => run (fst (waitForSlot st endpoint clocks)) calls'
  end.

(** The recorded timestamps of a key, and how many of a list lie in the
    trailing window at time [t]. *)
Definition recorded (st : State) (endpoint : string) : list Z :=
  default [] (endpointRequests st !! endpoint).

Definition inWindow (t : Z) (requests : list Z) : nat :=
  length (cleanOldRequests t requests).

(** The invariant of the class: the stored lists never grow past the
    ceilings. *)
Definition bounded (st : State) : Prop :=
  (forall endpoint, (length (recorded st endpoint) <= ENDPOINT_LIMIT)%nat)
  /\ (length (globalRequests st) <= GLOBAL_LIMIT)%nat.

(** *** The record of admissions

    A history of passes in which every pass reads one time at its three
    clock readings; passes of concurrent calls interleave freely, a call
    that waits being several passes of one endpoint. *)
Definition clockAt (t : Z) : Clock := {| now := t; nowGlobal := t; nowEndpoint := t |}.

Definition afterPasses (st : State) (passes : list (string * Z)) : State :=
  run st (map (fun p => (p.1, [clockAt p.2])) passes).

(** The endpoint and the time of every pass that recorded, in order. *)
Fixpoint admissions (st : State) (passes : list (string * Z)) : list (string * Z) :=
  match passes with
  | [] => []
  | (endpoint, t) :: passes' =>
      match attempt st endpoint (clockAt t) with
      | (st', Recorded) => (endpoint, t) :: admissions st' passes'
      | (st', Retry _) => admissions st' passes'
      end
  end.

Definition admittedTo (endpoint : string) (history : list (string * Z)) : list Z :=
  map snd (List.filter (fun a => String.eqb a.1 endpoint) history).

(** The clock does not run backwards. *)
Fixpoint nonDecreasingFrom (t : Z) (passes : list (string * Z)) : bool :=
  match passes with
  | [] => true
  | (_, t') :: passes' => (t <=? t') && nonDecreasingFrom t' passes'
  end.

Definition nonDecreasing (passes : list (string * Z)) : bool :=
  match passes with
  | [] => true
  | (_, t) :: _ => nonDecreasingFrom t passes
  end.

(** The admissions still in the window at any time from [t] on are among
    the stored timestamps. *)
Definition covers (st : State) (history : list (string * Z)) (t : Z) : Prop :=
  forall t', t <= t' ->
    (forall endpoint,
        sublist (cleanOldRequests t' (admittedTo endpoint history)) (recorded st endpoint))
    /\ sublist (cleanOldRequests t' (map snd history)) (globalRequests st).

(** [n] passes on one endpoint at one time. *)
Definition burst (n : nat) (endpoint : string) (t : Z) : list (string * Z) :=
  repeat (endpoint, t) n.


(** The list whose oldest entry the wait is computed from: [relevantRequests]. *)
Definition relevantRequests (st : State) (endpoint : string) : list Z :=
  if (GLOBAL_LIMIT <=? length (globalRequests st))%nat then globalRequests st
  else recorded st endpoint.

(** The stored timestamps are in order of admission, none later than [t]. *)
Definition ordered (st : State) (t : Z) : Prop :=
  (forall endpoint, StronglySorted Z.le (recorded st endpoint ++ [t]))
  /\ StronglySorted Z.le (globalRequests st ++ [t]).

(** *** Passes with their three clock readings

    A history of passes, each with the endpoint it names and the three
    readings of [Date.now()] it makes.  [admitted] lists the endpoint and the
    recorded timestamp (the first reading) of every pass that recorded. *)
Definition afterAttempts (st : State) (passes : list (string * Clock)) : State :=
  run st (map (fun p => (p.1, [p.2])) passes).

Fixpoint admitted (st : State) (passes : list (string * Clock)) : list (string * Z) :=
  match passes with
  | [] => []
  | (endpoint, clk) :: passes' =>
      match attempt st endpoint clk with
      | (st', Recorded) => (endpoint, now clk) :: admitted st' passes'
      | (st', Retry _) => admitted st' passes'
      end
  end.

(** The readings of the clock, in the order the passes take them. *)
Definition readings (passes : list (string * Clock)) : list Z :=
  flat_map (fun p => [now p.2; nowGlobal p.2; nowEndpoint p.2]) passes.

(** No reading is earlier than the one before it. *)
Fixpoint neverBefore (t : Z) (later : list Z) : bool :=
  match later with
  | [] => true
  | t' :: later' => (t <=? t') && neverBefore t' later'
  end.

Definition forward (passes : list (string * Clock)) : bool :=
  match readings passes with
  | [] => true
  | t :: later => neverBefore t later
  end.

(** The timestamps of a list that lie in the 60 seconds up to [t]. *)
Definition trailing (t : Z) (requests : list Z) : list Z :=
  List.filter (fun timestamp => (timestamp <=? t) && (t - timestamp <? WINDOW_MS)) requests.

(** 250 passes on one endpoint at time 1000, and then a pass during which
    the clock ticks from 60999 to 61000 after its first reading. *)
Definition tickDuringPass : list (string * Clock) :=
  map (fun p => (p.1, clockAt p.2)) (burst 250 "/v2/farcaster/cast" 1000)
  ++ [("/v2/farcaster/cast"%string, {| now := 60999; nowGlobal := 61000; nowEndpoint := 61000 |})].

(** The same 250 passes, a pass at time 61000, and a pass after the clock
    was set back to 1000. *)
Definition clockSetBack : list (string * Clock) :=
  map (fun p => (p.1, clockAt p.2)) (burst 250 "/v2/farcaster/cast" 1000)
  ++ [("/v2/farcaster/cast"%string, clockAt 61000); ("/v2/farcaster/cast"%string, clockAt 1000)].

End RateLimiter.

(** ** Objects used as dictionaries

    An object literal [{}] inherits the members of [Object.prototype]: a
    read [object[key]] of a key the object does not own answers the
    inherited member when [key] is one of these names. *)
Module JSObject.

Definition objectPrototypeMembers : list string :=
  ["__proto__"; "constructor"; "hasOwnProperty"; "isPrototypeOf"; "propertyIsEnumerable";
   "toLocaleString"; "toString"; "valueOf"; "__defineGetter__"; "__defineSetter__";
   "__lookupGetter__"; "__lookupSetter__"]%string.

Definition inherited (key : string) : bool := bool_decide (key ∈ objectPrototypeMembers).

End JSObject.

(** ** Source adapters: pagination and parent resolution

    [fetchCasts] (Farcaster) and [fetchBskyPosts] (Bluesky) are the same
    algorithm over two record shapes.  The algorithm is written once, in a
    section whose variables are the pieces in which the two functions differ,
    and instantiated twice below.  [rateLimiter.waitForSlot] only delays a
    call (it never rejects and never throws), so it does not appear in the
    functional model. *)
Module Feed.
Import JSNumber JSObject.

(** A call that may throw. *)
Inductive result (A : Type) :=
| Ok (a : A)
| Thrown (msg : string).
Arguments Ok {A} a.
Arguments Thrown {A} msg.

Inductive SortOrder := newest | oldest.

(** [FarcasterQueryParams] / [BlueskyQueryParams], after the route handler
    has turned the flags into booleans. *)
Record QueryParams := {
  limit : option Q;
  all : bool;
  includeReplies : bool;
  includeParents : bool;
  includeReactions : bool;
  sortOrder : option SortOrder
}.

(** Truthiness of an optional string: present and not empty. *)
Definition truthyString (s : option string) : option string :=
  match s with
  | Some EmptyString => None
  | other => other
  end.

(** [[...new Set(xs)]]: the distinct elements in order of first occurrence. *)
Fixpoint uniqueFrom (seen : list string) (xs : list string) : list string :=
  match xs with
  | [] => []
  | x :: xs' =>
      if bool_decide (x ∈ seen) then uniqueFrom seen xs'
      else x :: uniqueFrom (x :: seen) xs'
  end.
Definition unique (xs : list string) : list string := uniqueFrom [] xs.

(** [for (let i = 0; i < xs.length; i += size) xs.slice(i, i + size)]. *)
Fixpoint batchesOf {A} (fuel size : nat) (xs : list A) : list (list A) :=
  match fuel, xs with
  | O, _ | _, [] => []
  | S fuel', _ => take size xs :: batchesOf fuel' size (drop size xs)
  end.
Definition batches {A} (size : nat) (xs : list A) : list (list A) :=
  batchesOf (length xs) size xs.

(** [ToIntegerOrInfinity] on a finite number: truncation towards zero. *)
Definition truncate (x : Q) : Z :=
  if Qle_bool 0 x then Qfloor x else Qceiling x.

(** [xs.slice(0, end)]: a negative [end] counts from the end of the array. *)
Definition slice0 {A} (xs : list A) (end_ : Q) : list A :=
  let k := truncate end_ in
  if (k <? 0)%Z then take (Z.to_nat (Z.of_nat (length xs) + k)) xs
  else take (Z.to_nat k) xs.

(** What a read [parentMap[key]] answers when it is truthy: a unit (the one
    stored under [key], or the one the prototype was set to, read under
    [__proto__]), or the member the object inherits under [key], from the
    unit its prototype was set to or, with no [holder], from
    [Object.prototype]. *)
Inductive Slot (Post : Type) :=
| Stored (post : Post)
| Inherited (holder : option Post) (key : string).
Arguments Stored {Post} post.
Arguments Inherited {Post} holder key.

(** The object [parentMap]: its own properties and, once a unit has been
    assigned under [__proto__], the unit that took the place of its
    prototype. *)
Record ParentMap (Post : Type) := {
  own : gmap string Post;
  proto : option Post
}.
Arguments own {Post} _.
Arguments proto {Post} _.

Section Adapter.
(** The upstream record and the normalized content unit. *)
Context {Raw Post : Type}.
(** The per-page filter: the reply policy of Farcaster, the repost filter of Bluesky. *)
Variable keep : bool -> Raw -> bool.
Variable transform : Raw -> Post.
(** [c.parentHash] / [p.replyParent], and the assignment to [parentCast] / [parentPost]. *)
Variable parentRef : Post -> option string.
Variable setParent : Post -> Slot Post -> Post.
(** Whether a unit has an own property of a name, and whether the value of
    that property is truthy. *)
Variable ownField : Post -> string -> option bool.

Record Page := {
  items : list Raw;
  cursor : option string
}.

(** The upstream: the listing call, by cursor, and the single-parent lookup,
    which answers with a record, with none, or throws. *)
Record Upstream := {
  fetchPage : option string -> result Page;
  lookupParent : string -> result (option Raw)
}.

Variable upstream : Upstream.
Variable params : QueryParams.

Definition fetchAll : bool := all params.
(** [fetchAll ? Infinity : (Number(params.limit) || 50)], used when [fetchAll] is false. *)
Definition limitOf : Q := orDefault (limit params) 50.

(** The [do ... while] loop.  [None]: the loop has not ended within [fuel] pages. *)
Fixpoint paginate (fuel : nat) (cursor0 : option string) (allPosts : list Post)
    : option (result (list Post)) :=
  match fuel with
  | O => None
  | S fuel' =>
      match fetchPage upstream cursor0 with
      | Thrown msg => Some (Thrown msg)
      | Ok res =>
          let filtered := map transform (List.filter (keep (includeReplies params)) (items res)) in
          let allPosts := allPosts ++ filtered in
          match truthyString (cursor res) with
          | Some c =>
              if fetchAll || ltb (inject_Z (Z.of_nat (length allPosts))) limitOf
              then paginate fuel' (Some c) allPosts
              else Some (Ok allPosts)
          | None => Some (Ok allPosts)
          end
      end
  end.

(** The distinct non-empty parent references of the fetched units. *)
Definition parentRefs (allPosts : list Post) : list string :=
  unique (omap (fun p => truthyString (parentRef p)) allPosts).

(** One lookup of a batch: the [try]/[catch] turns a throw into [null]. *)
Definition lookupOne (ref : string) : string * option Post :=
  match lookupParent upstream ref with
  | Ok (Some raw) => (ref, Some (transform raw))
  | Ok None => (ref, None)
  | Thrown _ => (ref, None)
  end.

(** The parent a reference resolves to, if its lookup answers with one. *)
Definition resolved (ref : string) : option Post := (lookupOne ref).2.

(** [const parentMap = {}]. *)
Definition emptyMap : ParentMap Post := {| own := ∅; proto := None |}.

(** [parentMap[key] = post]: under [__proto__] the assignment sets the
    prototype of the object and creates no property. *)
Definition assign (key : string) (post : Post) (parentMap : ParentMap Post) : ParentMap Post :=
  if String.eqb key "__proto__" then {| own := own parentMap; proto := Some post |}
  else {| own := <[key := post]> (own parentMap); proto := proto parentMap |}.

(** [parentMap[key]] when it is truthy: the own property, or else what the
    prototype chain answers. *)
Definition read (parentMap : ParentMap Post) (key : string) : option (Slot Post) :=
  if String.eqb key "__proto__" then
    Some (match proto parentMap with
          | Some post => Stored post
          | None => Inherited None key
          end)
  else
    match own parentMap !! key with
    | Some post => Some (Stored post)
    | None =>
        let fromObject := if inherited key then Some (Inherited None key) else None in
        match proto parentMap with
        | Some holder =>
            match ownField holder key with
            | Some true => Some (Inherited (Some holder) key)
            | Some false => None
            | None => fromObject
            end
        | None => fromObject
        end
    end.

Definition recordResults (parentMap : ParentMap Post) (results : list (string * option Post))
    : ParentMap Post :=
  foldl (fun m r => match r.2 with Some post => assign r.1 post m | None => m end)
        parentMap results.

Definition batchSize : nat := 25.

Definition buildParentMap (refs : list string) : ParentMap Post :=
  foldl (fun m batch => recordResults m (map lookupOne batch)) emptyMap (batches batchSize refs).

Definition attachParent (parentMap : ParentMap Post) (p : Post) : Post :=
  match truthyString (parentRef p) with
  | Some ref =>
      match read parentMap ref with
      | Some parent => setParent p parent
      | None => p
      end
  | None => p
  end.

Definition resolveParents (allPosts : list Post) : list Post :=
  map (attachParent (buildParentMap (parentRefs allPosts))) allPosts.

(** The part of the function after the pagination loop. *)
Definition finish (allPosts : list Post) : list Post :=
  let allPosts :=
    match sortOrder params with
    | Some oldest => rev allPosts
    | _ => allPosts
    end in
  let allPosts := if includeParents params then resolveParents allPosts else allPosts in
  if fetchAll then allPosts else slice0 allPosts limitOf.

Definition fetchPosts (fuel : nat) : option (result (list Post)) :=
  match paginate fuel None [] with
  | Some (Ok allPosts) => Some (Ok (finish allPosts))
  | Some (Thrown msg) => Some (Thrown msg)
  | None => None
  end.

(** The upstream answers three pages, the first two with a cursor to the
    next and the third with none. *)
Definition yieldsThreePages (p1 p2 p3 : list Raw) : Prop :=
  exists (c1 c2 : string) (last : option string),
    truthyString (Some c1) = Some c1
    /\ truthyString (Some c2) = Some c2
    /\ truthyString last = None
    /\ fetchPage upstream None = Ok {| items := p1; cursor := Some c1 |}
    /\ fetchPage upstream (Some c1) = Ok {| items := p2; cursor := Some c2 |}
    /\ fetchPage upstream (Some c2) = Ok {| items := p3; cursor := last |}.

(** The parent references that ended up attached: those of the units that
    carry a parent, by [parentOf] (the getter of [parentCast] / [parentPost]). *)
Variable parentOf : Post -> option (Slot Post).

Definition attachedRefs (posts : list Post) : list string :=
  unique
    (omap
       (fun p =>
          match parentOf p with
          | Some _ => truthyString (parentRef p)
          | None => None
          end)
       posts).

End Adapter.

(** *** Farcaster *)

(** The cast as the SDK returns it ([c : any]). *)
Record RawCast := {
  hash : string;
  thread_hash : string;
  parent_hash : option string;
  author_fid : Z;
  author_username : option string;
  text : string;
  timestamp : string;
  embeds : option (list (option string));
  likes_count : option Z;
  recasts_count : option Z
}.

(** [FarcasterCast]; [parentCast] is set by [fetchCasts] only, to what the
    read of the parent map answered. *)
Inductive FarcasterCast := {
  cast_hash : string;
  cast_threadHash : string;
  cast_parentHash : option string;
  cast_author : Z * string;
  cast_text : string;
  cast_timestamp : string;
  cast_attachments : list string;
  cast_embeds : list (option string);
  cast_reactions : Z * Z;
  cast_parentCast : option (Slot FarcasterCast)
}.

(** [n || 0] on an optional count. *)
Definition countOr0 (n : option Z) : Z := default 0%Z n.

Definition transformCast (c : RawCast) : FarcasterCast :=
  {| cast_hash := hash c;
     cast_threadHash := thread_hash c;
     cast_parentHash := truthyString (parent_hash c);
     cast_author := (author_fid c, default EmptyString (author_username c));
     cast_text := text c;
     cast_timestamp := timestamp c;
     cast_attachments := [];
     cast_embeds := default [] (embeds c);
     cast_reactions := (countOr0 (likes_count c), countOr0 (recasts_count c));
     cast_parentCast := None |}.

(** [(c) => includeReplies || !c.parent_hash]. *)
Definition keepCast (includeReplies : bool) (c : RawCast) : bool :=
  includeReplies || negb (bool_decide (is_Some (truthyString (parent_hash c)))).

Definition setParentCast (c : FarcasterCast) (parent : Slot FarcasterCast) : FarcasterCast :=
  {| cast_hash := cast_hash c;
     cast_threadHash := cast_threadHash c;
     cast_parentHash := cast_parentHash c;
     cast_author := cast_author c;
     cast_text := cast_text c;
     cast_timestamp := cast_timestamp c;
     cast_attachments := cast_attachments c;
     cast_embeds := cast_embeds c;
     cast_reactions := cast_reactions c;
     cast_parentCast := Some parent |}.

(** The own properties of the object [transformCast] returns, and whether
    each is truthy; [parentHash] is there also when it is [undefined]. *)
Definition nonEmpty (s : string) : bool := negb (String.eqb s EmptyString).

Definition castField (c : FarcasterCast) (key : string) : option bool :=
  if String.eqb key "hash" then Some (nonEmpty (cast_hash c))
  else if String.eqb key "threadHash" then Some (nonEmpty (cast_threadHash c))
  else if String.eqb key "parentHash" then Some (bool_decide (is_Some (cast_parentHash c)))
  else if String.eqb key "author" then Some true
  else if String.eqb key "text" then Some (nonEmpty (cast_text c))
  else if String.eqb key "timestamp" then Some (nonEmpty (cast_timestamp c))
  else if String.eqb key "attachments" then Some true
  else if String.eqb key "embeds" then Some true
  else if String.eqb key "reactions" then Some true
  else None.

(** [fetchCasts]: [upstream] stands for the Neynar client, whose
    [fetchCastsForUser] answers [res.next?.cursor || undefined] as [cursor]
    and whose [lookupCastByHashOrUrl] answers [res.cast]. *)
Definition fetchCasts (upstream : Upstream (Raw := RawCast)) (params : QueryParams)
    (fuel : nat) : option (result (list FarcasterCast)) :=
  fetchPosts keepCast transformCast cast_parentHash setParentCast castField upstream params fuel.

(** A cast without its attached parent. *)
Definition castWithoutParent (c : FarcasterCast) : FarcasterCast :=
  {| cast_hash := cast_hash c;
     cast_threadHash := cast_threadHash c;
     cast_parentHash := cast_parentHash c;
     cast_author := cast_author c;
     cast_text := cast_text c;
     cast_timestamp := cast_timestamp c;
     cast_attachments := cast_attachments c;
     cast_embeds := cast_embeds c;
     cast_reactions := cast_reactions c;
     cast_parentCast := None |}.

(** *** Bluesky *)

(** A feed item: [item.post] with its [record], and whether [item.reason]
    is set (a repost).  [Embed] is the output of [transformBskyEmbed]. *)
Record Embed := {
  embed_type : string;
  embed_url : option string
}.

Record RawItem := {
  post_uri : string;
  post_cid : string;
  post_author : string * string;
  record_text : option string;
  record_createdAt : string;
  record_reply_parent : option string;
  record_reply_root : option string;
  post_embed : list Embed;
  post_likeCount : option Z;
  post_repostCount : option Z;
  post_replyCount : option Z;
  post_quoteCount : option Z;
  reason : bool
}.

Inductive BlueskyPost := {
  bsky_uri : string;
  bsky_cid : string;
  bsky_author : string * string;
  bsky_text : string;
  bsky_createdAt : string;
  bsky_replyParent : option string;
  bsky_replyRoot : option string;
  bsky_embeds : list Embed;
  bsky_likeCount : Z;
  bsky_repostCount : Z;
  bsky_replyCount : Z;
  bsky_quoteCount : Z;
  bsky_parentPost : option (Slot BlueskyPost)
}.

Definition transformBskyPost (item : RawItem) : BlueskyPost :=
  {| bsky_uri := post_uri item;
     bsky_cid := post_cid item;
     bsky_author := post_author item;
     bsky_text := default EmptyString (record_text item);
     bsky_createdAt := record_createdAt item;
     bsky_replyParent := record_reply_parent item;
     bsky_replyRoot := record_reply_root item;
     bsky_embeds := post_embed item;
     bsky_likeCount := countOr0 (post_likeCount item);
     bsky_repostCount := countOr0 (post_repostCount item);
     bsky_replyCount := countOr0 (post_replyCount item);
     bsky_quoteCount := countOr0 (post_quoteCount item);
     bsky_parentPost := None |}.

(** [(item) => !item.reason]; the reply policy is sent upstream as [filter]. *)
Definition keepItem (includeReplies : bool) (item : RawItem) : bool := negb (reason item).

Definition setParentPost (p : BlueskyPost) (parent : Slot BlueskyPost) : BlueskyPost :=
  {| bsky_uri := bsky_uri p;
     bsky_cid := bsky_cid p;
     bsky_author := bsky_author p;
     bsky_text := bsky_text p;
     bsky_createdAt := bsky_createdAt p;
     bsky_replyParent := bsky_replyParent p;
     bsky_replyRoot := bsky_replyRoot p;
     bsky_embeds := bsky_embeds p;
     bsky_likeCount := bsky_likeCount p;
     bsky_repostCount := bsky_repostCount p;
     bsky_replyCount := bsky_replyCount p;
     bsky_quoteCount := bsky_quoteCount p;
     bsky_parentPost := Some parent |}.

(** The own properties of the object [transformBskyPost] returns, and
    whether each is truthy. *)
Definition postField (p : BlueskyPost) (key : string) : option bool :=
  if String.eqb key "uri" then Some (nonEmpty (bsky_uri p))
  else if String.eqb key "cid" then Some (nonEmpty (bsky_cid p))
  else if String.eqb key "author" then Some true
  else if String.eqb key "text" then Some (nonEmpty (bsky_text p))
  else if String.eqb key "createdAt" then Some (nonEmpty (bsky_createdAt p))
  else if String.eqb key "replyParent" then
    Some (bool_decide (is_Some (truthyString (bsky_replyParent p))))
  else if String.eqb key "replyRoot" then
    Some (bool_decide (is_Some (truthyString (bsky_replyRoot p))))
  else if String.eqb key "embeds" then Some true
  else if String.eqb key "likeCount" then Some (negb (bsky_likeCount p =? 0)%Z)
  else if String.eqb key "repostCount" then Some (negb (bsky_repostCount p =? 0)%Z)
  else if String.eqb key "replyCount" then Some (negb (bsky_replyCount p =? 0)%Z)
  else if String.eqb key "quoteCount" then Some (negb (bsky_quoteCount p =? 0)%Z)
  else None.

(** [fetchBskyPosts]: [upstream] stands for the ATP agent ([getAuthorFeed]
    and [getPostThread], which answers the thread's post when it has one). *)
Definition fetchBskyPosts (upstream : Upstream (Raw := RawItem)) (params : QueryParams)
    (fuel : nat) : option (result (list BlueskyPost)) :=
  fetchPosts keepItem transformBskyPost bsky_replyParent setParentPost postField upstream params fuel.

(** A post without its attached parent. *)
Definition postWithoutParent (p : BlueskyPost) : BlueskyPost :=
  {| bsky_uri := bsky_uri p;
     bsky_cid := bsky_cid p;
     bsky_author := bsky_author p;
     bsky_text := bsky_text p;
     bsky_createdAt := bsky_createdAt p;
     bsky_replyParent := bsky_replyParent p;
     bsky_replyRoot := bsky_replyRoot p;
     bsky_embeds := bsky_embeds p;
     bsky_likeCount := bsky_likeCount p;
     bsky_repostCount := bsky_repostCount p;
     bsky_replyCount := bsky_replyCount p;
     bsky_quoteCount := bsky_quoteCount p;
     bsky_parentPost := None |}.

(** *** A sample feed

    150 casts numbered from the newest (1) to the oldest (150), served in
    three pages of 50; cast [i] replies to the parent ["p1"], ["p2"] or
    ["p3"] according to [i mod 3], and the lookup of ["p2"] throws. *)
Definition numbered (prefix : string) (i : nat) : string :=
  prefix +:+ toString (inject_Z (Z.of_nat i)).

Definition sampleCast (i : nat) : RawCast :=
  {| hash := numbered "cast" i;
     thread_hash := numbered "thread" i;
     parent_hash := Some (numbered "p" (S (i mod 3)));
     author_fid := 3%Z;
     author_username := Some "alice"%string;
     text := numbered "text " i;
     timestamp := numbered "t" i;
     embeds := None;
     likes_count := None;
     recasts_count := None |}.

Definition samplePage (k : nat) : list RawCast := map sampleCast (seq (50 * k + 1) 50).

Definition sampleParent (ref : string) : RawCast :=
  {| hash := ref;
     thread_hash := ref;
     parent_hash := None;
     author_fid := 7%Z;
     author_username := None;
     text := "parent"%string;
     timestamp := "t0"%string;
     embeds := None;
     likes_count := None;
     recasts_count := None |}.

Definition sampleUpstream : Upstream (Raw := RawCast) :=
  {| fetchPage := fun cursor0 =>
       match cursor0 with
       | None => Ok {| items := samplePage 0; cursor := Some "page2"%string |}
       | Some c =>
           if String.eqb c "page2" then
             Ok {| items := samplePage 1; cursor := Some "page3"%string |}
           else if String.eqb c "page3" then
             Ok {| items := samplePage 2; cursor := None |}
           else Thrown "unknown cursor"
       end;
     lookupParent := fun ref =>
       if String.eqb ref "p2" then Thrown "lookup failed" else Ok (Some (sampleParent ref)) |}.

(** One page of two casts, replies to the references ["constructor"] and
    ["p1"]; the lookup of ["constructor"] throws. *)
Definition replyTo (i : nat) (ref : string) : RawCast :=
  {| hash := numbered "cast" i;
     thread_hash := numbered "thread" i;
     parent_hash := Some ref;
     author_fid := 3%Z;
     author_username := Some "alice"%string;
     text := numbered "text " i;
     timestamp := numbered "t" i;
     embeds := None;
     likes_count := None;
     recasts_count := None |}.

Definition inheritedUpstream : Upstream (Raw := RawCast) :=
  {| fetchPage := fun _ =>
       Ok {| items := [replyTo 1 "constructor"; replyTo 2 "p1"]; cursor := None |};
     lookupParent := fun ref =>
       if String.eqb ref "constructor" then Thrown "lookup failed"
       else Ok (Some (sampleParent ref)) |}.

Definition sampleParams (order : SortOrder) (parents : bool) : QueryParams :=
  {| limit := Some 120%Q;
     all := false;
     includeReplies := true;
     includeParents := parents;
     includeReactions := false;
     sortOrder := Some order |}.

End Feed.

(** ** Requests to the two adapters, one field replaced *)
Module FeedRequests.
Import JSNumber Feed.

(** The request [params] with one field replaced. *)
Definition withParents (b : bool) (params : QueryParams) : QueryParams :=
  {| limit := limit params;
     all := all params;
     includeReplies := includeReplies params;
     includeParents := b;
     includeReactions := includeReactions params;
     sortOrder := sortOrder params |}.

Definition withLimit (l : option Q) (params : QueryParams) : QueryParams :=
  {| limit := l;
     all := all params;
     includeReplies := includeReplies params;
     includeParents := includeParents params;
     includeReactions := includeReactions params;
     sortOrder := sortOrder params |}.

(** The number of units [slice(0, limit)] keeps of [n], for a limit that is
    not negative. *)
Definition kept (limit : Q) (n : nat) : nat := Nat.min (Z.to_nat (Qfloor limit)) n.

(** An upstream whose second page cannot be fetched. *)
Definition brokenUpstream : Upstream (Raw := RawCast) :=
  {| fetchPage := fun cursor0 =>
       match cursor0 with
       | None => Ok {| items := samplePage 0; cursor := Some "page2"%string |}
       | Some _ => Thrown "503"
       end;
     lookupParent := fun ref => Ok (Some (sampleParent ref)) |}.

Definition allParams : QueryParams :=
  {| limit := Some 5%Q;
     all := true;
     includeReplies := true;
     includeParents := false;
     includeReactions := false;
     sortOrder := None |}.

End FeedRequests.

(** ** RSS feeds ([fetchRssFeed]) *)
Module Rss.
Import JSNumber Feed.

(** [RssItem], as [parseRss2Feed] and [parseAtomFeed] build it. *)
Record Enclosure := {
  enclosure_url : string;
  enclosure_type : option string;
  enclosure_length : option Z
}.

Record RssItem := {
  title : string;
  link : string;
  description : option string;
  content : option string;
  pubDate : option string;
  author : option string;
  categories : option (list string);
  guid : option string;
  enclosure : option Enclosure
}.

(** [RssQueryParams], as [GET /rss] fills it. *)
Record RssQueryParams := {
  limit : option Q;
  all : bool;
  includeContent : bool;
  sortOrder : option SortOrder
}.

(** [{ ...item, content: undefined }]. *)
Definition withoutContent (item : RssItem) : RssItem :=
  {| title := title item;
     link := link item;
     description := description item;
     content := None;
     pubDate := pubDate item;
     author := author item;
     categories := categories item;
     guid := guid item;
     enclosure := enclosure item |}.

(** Whether [!params.all && params.limit] holds, and the limit then. *)
Definition sliceLimit (params : RssQueryParams) : option Q :=
  if all params then None
  else
    match limit params with
    | Some l => if truthy l then Some l else None
    | None => None
    end.

(** The part of [fetchRssFeed] after the feed is parsed: the value of
    [items] it returns, given the parsed [allItems]. *)
Definition selectItems (params : RssQueryParams) (allItems : list RssItem) : list RssItem :=
  let items :=
    match sortOrder params with
    | Some oldest => rev allItems
    | _ => allItems
    end in
  let items :=
    match sliceLimit params with
    | Some l => slice0 items l
    | None => items
    end in
  if negb (includeContent params) then map withoutContent items else items.

(** The items in the order asked for, before the limit. *)
Definition inOrder (params : RssQueryParams) (allItems : list RssItem) : list RssItem :=
  match sortOrder params with
  | Some oldest => rev allItems
  | _ => allItems
  end.

Definition sampleItem (i : nat) : RssItem :=
  {| title := numbered "post " i;
     link := numbered "https://example.com/" i;
     description := None;
     content := Some (numbered "body " i);
     pubDate := None;
     author := None;
     categories := None;
     guid := None;
     enclosure := None |}.

End Rss.

(** ** Strings of the language *)
Module JSString.
Import JSNumber.

(** [toLowerCase], on the ASCII letters. *)
Definition lowerChar (c : ascii) : ascii :=
  let n := nat_of_ascii c in
  if (65 <=? n)%nat && (n <=? 90)%nat then ascii_of_nat (n + 32) else c.

Fixpoint toLowerCase (s : string) : string :=
  match s with
  | EmptyString => EmptyString
  | String c s' => String (lowerChar c) (toLowerCase s')
  end.

(** [s.replace(/^@/, "")]. *)
Definition stripAt (s : string) : string :=
  match s with
  | String "@" s' => s'
  | _ => s
  end.

Definition startsWith (p s : string) : bool := String.prefix p s.

(** The line feed of a template literal. *)
Definition newline : string := String "010" EmptyString.

Definition endsWith (suffix s : string) : bool :=
  let n := String.length suffix in
  let m := String.length s in
  (n <=? m)%nat && String.eqb (substring (m - n) n s) suffix.

(** [s.split(sep)] for a one-character separator. *)
Fixpoint splitOn (sep : ascii) (s : string) : list string :=
  match s with
  | EmptyString => [EmptyString]
  | String c s' =>
      if Ascii.eqb c sep then EmptyString :: splitOn sep s'
      else
        match splitOn sep s' with
        | first :: others => String c first :: others
        | [] => [String c EmptyString]
        end
  end.

Definition isDigit (c : ascii) : bool :=
  let n := nat_of_ascii c in (48 <=? n)%nat && (n <=? 57)%nat.

(** The value of a run of decimal digits, [None] on any other character. *)
Fixpoint digitsValue (acc : Z) (s : string) : option Z :=
  match s with
  | EmptyString => Some acc
  | String c s' =>
      if isDigit c then digitsValue (acc * 10 + Z.of_nat (nat_of_ascii c - 48)) s'
      else None
  end.

(** The leading run of decimal digits of a string. *)
Fixpoint leadingDigits (s : string) : string :=
  match s with
  | String c s' => if isDigit c then String c (leadingDigits s') else EmptyString
  | EmptyString => EmptyString
  end.

Definition unsignedDecimal (s : string) : option Q :=
  match splitOn "." s with
  | [whole] =>
      if String.eqb whole EmptyString then None
      else z ← digitsValue 0 whole; Some (inject_Z z)
  | [whole; frac] =>
      if String.eqb whole EmptyString && String.eqb frac EmptyString then None
      else
        w ← digitsValue 0 whole;
        f ← digitsValue 0 frac;
        Some (inject_Z w + inject_Z f / pow10 (Z.of_nat (String.length frac)))%Q
  | _ => None
  end.

(** [Number(s)] for a non-empty [s]: a decimal numeral with an optional sign
    and an optional fraction.  [None] is [NaN]; the numerals this grammar
    leaves out (exponents, radix prefixes, surrounding blanks, [Infinity])
    are read as [NaN] here. *)
Definition Number (s : string) : option Q :=
  match s with
  | String "-" s' => q ← unsignedDecimal s'; Some (binary64 (- q))
  | String "+" s' => q ← unsignedDecimal s'; Some (binary64 q)
  | _ => q ← unsignedDecimal s; Some (binary64 q)
  end.

(** [parseInt(s, 10)]: the leading integer of [s], [None] ([NaN]) without one. *)
Definition parseInt (s : string) : option Q :=
  let unsigned (t : string) :=
    let ds := leadingDigits t in
    if String.eqb ds EmptyString then None
    else z ← digitsValue 0 ds; Some (inject_Z z) in
  match s with
  | String "-" s' => q ← unsigned s'; Some (binary64 (- q))
  | String "+" s' => q ← unsigned s'; Some (binary64 q)
  | _ => q ← unsigned s; Some (binary64 q)
  end.

(** A number inside a template literal. *)
Definition numberText (x : option Q) : string :=
  match x with
  | Some q => toString q
  | None => "NaN"
  end.

End JSString.

(** ** The ephemeral cache ([getCached] / [setCache]) *)
Module Cache.

(** The cached values are the numbers the pricing paths store. *)
Record Entry := {
  data : Q;
  expiry : Z
}.

Definition getCached (key : string) (now : Z) (cache : gmap string Entry)
    : option Q * gmap string Entry :=
  match cache !! key with
  | Some item =>
      if (expiry item <? now)%Z then (None, delete key cache)
      else (Some (data item), cache)
  | None => (None, delete key cache)
  end.

Definition setCache (key : string) (value : Q) (ttl now : Z) (cache : gmap string Entry)
    : gmap string Entry :=
  <[key := {| data := value; expiry := (now + ttl)%Z |}]> cache.

End Cache.

(** ** The Farcaster price paths: [GET /estimate] and the payment middleware of [GET /]

    Both handlers read the query of one request, the deployment's base price
    (the number [parseDollarPrice(c.env.X402_BASE_PRICE || "$0.001")]), the
    shared cache and the Neynar client.  [now] is the reading of [Date.now()]
    during the handler. *)
Module Handlers.
Import JSNumber JSString Pricing Cache.
Import Feed(result, Ok, Thrown).

(** The two calls of the Neynar client the price paths make: the [fid] of
    [userResponse?.user?.fid] and the count of [storageResponse?.casts?.used]. *)
Record Neynar := {
  lookupUserByUsername : string -> result (option Q);
  lookupUserStorageUsage : option Q -> result (option Q)
}.

Definition truthyParam (v : option string) : option string := Feed.truthyString v.

(** [query.limit ? Number(query.limit) : undefined]. *)
Definition parseLimit (query : gmap string string) : option Q :=
  match truthyParam (query !! "limit") with
  | Some s => Number s
  | None => None
  end.

(** [c.req.query(name) === "true"], as the estimate route reads a flag. *)
Definition flagExact (query : gmap string string) (name : string) : bool :=
  match query !! name with
  | Some v => String.eqb v "true"
  | None => false
  end.

(** [String(query[name]).toLowerCase() === "true"], as the middleware reads it. *)
Definition flagLower (query : gmap string string) (name : string) : bool :=
  match query !! name with
  | Some v => String.eqb (toLowerCase v) "true"
  | None => false
  end.

Inductive EstimateResponse :=
| EstimateJson (price : string) (isFree : bool) (castCount : option Q)
| EstimateError (status : Z) (error : string).

(** What the middleware does with the request: call [next()] unpaid, or hand
    [price] to the payment gate. *)
Inductive GateDecision :=
| Next
| PaymentGate (price : string).

Section WithDeployment.
Variable neynar : Neynar.
Variable basePrice : Q.
Variable payTo : option string.
Variable now : Z.

Definition storageKey (userFid : option Q) : string := "storage:" +:+ numberText userFid.
Definition userKey (cleanUsername : string) : string := "user:" +:+ cleanUsername.

(** [app.get("/estimate", ...)]. *)
Definition estimate (query : gmap string string) (cache : gmap string Entry)
    : EstimateResponse * gmap string Entry :=
  let fid := truthyParam (query !! "fid") in
  let username := truthyParam (query !! "username") in
  match fid, username with
  | None, None => (EstimateError 400 "fid or username required", cache)
  | _, _ =>
      let params :=
        {| limit := parseLimit query;
           all := flagExact query "all";
           includeReplies := flagExact query "includeReplies";
           includeParents := flagExact query "includeParents";
           includeReactions := flagExact query "includeReactions" |} in
      if isFreeTier params then (EstimateJson "$0" true None, cache)
      else if all params then
        (* resolve the user: [inl] is the early 404 *)
        let resolved : (EstimateResponse + option Q) * gmap string Entry :=
          match fid with
          | Some f => (inr (parseInt f), cache)
          | None =>
              let cleanUsername := stripAt (toLowerCase (default EmptyString username)) in
              let cacheKey := userKey cleanUsername in
              let '(cached, cache) := getCached cacheKey now cache in
              let viaLookup (cache : gmap string Entry) :=
                match lookupUserByUsername neynar cleanUsername with
                | Ok (Some userFid) =>
                    if truthy userFid
                    then (inr (Some userFid), setCache cacheKey userFid 300000 now cache)
                    else (inl (EstimateError 404 "User not found"), cache)
                | Ok None => (inl (EstimateError 404 "User not found"), cache)
                | Thrown _ => (inl (EstimateError 404 "User not found"), cache)
                end in
              match cached with
              | Some c => if truthy c then (inr (Some c), cache) else viaLookup cache
              | None => viaLookup cache
              end
          end in
        match resolved with
        | (inl response, cache) => (response, cache)
        | (inr userFid, cache) =>
            let storageCacheKey := storageKey userFid in
            let '(castCount, cache) := getCached storageCacheKey now cache in
            let '(castCount, cache) :=
              match castCount with
              | Some n => (n, cache)
              | None =>
                  match lookupUserStorageUsage neynar userFid with
                  | Ok used =>
                      let n := default 0%Q used in
                      (n, setCache storageCacheKey n 60000 now cache)
                  | Thrown _ => (0%Q, cache)
                  end
              end in
            (EstimateJson
               (calculateDynamicPriceWithCastCount params (Some castCount) basePrice)
               false (Some castCount),
             cache)
        end
      else
        (EstimateJson (calculateDynamicPriceWithCastCount params None basePrice) false None,
         cache)
  end.

(** The [try] block of the middleware that looks the cast count up; a throw
    anywhere in it leaves [castCount] at [null]. *)
Definition gateCastCount (query : gmap string string) (cache : gmap string Entry)
    : option Q * gmap string Entry :=
  let fid := truthyParam (query !! "fid") in
  let username := truthyParam (query !! "username") in
  let resolved : option (option Q) * gmap string Entry :=
    (* [None]: the lookup threw; [Some userFid] otherwise, [Some None] for no user *)
    match fid, username with
    | Some f, _ => (Some (parseInt f), cache)
    | None, Some u =>
        let cleanUsername := stripAt (toLowerCase u) in
        let cacheKey := userKey cleanUsername in
        let '(cached, cache) := getCached cacheKey now cache in
        let viaLookup (cache : gmap string Entry) :=
          match lookupUserByUsername neynar cleanUsername with
          | Ok (Some userFid) =>
              if truthy userFid
              then (Some (Some userFid), setCache cacheKey userFid 300000 now cache)
              else (Some None, cache)
          | Ok None => (Some None, cache)
          | Thrown _ => (None, cache)
          end in
        match cached with
        | Some c => if truthy c then (Some (Some c), cache) else viaLookup cache
        | None => viaLookup cache
        end
    | None, None => (Some None, cache)
    end in
  match resolved with
  | (Some (Some userFid), cache) =>
      if truthy userFid then
        let storageCacheKey := storageKey (Some userFid) in
        let '(castCount, cache) := getCached storageCacheKey now cache in
        match castCount with
        | Some n => (Some n, cache)
        | None =>
            match lookupUserStorageUsage neynar (Some userFid) with
            | Ok (Some n) => (Some n, setCache storageCacheKey n 60000 now cache)
            | Ok None => (None, cache)
            | Thrown _ => (None, cache)
            end
        end
      else (None, cache)
  | (_, cache) => (None, cache)
  end.

(** [app.use("/", ...)], the payment middleware. *)
Definition gate (query : gmap string string) (cache : gmap string Entry)
    : GateDecision * gmap string Entry :=
  if bool_decide (query = ∅) then (Next, cache)
  else
    match truthyParam payTo with
    | None => (Next, cache)
    | Some _ =>
        let pricingParams :=
          {| limit := parseLimit query;
             all := flagLower query "all";
             includeReplies := flagLower query "includeReplies";
             includeParents := flagLower query "includeParents";
             includeReactions := flagLower query "includeReactions" |} in
        if isFreeTier pricingParams then (Next, cache)
        else
          let '(castCount, cache) :=
            if all pricingParams then gateCastCount query cache else (None, cache) in
          (PaymentGate (calculateDynamicPriceWithCastCount pricingParams castCount basePrice),
           cache)
    end.

End WithDeployment.

(** *** Sample deployments and requests

    A client that finds every user and reports 1200 stored casts, and one
    whose storage lookup throws; a base price of [0.001]. *)
Definition neynarWith1200Casts : Neynar :=
  {| lookupUserByUsername := fun _ => Ok (Some 3%Q);
     lookupUserStorageUsage := fun _ => Ok (Some 1200%Q) |}.

Definition neynarStorageDown : Neynar :=
  {| lookupUserByUsername := fun _ => Ok (Some 3%Q);
     lookupUserStorageUsage := fun _ => Thrown "503" |}.

Definition sampleBasePrice : Q := lit (1 # 1000).

(** [?fid=3&all=TRUE&limit=5] and [?fid=3&all=true]. *)
Definition queryUpperCaseAll : gmap string string :=
  list_to_map [("fid", "3"); ("all", "TRUE"); ("limit", "5")]%string.

Definition queryAll : gmap string string :=
  list_to_map [("fid", "3"); ("all", "true")]%string.

(** [?fid=3&limit=500&includeReplies=true]. *)
Definition queryPaid : gmap string string :=
  list_to_map [("fid", "3"); ("limit", "500"); ("includeReplies", "true")]%string.

End Handlers.

(** ** Resolving a username ([resolveFid]) *)
Module Users.
Import JSNumber JSString Cache Handlers.
Import Feed(result, Ok, Thrown).

Section WithClient.
(** [String.prototype.toLowerCase]: the case mapping of the full character
    set is left open; [JSString.toLowerCase] is its action on ASCII text. *)
Variable toLowerCase : string -> string.
Variable neynar : Neynar.
Variable now : Z.

Definition fidKey (normalized : string) : string := "fid:" +:+ normalized.

(** [resolveFid]. *)
Definition resolveFid (username : string) (cache : gmap string Entry)
    : result Q * gmap string Entry :=
  let normalized := stripAt (toLowerCase username) in
  let '(cached, cache) := getCached (fidKey normalized) now cache in
  let viaLookup (cache : gmap string Entry) :=
    match lookupUserByUsername neynar normalized with
    | Ok (Some fid) =>
        if truthy fid then (Ok fid, setCache (fidKey normalized) fid 300000 now cache)
        else (Thrown ("User not found: " +:+ username), cache)
    | Ok None => (Thrown ("User not found: " +:+ username), cache)
    | Thrown msg => (Thrown msg, cache)
    end in
  match cached with
  | Some c => if truthy c then (Ok c, cache) else viaLookup cache
  | None => viaLookup cache
  end.
End WithClient.
End Users.

(** ** Git adapter: pattern filter and content fetch *)
Module Git.
Import JSNumber JSString.
Import Feed(result, Ok, Thrown).

Inductive FileType := file | dir.

(** [GitFile]. *)
Record GitFile := {
  path : string;
  name : string;
  type : FileType;
  size : option Z;
  sha : string;
  content : option string
}.

(** [GitQueryParams]. *)
Record GitQueryParams := {
  url : string;
  branch : option string;
  includeContent : bool;
  includeTree : bool;
  maxFileSize : option Q;
  includePatterns : option (list string);
  excludePatterns : option (list string)
}.

(** An HTTP response of [fetch]: its status and its decoded body. *)
Record Response (A : Type) := {
  status : Z;
  body : A
}.
Arguments status {A} r.
Arguments body {A} r.
Definition ok {A} (r : Response A) : bool := (200 <=? status r)%Z && (status r <=? 299)%Z.

(** The fields of the repository document the adapter reads; the other
    metadata fields are copied to [GitRepo] one by one and are left out. *)
Record RepoData := {
  full_name : string;
  default_branch : string;
  repo_size : Z
}.

(** An entry of [treeData.tree]. *)
Record TreeItem := {
  item_path : string;
  item_type : string;
  item_size : option Z;
  item_sha : string
}.

Record TreeData := {
  tree_sha : string;
  tree_entries : option (list TreeItem)
}.

(** The four GitHub endpoints [fetchGitHubRepo] calls; each may throw. *)
Record GitHub := {
  getRepo : result (Response RepoData);
  getReadme : result (Response string);
  getTree : string -> result (Response TreeData);
  getContent : string -> string -> result (Response string)
}.

Record GitResponseMeta := {
  commitSha : string;
  meta_branch : string;
  filteredFileCount : nat;
  totalFileCount : nat
}.

Record GitResponse := {
  repo : RepoData;
  files : list GitFile;
  readme : option string;
  tree : option (list GitFile);
  meta : GitResponseMeta
}.

Definition textExtensions : list string :=
  [".md"; ".txt"; ".js"; ".ts"; ".jsx"; ".tsx"; ".py"; ".go"; ".rs"; ".java"; ".c";
   ".cpp"; ".h"; ".css"; ".html"; ".json"; ".yaml"; ".yml"; ".toml"; ".xml"; ".sh";
   ".bash"; ".zsh"; ".mjs"; ".cjs"; ".mts"; ".cts"; ".vue"; ".svelte"; ".astro"].

Definition isFile (f : GitFile) : bool :=
  match type f with
  | file => true
  | dir => false
  end.

(** [xs.pop()] of a non-empty array. *)
Definition lastSegment (p : string) : string := List.last (splitOn "/" p) EmptyString.

Definition toGitFile (item : TreeItem) : GitFile :=
  {| path := item_path item;
     name :=
       (let base := lastSegment (item_path item) in
        if String.eqb base EmptyString then item_path item else base);
     type := if String.eqb (item_type item) "tree" then dir else file;
     size := item_size item;
     sha := item_sha item;
     content := None |}.

(** [{ ...file, content }]. *)
Definition withContent (f : GitFile) (text : string) : GitFile :=
  {| path := path f;
     name := name f;
     type := type f;
     size := size f;
     sha := sha f;
     content := Some text |}.

Section Picomatch.
(** [picomatch.isMatch(filePath, pattern, { dot: true })], a function of the
    picomatch package: its first argument is the path, its second the glob. *)
Variable isMatch : string -> string -> bool.

Definition matchesPatterns (filePath : string)
    (includePatterns excludePatterns : option (list string)) : bool :=
  let included :=
    match includePatterns with
    | Some (p :: ps) => existsb (fun pattern => isMatch filePath pattern) (p :: ps)
    | _ => true
    end in
  if negb included then false
  else
    match excludePatterns with
    | Some (p :: ps) =>
        let excluded := existsb (fun pattern => isMatch filePath pattern) (p :: ps) in
        if excluded then false else true
    | _ => true
    end.

Definition hasPatterns (patterns : option (list string)) : bool :=
  match patterns with
  | Some (_ :: _) => true
  | _ => false
  end.

Definition filterTree (tree : list GitFile)
    (includePatterns excludePatterns : option (list string)) : list GitFile :=
  if negb (hasPatterns includePatterns) && negb (hasPatterns excludePatterns) then tree
  else List.filter (fun f => matchesPatterns (path f) includePatterns excludePatterns) tree.

(** [params.maxFileSize || 100000]. *)
Definition maxSizeOf (params : GitQueryParams) : Q := orDefault (maxFileSize params) 100000.

Definition filesToFetch (params : GitQueryParams) (tree : list GitFile) : list GitFile :=
  take 50
    (List.filter
       (fun f => existsb (fun ext => endsWith ext (toLowerCase (path f))) textExtensions)
       (List.filter
          (fun f => isFile f && Qle_bool (inject_Z (default 0%Z (size f))) (maxSizeOf params))
          tree)).

(** The loop over [filesToFetch]: a body is pushed only for a response that
    is [ok]; a throw or any other status skips the file. *)
Definition fetchContents (gh : GitHub) (branchName : string) (toFetch : list GitFile)
    : list GitFile :=
  omap
    (fun f =>
       match getContent gh (path f) branchName with
       | Ok contentResponse =>
           if ok contentResponse then Some (withContent f (body contentResponse)) else None
       | Thrown _ => None
       end)
    toFetch.

(** The tree block: [(tree, commitSha, totalFileCount)]. *)
Definition fetchTree (gh : GitHub) (params : GitQueryParams) (branchName : string)
    : option (list GitFile) * option string * nat :=
  if includeTree params || includeContent params then
    match getTree gh branchName with
    | Ok treeResponse =>
        if ok treeResponse then
          let treeData := body treeResponse in
          let rawTree := map toGitFile (default [] (tree_entries treeData)) in
          (Some (filterTree rawTree (includePatterns params) (excludePatterns params)),
           Some (tree_sha treeData),
           length (List.filter isFile rawTree))
        else (None, None, O)
    | Thrown _ => (None, None, O)
    end
  else (None, None, O).

Definition fetchGitHubRepo (gh : GitHub) (owner repoName : string) (params : GitQueryParams)
    : result GitResponse :=
  match getRepo gh with
  | Thrown msg => Thrown msg
  | Ok repoResponse =>
      if negb (ok repoResponse) then
        if (status repoResponse =? 404)%Z
        then Thrown ("Repository not found: " +:+ owner +:+ "/" +:+ repoName)
        else Thrown ("GitHub API error: " +:+ toString (inject_Z (status repoResponse)))
      else
        let repoData := body repoResponse in
        let branchName :=
          match Feed.truthyString (branch params) with
          | Some b => b
          | None => default_branch repoData
          end in
        let readme :=
          match getReadme gh with
          | Ok readmeResponse =>
              if ok readmeResponse then Some (body readmeResponse) else None
          | Thrown _ => None
          end in
        let '(tree, commitSha, totalFileCount) := fetchTree gh params branchName in
        let files :=
          match tree with
          | Some entries =>
              if includeContent params
              then fetchContents gh branchName (filesToFetch params entries)
              else []
          | None => []
          end in
        let filteredFileCount := length (List.filter isFile (default [] tree)) in
        Ok {| repo := repoData;
              files := files;
              readme := readme;
              tree := if includeTree params then tree else None;
              meta := {| commitSha := default "unknown" (Feed.truthyString commitSha);
                         meta_branch := branchName;
                         filteredFileCount := filteredFileCount;
                         totalFileCount := totalFileCount |} |}
  end.

End Picomatch.

(** *** A glob matcher

    A reference matcher for the glob dialect of picomatch with [dot: true],
    restricted to literal characters, [?], [*] (any run of characters other
    than [/]) and the segment [**] (any number of whole path segments).  It
    stands in for [picomatch.isMatch] where a concrete matcher is needed. *)
Fixpoint segmentMatch (fuel : nat) (pat str : string) : bool :=
  match fuel with
  | O => false
  | S fuel' =>
      match pat, str with
      | EmptyString, EmptyString => true
      | EmptyString, String _ _ => false
      | String "*" pat', EmptyString => segmentMatch fuel' pat' EmptyString
      | String "*" pat', String _ str' =>
          segmentMatch fuel' pat' str || segmentMatch fuel' pat str'
      | String "?" pat', String _ str' => segmentMatch fuel' pat' str'
      | String c pat', String d str' => Ascii.eqb c d && segmentMatch fuel' pat' str'
      | String _ _, EmptyString => false
      end
  end.

Fixpoint segmentsMatch (fuel : nat) (pats segs : list string) : bool :=
  match fuel with
  | O => false
  | S fuel' =>
      match pats, segs with
      | [], [] => true
      | [], _ :: _ => false
      | "**"%string :: pats', [] => segmentsMatch fuel' pats' []
      | "**"%string :: pats', _ :: segs' =>
          segmentsMatch fuel' pats' segs || segmentsMatch fuel' pats segs'
      | _ :: _, [] => false
      | p :: pats', s :: segs' =>
          segmentMatch (String.length p + String.length s + 1) p s
          && segmentsMatch fuel' pats' segs'
      end
  end.

Definition globMatch (filePath pattern : string) : bool :=
  let pats := splitOn "/" pattern in
  let segs := splitOn "/" filePath in
  segmentsMatch (length pats + length segs + 1) pats segs.

(** *** A sample repository

    Five tree entries; every endpoint answers 200, except that the body of
    [src/b.ts] cannot be fetched. *)
Definition sampleEntries : list TreeItem :=
  [ {| item_path := "README.md"; item_type := "blob"; item_size := Some 5%Z; item_sha := "a1" |};
    {| item_path := "src"; item_type := "tree"; item_size := None; item_sha := "a2" |};
    {| item_path := "src/a.ts"; item_type := "blob"; item_size := Some 200000%Z;
       item_sha := "a3" |};
    {| item_path := "src/b.ts"; item_type := "blob"; item_size := Some 10%Z; item_sha := "a4" |};
    {| item_path := "logo.png"; item_type := "blob"; item_size := Some 50%Z; item_sha := "a5" |}
  ]%string.

Definition sampleGitHub : GitHub :=
  {| getRepo :=
       Ok {| status := 200;
             body := {| full_name := "owner/repo"; default_branch := "main";
                        repo_size := 300 |} |};
     getReadme := Ok {| status := 200; body := "hello"%string |};
     getTree := fun _ =>
       Ok {| status := 200;
             body := {| tree_sha := "c0ffee"; tree_entries := Some sampleEntries |} |};
     getContent := fun filePath _ =>
       if String.eqb filePath "src/b.ts" then Thrown "network"
       else Ok {| status := 200; body := ("body of " +:+ filePath)%string |} |}.

Definition sampleGitParams (ceiling : option Q) : GitQueryParams :=
  {| url := "https://github.com/owner/repo";
     branch := None;
     includeContent := true;
     includeTree := true;
     maxFileSize := ceiling;
     includePatterns := None;
     excludePatterns := None |}.

End Git.

(** ** Hierarchical tree renderer ([formatHierarchicalTree])

    The nested object the function builds is a [Node]: the bookkeeping
    properties [_isFile] and [_size] of an object, and its other own
    properties (one per path segment) in insertion order.  Path segments are
    taken to differ from the two bookkeeping names and from the members of
    [Object.prototype] ([plainPaths] below); the theorems about the text of a
    listing assume it. *)
Module Tree.
Import JSNumber JSObject JSString Git.

Inductive Node := mkNode {
  node_isFile : option bool;
  node_size : option Z;
  node_children : list (string * Node)
}.

(** [{}]. *)
Definition emptyObject : Node := mkNode None None [].

(** [{ _isFile: item.type === "file", _size: item.size }]. *)
Definition leafOf (item : GitFile) : Node := mkNode (Some (isFile item)) (size item) [].

(** [current[part]] and [current[part] = value]: an assignment to an existing
    property keeps its place in the order of the properties. *)
Fixpoint getProp (props : list (string * Node)) (key : string) : option Node :=
  match props with
  | [] => None
  | (k, v) :: props' => if String.eqb k key then Some v else getProp props' key
  end.

Fixpoint setProp (props : list (string * Node)) (key : string) (value : Node)
    : list (string * Node) :=
  match props with
  | [] => [(key, value)]
  | (k, v) :: props' =>
      if String.eqb k key then (k, value) :: props' else (k, v) :: setProp props' key value
  end.

Definition withChildren (n : Node) (props : list (string * Node)) : Node :=
  mkNode (node_isFile n) (node_size n) props.

(** The inner [for] loop over [parts], from index [i] on, with [current] the
    object reached so far; the result is that object after the loop. *)
Fixpoint insertParts (parts : list string) (item : GitFile) (current : Node) : Node :=
  match parts with
  | [] => current
  | part :: rest =>
      if String.eqb part EmptyString then insertParts rest item current
      else
        match rest with
        | [] => withChildren current (setProp (node_children current) part (leafOf item))
        | _ :: _ =>
            let child := default emptyObject (getProp (node_children current) part) in
            withChildren current
              (setProp (node_children current) part (insertParts rest item child))
        end
  end.

Definition insertItem (root : Node) (item : GitFile) : Node :=
  insertParts (splitOn "/" (path item)) item root.

Definition buildTree (tree : list GitFile) : Node := foldl insertItem emptyObject tree.

(** *** [Object.entries]: array-index keys first, in ascending order, then
    the other keys in insertion order. *)
Definition arrayIndex (key : string) : option Z :=
  match key with
  | EmptyString => None
  | String "0" EmptyString => Some 0%Z
  | String "0" _ => None
  | _ =>
      match digitsValue 0 key with
      | Some n => if (n <=? 4294967294)%Z then Some n else None
      | None => None
      end
  end.

Definition isArrayIndex (key : string) : bool :=
  match arrayIndex key with
  | Some _ => true
  | None => false
  end.

Section Entries.
Context {A : Type}.

Fixpoint insertByIndex (i : Z) (e : string * A) (sorted : list (Z * (string * A)))
    : list (Z * (string * A)) :=
  match sorted with
  | [] => [(i, e)]
  | (j, e') :: sorted' =>
      if (i <=? j)%Z then (i, e) :: (j, e') :: sorted'
      else (j, e') :: insertByIndex i e sorted'
  end.

Fixpoint indexKeyed (props : list (string * A)) : list (Z * (string * A)) :=
  match props with
  | [] => []
  | (k, v) :: props' =>
      match arrayIndex k with
      | Some i => insertByIndex i (k, v) (indexKeyed props')
      | None => indexKeyed props'
      end
  end.

Definition objectEntries (props : list (string * A)) : list (string * A) :=
  map snd (indexKeyed props)
  ++ List.filter (fun e => negb (isArrayIndex e.1)) props.

(** [.filter(([k]) => !k.startsWith("_"))]. *)
Definition visible (entries : list (string * A)) : list (string * A) :=
  List.filter (fun e => negb (startsWith "_" e.1)) entries.

Variable localeCompare : string -> string -> Z.
(** [!value._isFile]. *)
Variable isDir : A -> bool.

(** The comparator handed to [sort]. *)
Definition compareEntries (x y : string * A) : Z :=
  let aIsDir := isDir x.2 in
  let bIsDir := isDir y.2 in
  if xorb aIsDir bIsDir then (if aIsDir then (-1)%Z else 1%Z)
  else localeCompare x.1 y.1.

(** The comparator does not put [x] after [y]. *)
Definition before (x y : string * A) : Prop := (compareEntries x y <= 0)%Z.

(** [Array.prototype.sort] is stable: an entry stays before the entries it
    compares equal to that came after it. *)
Fixpoint insertSorted (x : string * A) (sorted : list (string * A)) : list (string * A) :=
  match sorted with
  | [] => [x]
  | y :: sorted' =>
      if (compareEntries x y <=? 0)%Z then x :: y :: sorted'
      else y :: insertSorted x sorted'
  end.

Fixpoint sortEntries (entries : list (string * A)) : list (string * A) :=
  match entries with
  | [] => []
  | x :: entries' => insertSorted x (sortEntries entries')
  end.

(** The array [sorted] of [renderNode]. *)
Definition sortedEntries (props : list (string * A)) : list (string * A) :=
  sortEntries (visible (objectEntries props)).

End Entries.

(** An entry with its value replaced. *)
Definition relabelEntry {A B : Type} (relabel : A -> B) (e : string * A) : string * B :=
  (e.1, relabel e.2).

Definition nodeIsDir (n : Node) : bool := negb (default false (node_isFile n)).

(** The text of one entry, given the text of its subtree. *)
Definition sizeText (n : Node) : string :=
  match node_size n with
  | Some sz => if (sz =? 0)%Z then EmptyString else " (" +:+ toString (inject_Z sz) +:+ " bytes)"
  | None => EmptyString
  end.

Section Render.
Variable localeCompare : string -> string -> Z.

(** What [renderNode] needs of a child once its subtree is rendered: whether
    it is a directory, its size text, and its subtree's text by prefix. *)
Record Rendered := {
  r_isDir : bool;
  r_size : string;
  r_subtree : string -> string
}.

(** The [forEach] over [sorted]. *)
Fixpoint emitEntries (prefix : string) (sorted : list (string * Rendered)) : string :=
  match sorted with
  | [] => EmptyString
  | (name, value) :: sorted' =>
      let isLast := match sorted' with [] => true | _ => false end in
      let connector := if isLast then "â””â”€â”€ " else "â”œâ”€â”€ " in
      let childPrefix := if isLast then "    " else "â”‚   " in
      let line :=
        if r_isDir value then
          prefix +:+ connector +:+ name +:+ "/" +:+ newline
          +:+ r_subtree value (prefix +:+ childPrefix)
        else
          prefix +:+ connector +:+ name +:+ r_size value +:+ newline in
      line +:+ emitEntries prefix sorted'
  end.

Fixpoint renderNode (node : Node) (prefix : string) {struct node} : string :=
  let rendered :=
    (fix renderChildren (props : list (string * Node)) : list (string * Rendered) :=
       match props with
       | [] => []
       | (k, child) :: props' =>
           (k, {| r_isDir := nodeIsDir child;
                  r_size := sizeText child;
                  r_subtree := renderNode child |})
           :: renderChildren props'
       end) (node_children node) in
  emitEntries prefix (sortedEntries localeCompare r_isDir rendered).

Definition formatHierarchicalTree (tree : list GitFile) : string :=
  renderNode (buildTree tree) EmptyString.

(** The entries of one nesting level in the order [renderNode] lists them
    (its array [sorted]), and an entry with its subtree rendered. *)
Definition levelEntries (node : Node) : list (string * Node) :=
  sortedEntries localeCompare nodeIsDir (node_children node).

Definition renderedChild (e : string * Node) : string * Rendered :=
  (e.1, {| r_isDir := nodeIsDir e.2; r_size := sizeText e.2; r_subtree := renderNode e.2 |}).

End Render.

(** *** The object as a finite map

    The nested object with the order of its properties left out: the
    renderer sorts every level, so that order reaches the text only where
    two names compare equal.  [mapInsertParts] is [insertParts] on this
    view. *)
Inductive MapNode := mkMapNode {
  map_isFile : option bool;
  map_size : option Z;
  map_children : gmap string MapNode
}.

Fixpoint abstract (n : Node) : MapNode :=
  mkMapNode (node_isFile n) (node_size n)
    ((fix abstractProps (props : list (string * Node)) : gmap string MapNode :=
        match props with
        | [] => ∅
        | (k, child) :: props' => <[k := abstract child]> (abstractProps props')
        end) (node_children n)).

Fixpoint abstractProps (props : list (string * Node)) : gmap string MapNode :=
  match props with
  | [] => ∅
  | (k, child) :: props' => <[k := abstract child]> (abstractProps props')
  end.

Definition abstractEntry (e : string * Node) : string * MapNode := relabelEntry abstract e.

Definition mapIsDir (m : MapNode) : bool := negb (default false (map_isFile m)).

Fixpoint mapInsertParts (parts : list string) (item : GitFile) (current : MapNode) : MapNode :=
  match parts with
  | [] => current
  | part :: rest =>
      if String.eqb part EmptyString then mapInsertParts rest item current
      else
        let child :=
          match rest with
          | [] => abstract (leafOf item)
          | _ :: _ =>
              mapInsertParts rest item
                (default (abstract emptyObject) (map_children current !! part))
          end in
        mkMapNode (map_isFile current) (map_size current)
          (<[part := child]> (map_children current))
  end.

Definition mapInsertItem (root : MapNode) (item : GitFile) : MapNode :=
  mapInsertParts (splitOn "/" (path item)) item root.

(** No object holds two properties of one name. *)
Inductive wellFormed : Node -> Prop :=
| wellFormed_node f s props :
    NoDup (map fst props) ->
    Forall (fun e => wellFormed e.2) props ->
    wellFormed (mkNode f s props).

(** *** Paths that run through one another

    The segments of a path are its non-empty parts.  Two entries are
    [nested] when the segments of one begin the segments of the other: a
    directory and an entry beneath it, or two entries of one path. *)
Definition segments (parts : list string) : list string :=
  List.filter (fun part => negb (String.eqb part EmptyString)) parts.

Definition pathSegments (item : GitFile) : list string := segments (splitOn "/" (path item)).

Fixpoint isPrefix (a b : list string) : bool :=
  match a, b with
  | [], _ => true
  | _ :: _, [] => false
  | x :: a', y :: b' => String.eqb x y && isPrefix a' b'
  end.

Definition nested (x y : GitFile) : bool :=
  isPrefix (pathSegments x) (pathSegments y) || isPrefix (pathSegments y) (pathSegments x).

(** Every entry comes before the entries beneath it, and no path is listed
    twice: the segments of an entry never begin those of an entry listed
    before it. *)
Fixpoint parentsFirst (tree : list GitFile) : bool :=
  match tree with
  | [] => true
  | x :: tree' =>
      forallb (fun y => negb (isPrefix (pathSegments y) (pathSegments x))) tree'
      && parentsFirst tree'
  end.

(** The names a path segment is taken to differ from: the two bookkeeping
    properties, which an entry of that name would overwrite, and the members
    every object inherits, which [current[part]] would answer with. *)
Definition reservedNames : list string :=
  ["_isFile"; "_size"]%string ++ objectPrototypeMembers.

Definition plainPaths (tree : list GitFile) : bool :=
  forallb
    (fun item =>
       forallb (fun part => negb (bool_decide (part ∈ reservedNames))) (pathSegments item))
    tree.

(** Comparison by code units: a stand-in for [localeCompare] where a
    concrete collation is needed; the two agree on names made of lower-case
    ASCII letters and digits. *)
Definition codeUnitCompare (a b : string) : Z :=
  match String.compare a b with
  | Lt => (-1)%Z
  | Eq => 0%Z
  | Gt => 1%Z
  end.

(** *** Sample entries: a directory [src] and a file [src/a.ts] in it. *)
Definition entry (filePath : string) (kind : FileType) (bytes : option Z) : GitFile :=
  {| path := filePath; name := lastSegment filePath; type := kind; size := bytes;
     sha := "0"; content := None |}.

Definition srcDir : GitFile := entry "src" dir None.
Definition srcFile : GitFile := entry "src/a.ts" file (Some 12%Z).
Definition readmeFile : GitFile := entry "README.md" file (Some 5%Z).

End Tree.

(* ===================================================================== *)
(** * Part II: properties                                                 *)
(* ===================================================================== *)

(** ** Rounding to binary64 is monotone *)
Module JSNumberFacts.
Import JSNumber.
Local Open Scope Q_scope.

Lemma pow2_pos e : 0 < pow2 e.
Proof. apply Qpower_0_lt. reflexivity. Qed.

Lemma pow2_add a b : pow2 (a + b) == pow2 a * pow2 b.
Proof. apply Qpower_plus. discriminate. Qed.

Lemma pow2_le a b : (a <= b)%Z -> pow2 a <= pow2 b.
Proof. intros. apply Qpower_le_compat_l; [assumption|]. discriminate. Qed.

Lemma pow2_lt_inv a b : pow2 a < pow2 b -> (a < b)%Z.
Proof. intros. apply Qpower_lt_compat_l_inv with (q := 2); [assumption| reflexivity]. Qed.

Lemma roundHalfEven_floor q :
  (Qfloor q <= roundHalfEven q <= Qfloor q + 1)%Z.
Proof. unfold roundHalfEven. destruct (Qcompare _ _); [destruct (Z.even _)| |]; lia. Qed.

Lemma roundHalfEven_le x y : x <= y -> (roundHalfEven x <= roundHalfEven y)%Z.
Proof.
  intros Hxy.
  pose proof (Qfloor_resp_le _ _ Hxy) as Hf.
  pose proof (roundHalfEven_floor x) as Hx.
  pose proof (roundHalfEven_floor y) as Hy.
  destruct (Z.eq_dec (Qfloor x) (Qfloor y)) as [He|Hne]; [|lia].
  unfold roundHalfEven in *. rewrite He in *.
  destruct (Qcompare_spec (x - inject_Z (Qfloor y)) (1 # 2)) as [Ex|Lx|Gx];
  destruct (Qcompare_spec (y - inject_Z (Qfloor y)) (1 # 2)) as [Ey|Ly|Gy];
  try destruct (Z.even (Qfloor y)); try lia; exfalso; lra.
Qed.

Lemma roundHalfEven_Z n : roundHalfEven (inject_Z n) = n.
Proof.
  unfold roundHalfEven. rewrite Qfloor_Z.
  destruct (Qcompare_spec (inject_Z n - inject_Z n) (1 # 2)) as [E|L|G]; try reflexivity; exfalso; lra.
Qed.

Lemma roundHalfEven_comp x y : x == y -> roundHalfEven x = roundHalfEven y.
Proof.
  intros E. apply Z.le_antisymm; apply roundHalfEven_le; rewrite E; apply Qle_refl.
Qed.

Lemma ilog2_spec q : 0 < q -> pow2 (ilog2 q) <= q /\ q < pow2 (ilog2 q + 1).
Proof.
  intros Hq. destruct q as [n d]. unfold Qlt in Hq. simpl in Hq.
  assert (Hn : (0 < n)%Z) by lia.
  unfold ilog2. simpl Qnum. simpl Qden.
  rewrite (Z.abs_eq n) by lia.
  rewrite (Qabs_pos (n # d)) by (unfold Qle; simpl; lia).
  set (a := Z.log2 n). set (b := Z.log2 (Z.pos d)).
  assert (Ha : (0 <= a)%Z) by apply Z.log2_nonneg.
  assert (Hb : (0 <= b)%Z) by apply Z.log2_nonneg.
  destruct (Z.log2_spec n Hn) as [Ha1 Ha2]. fold a in Ha1, Ha2.
  destruct (Z.log2_spec (Z.pos d) eq_refl) as [Hb1 Hb2]. fold b in Hb1, Hb2.
  assert (Pa : pow2 a == inject_Z (2 ^ a)) by (unfold pow2; rewrite Zpower_Qpower by lia; reflexivity).
  assert (Pb : pow2 b == inject_Z (2 ^ b)) by (unfold pow2; rewrite Zpower_Qpower by lia; reflexivity).
  assert (Hnd : n # d == inject_Z n / inject_Z (Z.pos d)) by (apply Qmake_Qdiv).
  assert (Hdpos : 0 < inject_Z (Z.pos d)) by (unfold Qlt; simpl; lia).
  assert (Hq' : inject_Z n == (n # d) * inject_Z (Z.pos d)).
  { rewrite Hnd. field. intro E. rewrite E in Hdpos. apply (Qlt_irrefl 0). exact Hdpos. }
  assert (Ia1 : inject_Z (2 ^ a) <= inject_Z n) by (rewrite <- Zle_Qle; lia).
  assert (Ia2 : inject_Z n < inject_Z (2 ^ (Z.succ a))) by (rewrite <- Zlt_Qlt; lia).
  assert (Ib1 : inject_Z (2 ^ b) <= inject_Z (Z.pos d)) by (rewrite <- Zle_Qle; lia).
  assert (Ib2 : inject_Z (Z.pos d) < inject_Z (2 ^ (Z.succ b))) by (rewrite <- Zlt_Qlt; lia).
  assert (Pa' : pow2 (a + 1) == inject_Z (2 ^ Z.succ a)) by (unfold pow2; rewrite Zpower_Qpower by lia; reflexivity).
  assert (Pb' : pow2 (b + 1) == inject_Z (2 ^ Z.succ b)) by (unfold pow2; rewrite Zpower_Qpower by lia; reflexivity).
  rewrite <- Pa in Ia1. rewrite <- Pa' in Ia2. rewrite <- Pb in Ib1. rewrite <- Pb' in Ib2.
  rewrite Hq' in Ia1, Ia2.
  set (q := n # d) in *. set (D := inject_Z (Z.pos d)) in *.
  clearbody q D. clear Hnd Hq' Ha1 Ha2 Hb1 Hb2 Pa Pb Pa' Pb'.
  pose proof (pow2_pos b) as Pbp. pose proof (pow2_pos (a - b)) as Pabp.
  pose proof (pow2_pos (a - b - 1)) as Pabp1.
  assert (E1 : pow2 a == pow2 (a - b) * pow2 b) by (rewrite <- pow2_add; f_equiv; lia).
  assert (E2 : pow2 (a + 1) == pow2 (a - b + 1) * pow2 b) by (rewrite <- pow2_add; f_equiv; lia).
  assert (E3 : pow2 a == pow2 (a - b - 1) * pow2 (b + 1)) by (rewrite <- pow2_add; f_equiv; lia).
  assert (E4 : pow2 (a + 1) == pow2 (a - b) * pow2 (b + 1)) by (rewrite <- pow2_add; f_equiv; lia).
  assert (Hqpos : 0 < q).
  { destruct (Qlt_le_dec 0 q) as [|Hle]; [assumption|]. exfalso.
    pose proof (pow2_pos a). nra. }
  destruct (Qle_bool (pow2 (a - b)) q) eqn:Hc.
  - apply Qle_bool_iff in Hc. split; [assumption|].
    destruct (Qlt_le_dec q (pow2 (a - b + 1))) as [|Hge]; [assumption|]. exfalso.
    rewrite E2 in Ia2. nra.
  - assert (Hlt : q < pow2 (a - b)).
    { destruct (Qlt_le_dec q (pow2 (a - b))) as [|Hge]; [assumption|].
      apply Qle_bool_iff in Hge. congruence. }
    replace (a - b - 1 + 1)%Z with (a - b)%Z by lia. split; [|assumption].
    destruct (Qlt_le_dec q (pow2 (a - b - 1))) as [Hl|]; [|assumption]. exfalso.
    rewrite E3 in Ia1. nra.
Qed.

Lemma ilog2_le x y : 0 < x -> x <= y -> (ilog2 x <= ilog2 y)%Z.
Proof.
  intros Hx Hxy.
  assert (Hy : 0 < y) by lra.
  destruct (ilog2_spec x Hx) as [X1 _]. destruct (ilog2_spec y Hy) as [_ Y2].
  assert (H : pow2 (ilog2 x) < pow2 (ilog2 y + 1)) by lra.
  apply pow2_lt_inv in H. lia.
Qed.

Lemma binary64_eq q :
  binary64 q == inject_Z (roundHalfEven (q / pow2 (ulpExponent q))) * pow2 (ulpExponent q).
Proof. unfold binary64. apply Qred_correct. Qed.

Lemma Qdiv_pow2_le x y e : x <= y -> x / pow2 e <= y / pow2 e.
Proof.
  intros H. unfold Qdiv. apply Qmult_le_compat_r; [assumption|].
  apply Qlt_le_weak, Qinv_lt_0_compat, pow2_pos.
Qed.

Lemma pow2_Z n : (0 <= n)%Z -> pow2 n == inject_Z (2 ^ n).
Proof. intros. unfold pow2. rewrite Zpower_Qpower by lia. reflexivity. Qed.

Lemma binary64_le_pos x y : 0 < x -> x <= y -> binary64 x <= binary64 y.
Proof.
  intros Hx Hxy. assert (Hy : 0 < y) by lra.
  rewrite !binary64_eq.
  pose proof (ilog2_le x y Hx Hxy) as Hl.
  assert (He : (ulpExponent x <= ulpExponent y)%Z) by (unfold ulpExponent; lia).
  destruct (Z.eq_dec (ulpExponent x) (ulpExponent y)) as [E|NE].
  - rewrite E. apply Qmult_le_compat_r; [|apply Qlt_le_weak, pow2_pos].
    rewrite <- Zle_Qle. apply roundHalfEven_le, Qdiv_pow2_le, Hxy.
  - set (ex := ulpExponent x) in *. set (ey := ulpExponent y) in *.
    assert (Hey : ey = (ilog2 y - 52)%Z) by (unfold ey, ex, ulpExponent in *; lia).
    assert (Hex : (ilog2 x + 1 <= ex + 53)%Z) by (unfold ex, ulpExponent; lia).
    destruct (ilog2_spec x Hx) as [_ X2]. destruct (ilog2_spec y Hy) as [Y1 _].
    pose proof (pow2_pos ex) as Pex. pose proof (pow2_pos ey) as Pey.
    (* upper bound for x *)
    assert (Ux : (roundHalfEven (x / pow2 ex) <= 2 ^ 53)%Z).
    { rewrite <- (roundHalfEven_Z (2 ^ 53)). apply roundHalfEven_le.
      rewrite <- pow2_Z by lia.
      apply Qle_shift_div_r; [assumption|]. rewrite <- pow2_add.
      apply Qlt_le_weak. eapply Qlt_le_trans; [exact X2|]. apply pow2_le. lia. }
    assert (Ly : (2 ^ 52 <= roundHalfEven (y / pow2 ey))%Z).
    { rewrite <- (roundHalfEven_Z (2 ^ 52)) at 1. apply roundHalfEven_le.
      rewrite <- pow2_Z by lia.
      apply Qle_shift_div_l; [assumption|]. rewrite <- pow2_add.
      eapply Qle_trans; [|exact Y1]. apply pow2_le. lia. }
    apply Qle_trans with (pow2 (ex + 53)).
    + rewrite pow2_add, (Qmult_comm (pow2 ex)).
      apply Qmult_le_compat_r; [|lra]. rewrite (pow2_Z 53) by lia. rewrite <- Zle_Qle. exact Ux.
    + apply Qle_trans with (pow2 (ey + 52)); [apply pow2_le; lia|].
      rewrite pow2_add, (Qmult_comm (pow2 ey)).
      apply Qmult_le_compat_r; [|lra]. rewrite (pow2_Z 52) by lia. rewrite <- Zle_Qle. exact Ly.
Qed.

Lemma binary64_0 : binary64 0 == 0.
Proof. reflexivity. Qed.

Lemma binary64_nonneg x : 0 <= x -> 0 <= binary64 x.
Proof.
  intros Hx. rewrite binary64_eq.
  apply Qmult_le_0_compat; [|apply Qlt_le_weak, pow2_pos].
  replace 0 with (inject_Z 0) by reflexivity. rewrite <- Zle_Qle.
  rewrite <- (roundHalfEven_Z 0). apply roundHalfEven_le.
  apply Qle_shift_div_l; [apply pow2_pos|]. rewrite Qmult_0_l. exact Hx.
Qed.

Lemma binary64_nonpos x : x <= 0 -> binary64 x <= 0.
Proof.
  intros Hx. rewrite binary64_eq.
  assert (H : (roundHalfEven (x / pow2 (ulpExponent x)) <= 0)%Z).
  { rewrite <- (roundHalfEven_Z 0). apply roundHalfEven_le.
    apply Qle_shift_div_r; [apply pow2_pos|]. rewrite Qmult_0_l. exact Hx. }
  rewrite Zle_Qle in H. pose proof (pow2_pos (ulpExponent x)). 
  change (inject_Z 0) with 0 in H. nra.
Qed.

Lemma Qfloor_unique q z : inject_Z z <= q -> q < inject_Z z + 1 -> Qfloor q = z.
Proof.
  intros H1 H2.
  pose proof (Qfloor_le q) as F1. pose proof (Qlt_floor q) as F2.
  rewrite inject_Z_plus in F2. change (inject_Z 1) with 1 in F2.
  assert (A : inject_Z z < inject_Z (Qfloor q + 1)) by (rewrite inject_Z_plus; change (inject_Z 1) with 1; lra).
  assert (B : inject_Z (Qfloor q) < inject_Z (z + 1)) by (rewrite inject_Z_plus; change (inject_Z 1) with 1; lra).
  rewrite <- Zlt_Qlt in A, B. lia.
Qed.

Lemma roundHalfEven_opp q : roundHalfEven (- q) = (- roundHalfEven q)%Z.
Proof.
  unfold roundHalfEven.
  pose proof (Qfloor_le q) as F1. pose proof (Qlt_floor q) as F2.
  set (f := Qfloor q) in *.
  rewrite inject_Z_plus in F2. change (inject_Z 1) with 1 in F2.
  destruct (Qeq_dec q (inject_Z f)) as [Ei|Ni].
  - assert (H : Qfloor (- q) = (- f)%Z) by (apply Qfloor_unique; rewrite inject_Z_opp; lra).
    rewrite H.
    destruct (Qcompare_spec (- q - inject_Z (- f)) (1 # 2)) as [E|L|G];
    destruct (Qcompare_spec (q - inject_Z f) (1 # 2)) as [E'|L'|G'];
    rewrite ?inject_Z_opp in *; try lia; exfalso; lra.
  - assert (Hlt : inject_Z f < q).
    { apply Qle_lteq in F1. destruct F1 as [|F1]; [assumption|].
      exfalso. apply Ni. symmetry. exact F1. }
    assert (Hi : inject_Z (- f - 1) == - inject_Z f - 1).
    { unfold Z.sub. rewrite inject_Z_plus, !inject_Z_opp. reflexivity. }
    assert (H : Qfloor (- q) = (- f - 1)%Z) by (apply Qfloor_unique; rewrite Hi; lra).
    rewrite H.
    assert (Hev : Z.even (- f - 1) = negb (Z.even f)).
    { replace (- f - 1)%Z with (- (f + 1))%Z by lia. rewrite Z.even_opp.
      replace (f + 1)%Z with (Z.succ f) by lia. rewrite Z.even_succ, <- Z.negb_even. reflexivity. }
    rewrite Hev.
    destruct (Qcompare_spec (- q - inject_Z (- f - 1)) (1 # 2)) as [E|L|G];
    destruct (Qcompare_spec (q - inject_Z f) (1 # 2)) as [E'|L'|G'];
    rewrite ?Hi in *; try destruct (Z.even f); simpl; try lia; exfalso; lra.
Qed.

Lemma Qle_bool_comp_r a x y : x == y -> Qle_bool a x = Qle_bool a y.
Proof.
  intros E. destruct (Qle_bool a x) eqn:A; destruct (Qle_bool a y) eqn:B; try reflexivity.
  - apply Qle_bool_iff in A. rewrite E in A. apply Qle_bool_iff in A. congruence.
  - apply Qle_bool_iff in B. rewrite <- E in B. apply Qle_bool_iff in B. congruence.
Qed.

Lemma ilog2_opp q : ilog2 (- q) = ilog2 q.
Proof.
  unfold ilog2. rewrite (Qle_bool_comp_r _ _ _ (Qabs_opp q)).
  destruct q as [n d]. simpl Qnum. simpl Qden. rewrite Z.abs_opp. reflexivity.
Qed.

Lemma binary64_opp q : binary64 (- q) == - binary64 q.
Proof.
  rewrite !binary64_eq. unfold ulpExponent. rewrite ilog2_opp.
  set (e := Z.max _ _).
  assert (E : - q / pow2 e == - (q / pow2 e)).
  { field. intro Z0. pose proof (pow2_pos e). lra. }
  rewrite (roundHalfEven_comp _ _ E), roundHalfEven_opp, inject_Z_opp. ring.
Qed.

Lemma binary64_le x y : x <= y -> binary64 x <= binary64 y.
Proof.
  intros Hxy.
  destruct (Qlt_le_dec 0 x) as [Hx|Hx]; [apply binary64_le_pos; assumption|].
  destruct (Qlt_le_dec y 0) as [Hy|Hy].
  - assert (H : binary64 (- y) <= binary64 (- x)) by (apply binary64_le_pos; lra).
    rewrite !binary64_opp in H. lra.
  - apply Qle_trans with 0; [apply binary64_nonpos|apply binary64_nonneg]; assumption.
Qed.

Lemma binary64_comp x y : x == y -> binary64 x == binary64 y.
Proof. intros E. apply Qle_antisym; apply binary64_le; rewrite E; apply Qle_refl. Qed.

(** The operators inherit monotonicity from the rounding. *)
Lemma add_le x x' y y' : x <= x' -> y <= y' -> add x y <= add x' y'.
Proof. intros. apply binary64_le. lra. Qed.

Lemma mul_le_r x x' c : 0 <= c -> x <= x' -> mul x c <= mul x' c.
Proof. intros. apply binary64_le. nra. Qed.

Lemma div_le_r x x' c : 0 < c -> x <= x' -> div x c <= div x' c.
Proof.
  intros Hc Hx. apply binary64_le. unfold Qdiv.
  apply Qmult_le_compat_r; [assumption|]. apply Qlt_le_weak, Qinv_lt_0_compat, Hc.
Qed.

Lemma Math_ceil_le x y : x <= y -> Math_ceil x <= Math_ceil y.
Proof. intros. unfold Math_ceil. rewrite <- Zle_Qle. apply Qceiling_resp_le. assumption. Qed.

Lemma Math_round_le x y : x <= y -> Math_round x <= Math_round y.
Proof.
  intros. unfold Math_round. rewrite <- Zle_Qle. apply Qfloor_resp_le. lra.
Qed.

Lemma Math_max_le x x' b : x <= x' -> Math_max x b <= Math_max x' b.
Proof. intros. unfold Math_max. apply Q.max_le_compat_r. assumption. Qed.

Lemma Math_max_le_l x b b' : b <= b' -> Math_max x b <= Math_max x b'.
Proof. intros. unfold Math_max. apply Q.max_le_compat_l. assumption. Qed.

Lemma Math_max_ge_l x b : x <= Math_max x b.
Proof. unfold Math_max. apply Q.le_max_l. Qed.

Lemma Math_ceil_nonneg x : 0 <= x -> 0 <= Math_ceil x.
Proof.
  intros. unfold Math_ceil. apply Qle_trans with x; [assumption|apply Qle_ceiling].
Qed.

Lemma Math_round_nonneg x : 0 <= x -> 0 <= Math_round x.
Proof.
  intros. unfold Math_round. change 0 with (inject_Z 0). rewrite <- Zle_Qle.
  rewrite <- (Qfloor_Z 0). apply Qfloor_resp_le. change (inject_Z 0) with 0. lra.
Qed.

(** Representation independence: equal rationals give equal results. *)
Lemma toString_comp x y : x == y -> toString x = toString y.
Proof. intros E. unfold toString. rewrite (Qred_complete _ _ E). reflexivity. Qed.

Lemma orDefault_comp x y d :
  x == y -> orDefault (Some x) d == orDefault (Some y) d.
Proof.
  intros E. unfold orDefault, truthy.
  destruct (Qeq_bool x 0) eqn:A; destruct (Qeq_bool y 0) eqn:B; simpl; try reflexivity; try assumption.
  - apply Qeq_bool_iff in A. rewrite E in A. apply Qeq_bool_iff in A. congruence.
  - apply Qeq_bool_iff in B. rewrite <- E in B. apply Qeq_bool_iff in B. congruence.
Qed.

Lemma gtb_comp x y c : x == y -> gtb x c = gtb y c.
Proof.
  intros E. unfold gtb. f_equal.
  destruct (Qle_bool x c) eqn:A; destruct (Qle_bool y c) eqn:B; try reflexivity.
  - apply Qle_bool_iff in A. rewrite E in A. apply Qle_bool_iff in A. congruence.
  - apply Qle_bool_iff in B. rewrite <- E in B. apply Qle_bool_iff in B. congruence.
Qed.

Lemma orDefault_pos x d : 0 < x -> orDefault (Some x) d = x.
Proof.
  intros H. unfold orDefault, truthy.
  destruct (Qeq_bool x 0) eqn:A; [|reflexivity].
  apply Qeq_bool_iff in A. lra.
Qed.

Lemma orDefault_nonzero x d : ~ x == 0 -> orDefault (Some x) d = x.
Proof.
  intros H. unfold orDefault, truthy.
  destruct (Qeq_bool x 0) eqn:A; [|reflexivity].
  apply Qeq_bool_iff in A. contradiction.
Qed.

Lemma gtb_true x c : gtb x c = true <-> c < x.
Proof.
  unfold gtb. destruct (Qle_bool x c) eqn:A; simpl.
  - apply Qle_bool_iff in A. split; [discriminate|]. intros. lra.
  - split; [|reflexivity]. intros _.
    destruct (Qlt_le_dec c x) as [|Hle]; [assumption|].
    apply Qle_bool_iff in Hle. congruence.
Qed.

Lemma gtb_false x c : gtb x c = false <-> x <= c.
Proof.
  unfold gtb. destruct (Qle_bool x c) eqn:A; simpl.
  - apply Qle_bool_iff in A. tauto.
  - split; [discriminate|]. intros H. apply Qle_bool_iff in H. congruence.
Qed.

End JSNumberFacts.

(** ** Pricing engine *)
Module PricingFacts.
Import JSNumber JSNumberFacts Pricing.
Local Open Scope Q_scope.

Lemma lit_nonneg q : 0 <= q -> 0 <= lit q.
Proof. apply binary64_nonneg. Qed.

Lemma perApiCall_nonneg : 0 <= perApiCall.
Proof. apply lit_nonneg. discriminate. Qed.

Lemma parentRatio_nonneg (replies : bool) :
  0 <= (if replies then parentRatioWithReplies else parentRatioWithoutReplies).
Proof. destruct replies; apply lit_nonneg; discriminate. Qed.

Lemma repliesDataMultiplier_nonneg : 0 <= repliesDataMultiplier.
Proof. apply lit_nonneg. discriminate. Qed.

Lemma reactionsDataMultiplier_nonneg : 0 <= reactionsDataMultiplier.
Proof. apply lit_nonneg. discriminate. Qed.

(** The cost before the floor at the base price, as [roundedCost] computes it. *)
Lemma roundedCost_unfold params l basePrice :
  roundedCost params l basePrice =
  div (Math_round (mul (Math_max
    (let cost :=
       mul (let apiCalls :=
              if all params then add (Math_ceil (div l castsPerPage)) fetchAllBuffer
              else Math_ceil (div l castsPerPage) in
            if includeParents params then
              add apiCalls
                (Math_ceil (mul l (if includeReplies params then parentRatioWithReplies
                                   else parentRatioWithoutReplies)))
            else apiCalls) perApiCall in
     let cost := if includeReplies params then mul cost repliesDataMultiplier else cost in
     if includeReactions params then mul cost reactionsDataMultiplier else cost)
    basePrice) 1000000)) 1000000.
Proof. reflexivity. Qed.

#[local] Opaque binary64 add mul div Math_ceil Math_round Math_max.

(** The rounded cost grows with the number of units asked for. *)
Lemma roundedCost_le params l l' basePrice :
  l <= l' -> roundedCost params l basePrice <= roundedCost params l' basePrice.
Proof.
  intros Hl. rewrite !roundedCost_unfold. cbv zeta.
  apply div_le_r; [reflexivity|]. apply Math_round_le.
  apply mul_le_r; [discriminate|]. apply Math_max_le.
  assert (Hpages : Math_ceil (div l castsPerPage) <= Math_ceil (div l' castsPerPage)).
  { apply Math_ceil_le, div_le_r; [reflexivity|assumption]. }
  assert (Hparents : forall r : Q, 0 <= r -> Math_ceil (mul l r) <= Math_ceil (mul l' r)).
  { intros r Hr. apply Math_ceil_le, mul_le_r; assumption. }
  destruct (includeReactions params);
    [apply mul_le_r; [apply reactionsDataMultiplier_nonneg|]|];
  (destruct (includeReplies params);
    [apply mul_le_r; [apply repliesDataMultiplier_nonneg|]|]);
  (apply mul_le_r; [apply perApiCall_nonneg|]);
  (destruct (includeParents params);
    [apply add_le; [|apply Hparents; apply lit_nonneg; discriminate]|]);
  (destruct (all params); [apply add_le; [|apply Qle_refl]|]);
  exact Hpages.
Qed.

Lemma roundedCost_nonneg params l basePrice :
  0 <= l -> 0 <= roundedCost params l basePrice.
Proof.
  intros Hl. rewrite roundedCost_unfold. cbv zeta.
  assert (Hmul : forall x c : Q, 0 <= c -> 0 <= x -> 0 <= mul x c).
  { intros x c Hc Hx. change (0 <= JSNumber.binary64 (x * c)).
    apply binary64_nonneg, Qmult_le_0_compat; assumption. }
  assert (Hadd : forall x y : Q, 0 <= x -> 0 <= y -> 0 <= add x y).
  { intros x y Hx Hy. change (0 <= JSNumber.binary64 (x + y)). apply binary64_nonneg. lra. }
  assert (Hdiv : forall x c : Q, 0 < c -> 0 <= x -> 0 <= div x c).
  { intros x c Hc Hx. change (0 <= JSNumber.binary64 (x / c)). apply binary64_nonneg.
    apply Qle_shift_div_l; [assumption|]. rewrite Qmult_0_l. assumption. }
  assert (Hpages : 0 <= Math_ceil (div l castsPerPage)).
  { apply Math_ceil_nonneg, Hdiv; [reflexivity|assumption]. }
  assert (Hparents : forall r : Q, 0 <= r -> 0 <= Math_ceil (mul l r)).
  { intros r Hr. apply Math_ceil_nonneg, Hmul; assumption. }
  apply Hdiv; [reflexivity|]. apply Math_round_nonneg, Hmul; [discriminate|].
  eapply Qle_trans; [|apply Math_max_ge_l].
  destruct (includeReactions params);
    [apply Hmul; [apply reactionsDataMultiplier_nonneg|]|];
  (destruct (includeReplies params);
    [apply Hmul; [apply repliesDataMultiplier_nonneg|]|]);
  (apply Hmul; [apply perApiCall_nonneg|]);
  (destruct (includeParents params);
    [apply Hadd; [|apply Hparents; apply lit_nonneg; discriminate]|]);
  (destruct (all params); [apply Hadd; [|discriminate]|]);
  exact Hpages.
Qed.

Lemma roundedCost_base_le params l basePrice basePrice' :
  basePrice <= basePrice' ->
  roundedCost params l basePrice <= roundedCost params l basePrice'.
Proof.
  intros Hb. rewrite !roundedCost_unfold. cbv zeta.
  apply div_le_r; [reflexivity|]. apply Math_round_le.
  apply mul_le_r; [discriminate|]. apply Math_max_le_l. assumption.
Qed.

Lemma roundedCost_comp params l l' basePrice basePrice' :
  l == l' -> basePrice == basePrice' ->
  roundedCost params l basePrice == roundedCost params l' basePrice'.
Proof.
  intros El Eb. apply Qle_antisym.
  - apply Qle_trans with (roundedCost params l' basePrice).
    + apply roundedCost_le. rewrite El. apply Qle_refl.
    + apply roundedCost_base_le. rewrite Eb. apply Qle_refl.
  - apply Qle_trans with (roundedCost params l' basePrice).
    + apply roundedCost_base_le. rewrite Eb. apply Qle_refl.
    + apply roundedCost_le. rewrite El. apply Qle_refl.
Qed.

(** [isFreeTier] reads the limit and three of the four flags. *)
Lemma isFreeTier_spec params :
  isFreeTier params = true <->
  orDefault (limit params) 50 <= FREE_TIER_maxLimit
  /\ all params = false /\ includeReplies params = false /\ includeParents params = false.
Proof.
  unfold isFreeTier.
  destruct (gtb (orDefault (limit params) 50) FREE_TIER_maxLimit) eqn:G.
  - apply gtb_true in G. split; [discriminate|]. intros [H _]. lra.
  - apply gtb_false in G.
    destruct (all params), (includeReplies params), (includeParents params);
      split; try discriminate; try tauto; intros (_ & ? & ? & ?); discriminate.
Qed.

Lemma isFreeTier_withReactions b params :
  isFreeTier (withReactions b params) = isFreeTier params.
Proof. reflexivity. Qed.

Lemma isFreeTier_comp p q : sameParams p q -> isFreeTier p = isFreeTier q.
Proof.
  intros (Hl & Ha & Hr & Hp & _). unfold isFreeTier. rewrite Ha, Hr, Hp.
  destruct (limit p) as [l|], (limit q) as [l'|]; try contradiction; [|reflexivity].
  rewrite (gtb_comp _ _ _ (orDefault_comp l l' 50 Hl)). reflexivity.
Qed.

(** The string is the rendering of the amount. *)
Lemma calculateDynamicPrice_amount params basePrice :
  calculateDynamicPrice params basePrice = "$" +:+ toString (dynamicPriceAmount params basePrice).
Proof.
  unfold calculateDynamicPrice, dynamicPriceAmount.
  destruct (isFreeTier params); reflexivity.
Qed.

(** C4.  A request at exactly the free-tier maximum (limit 10) with [all],
    [includeReplies] and [includeParents] unset is free, and the same
    request with the limit one unit higher (11) is not. *)
Theorem isFreeTier_boundary (params : PricingParams) (l : Q) :
  limit params = Some l ->
  l == FREE_TIER_maxLimit ->
  all params = false ->
  includeReplies params = false ->
  includeParents params = false ->
  isFreeTier params = true /\ isFreeTier (withLimit (l + 1) params) = false.
Proof.
  intros Hl E Ha Hr Hp. unfold FREE_TIER_maxLimit in E. split.
  - apply isFreeTier_spec. rewrite Hl, orDefault_nonzero by (rewrite E; discriminate).
    unfold FREE_TIER_maxLimit. rewrite E. repeat split; try assumption. apply Qle_refl.
  - unfold isFreeTier. cbn [withLimit limit all includeReplies includeParents].
    rewrite orDefault_nonzero by (rewrite E; discriminate).
    assert (G : gtb (l + 1) FREE_TIER_maxLimit = true).
    { apply gtb_true. unfold FREE_TIER_maxLimit. rewrite E. reflexivity. }
    rewrite G. reflexivity.
Qed.

Lemma isFreeTier_boundary_witness :
  isFreeTier {| limit := Some 10; all := false; includeReplies := false;
                includeParents := false; includeReactions := true |} = true
  /\ isFreeTier {| limit := Some (10 + 1); all := false; includeReplies := false;
                   includeParents := false; includeReactions := true |} = false.
Proof.
  apply (isFreeTier_boundary
           {| limit := Some 10; all := false; includeReplies := false;
              includeParents := false; includeReactions := true |} 10);
    reflexivity.
Defined.

(** C10, as stated, fails for the explicit limit 0: [params.limit || 50]
    reads it as the default 50, which is above the free-tier maximum. *)
Lemma isFreeTier_limit_zero_not_free :
  0 <= FREE_TIER_maxLimit
  /\ isFreeTier {| limit := Some 0; all := false; includeReplies := false;
                   includeParents := false; includeReactions := true |} = false.
Proof. split; [discriminate|reflexivity]. Qed.

(** C10 (amended).  A request with an explicit non-zero limit of at most 10
    and with [all], [includeReplies] and [includeParents] false is free
    whatever [includeReactions] is: the predicate never reads that flag. *)
Theorem isFreeTier_ignores_reactions (params : PricingParams) (l : Q) (reactions : bool) :
  limit params = Some l ->
  l <= FREE_TIER_maxLimit ->
  ~ l == 0 ->
  all params = false ->
  includeReplies params = false ->
  includeParents params = false ->
  isFreeTier (withReactions reactions params) = true
  /\ isFreeTier (withReactions reactions params) = isFreeTier params.
Proof.
  intros Hl Hle Hnz Ha Hr Hp. rewrite isFreeTier_withReactions. split; [|reflexivity].
  apply isFreeTier_spec. rewrite Hl, orDefault_nonzero by assumption. tauto.
Qed.

Lemma isFreeTier_ignores_reactions_witness :
  isFreeTier {| limit := Some 7; all := false; includeReplies := false;
                includeParents := false; includeReactions := true |} = true
  /\ isFreeTier {| limit := Some 7; all := false; includeReplies := false;
                   includeParents := false; includeReactions := true |}
     = isFreeTier {| limit := Some 7; all := false; includeReplies := false;
                     includeParents := false; includeReactions := false |}.
Proof.
  apply (isFreeTier_ignores_reactions
           {| limit := Some 7; all := false; includeReplies := false;
              includeParents := false; includeReactions := false |} 7 true);
    first [reflexivity | discriminate].
Defined.

(** C5.  With [all] false and the flags and the base price fixed, the price
    of a positive limit is at most the price of any larger limit; and the
    price function maps the same input to the same output, as a number and
    as the string it returns. *)
Theorem dynamic_price_monotone (params : PricingParams) (basePrice l1 l2 : Q) :
  all params = false ->
  0 < l1 ->
  l1 <= l2 ->
  dynamicPriceAmount (withLimit l1 params) basePrice
    <= dynamicPriceAmount (withLimit l2 params) basePrice
  /\ (forall i : Q,
        calculateDynamicPrice (withLimit i params) basePrice
        = "$" +:+ toString (dynamicPriceAmount (withLimit i params) basePrice))
  /\ (forall (params' : PricingParams) (basePrice' : Q),
        sameParams params params' -> basePrice == basePrice' ->
        dynamicPriceAmount params basePrice == dynamicPriceAmount params' basePrice'
        /\ calculateDynamicPrice params basePrice = calculateDynamicPrice params' basePrice').
Proof.
  intros Ha H1 H12.
  assert (H2 : 0 < l2) by lra.
  split; [|split].
  - unfold dynamicPriceAmount.
    destruct (isFreeTier (withLimit l1 params)) eqn:F1;
    destruct (isFreeTier (withLimit l2 params)) eqn:F2;
    cbn [withLimit limit all]; rewrite ?Ha.
    + apply Qle_refl.
    + rewrite orDefault_pos by assumption. apply roundedCost_nonneg. lra.
    + exfalso. apply isFreeTier_spec in F2.
      cbn [withLimit limit all includeReplies includeParents] in F2.
      rewrite orDefault_pos in F2 by assumption. destruct F2 as (L2 & A2 & R2 & P2).
      assert (F : isFreeTier (withLimit l1 params) = true).
      { apply isFreeTier_spec. cbn [withLimit limit all includeReplies includeParents].
        rewrite orDefault_pos by assumption.
        repeat split; try assumption. lra. }
      congruence.
    + rewrite !orDefault_pos by assumption.
      change (roundedCost (withLimit l1 params) l1 basePrice
              <= roundedCost (withLimit l2 params) l2 basePrice).
      apply (roundedCost_le (withLimit l1 params) l1 l2 basePrice H12).
  - intros i. apply calculateDynamicPrice_amount.
  - intros params' basePrice' Hs Hb.
    assert (Hamount :
      dynamicPriceAmount params basePrice == dynamicPriceAmount params' basePrice').
    { unfold dynamicPriceAmount. rewrite <- (isFreeTier_comp _ _ Hs).
      destruct (isFreeTier params); [reflexivity|].
      destruct Hs as (Hl & Hall & Hr & Hp & Hx).
      rewrite <- Hall, Ha.
      assert (El : orDefault (limit params) 50 == orDefault (limit params') 50).
      { destruct (limit params) as [l|], (limit params') as [l'|];
          try contradiction; [apply orDefault_comp; assumption|reflexivity]. }
      rewrite (roundedCost_comp params _ _ _ _ El Hb).
      unfold roundedCost. rewrite <- Hall, <- Hr, <- Hp, <- Hx. reflexivity. }
    split; [exact Hamount|].
    rewrite !calculateDynamicPrice_amount. f_equal. apply toString_comp, Hamount.
Qed.

Lemma dynamic_price_monotone_witness :
  dynamicPriceAmount
    (withLimit 500 {| limit := None; all := false; includeReplies := true;
                      includeParents := true; includeReactions := true |}) (lit (1 # 1000))
  <= dynamicPriceAmount
       (withLimit 5000 {| limit := None; all := false; includeReplies := true;
                          includeParents := true; includeReactions := true |}) (lit (1 # 1000)).
Proof.
  apply (dynamic_price_monotone
           {| limit := None; all := false; includeReplies := true;
              includeParents := true; includeReactions := true |}
           (lit (1 # 1000)) 500 5000);
    first [reflexivity | discriminate].
Defined.

End PricingFacts.

(** ** The two Farcaster price paths *)
Module HandlersFacts.
Import JSNumber JSString Pricing Cache Handlers.
Import Feed(result, Ok, Thrown).

(** The two routes read a flag differently: only the middleware lowers the
    case of the value before it compares. *)
Lemma flagExact_flagLower query name :
  flagExact query name = true -> flagLower query name = true.
Proof.
  unfold flagExact, flagLower. destruct (query !! name) as [v|]; [|discriminate].
  intros E. apply String.eqb_eq in E. subst v. reflexivity.
Qed.



(** C2.  The estimate route and the payment middleware do not always quote
    the same price for one request.  For [?fid=3&all=TRUE&limit=5] the
    estimate reads [all] as unset and answers that the request is free,
    while the middleware reads it as set and charges for the user's 1200
    casts; for [?fid=3&all=true] with the storage lookup failing, the
    estimate prices 0 casts and the middleware the default 7500. *)
Theorem estimate_and_gate_quotes_differ :
  (estimate neynarWith1200Casts sampleBasePrice 0 queryUpperCaseAll ∅).1
    = EstimateJson "$0" true None
  /\ (gate neynarWith1200Casts sampleBasePrice (Some "0xabc"%string) 0 queryUpperCaseAll ∅).1
    = PaymentGate "$0.013"
  /\ (estimate neynarStorageDown sampleBasePrice 0 queryAll ∅).1
    = EstimateJson "$0.005" false (Some 0%Q)
  /\ (gate neynarStorageDown sampleBasePrice (Some "0xabc"%string) 0 queryAll ∅).1
    = PaymentGate "$0.055".
Proof. vm_compute. repeat split; reflexivity. Qed.

End HandlersFacts.

(** ** Rate limiter *)
Module RateLimiterFacts.
Import RateLimiter.

Lemma cleanOldRequests_length t requests :
  (length (cleanOldRequests t requests) <= length requests)%nat.
Proof. apply List.filter_length_le. Qed.

Lemma initial_bounded : bounded initial.
Proof.
  split; [intros endpoint|]; unfold recorded, initial; simpl.
  - rewrite lookup_empty. simpl. unfold ENDPOINT_LIMIT. lia.
  - unfold GLOBAL_LIMIT. lia.
Qed.

Lemma attempt_bounded st endpoint clk :
  bounded st -> bounded (attempt st endpoint clk).1.
Proof.
  intros [He Hg]. unfold attempt.
  set (g := cleanOldRequests (nowGlobal clk) (globalRequests st)).
  set (e := cleanOldRequests (nowEndpoint clk) (default [] (endpointRequests st !! endpoint))).
  assert (Hg' : (length g <= GLOBAL_LIMIT)%nat).
  { etransitivity; [apply cleanOldRequests_length|exact Hg]. }
  assert (He' : (length e <= ENDPOINT_LIMIT)%nat).
  { etransitivity; [apply cleanOldRequests_length|exact (He endpoint)]. }
  assert (Hkeep : forall l, bounded st ->
            (length l <= ENDPOINT_LIMIT)%nat ->
            forall k, (length (default [] (<[endpoint := l]> (endpointRequests st) !! k))
                       <= ENDPOINT_LIMIT)%nat).
  { intros l _ Hl k. destruct (decide (endpoint = k)) as [->|Hne].
    - rewrite lookup_insert_eq. exact Hl.
    - rewrite lookup_insert_ne by assumption. exact (He k). }
  destruct ((GLOBAL_LIMIT <=? length g)%nat || (ENDPOINT_LIMIT <=? length e)%nat) eqn:Full.
  - assert (Hst : bounded {| endpointRequests := <[endpoint := e]> (endpointRequests st);
                             globalRequests := g |}).
    { split; [|exact Hg']. intros k. unfold recorded; simpl.
      apply Hkeep; [split|]; assumption. }
    destruct (head _) as [oldest|]; [destruct (oldest =? 0)%Z|]; exact Hst.
  - apply orb_false_iff in Full. destruct Full as [Fg Fe].
    apply Nat.leb_gt in Fg, Fe.
    split; simpl.
    + intros k. unfold recorded; simpl. rewrite insert_insert_eq.
      apply Hkeep; [split; assumption|]. rewrite length_app; simpl. lia.
    + rewrite length_app; simpl. lia.
Qed.

Lemma waitForSlot_bounded clocks : forall st endpoint,
  bounded st -> bounded (waitForSlot st endpoint clocks).1.
Proof.
  induction clocks as [|clk clocks IH]; intros st endpoint Hst; simpl; [exact Hst|].
  pose proof (attempt_bounded st endpoint clk Hst) as H.
  destruct (attempt st endpoint clk) as [st' [|ms]]; simpl in *; [exact H|].
  apply IH, H.
Qed.

Lemma run_bounded calls : forall st, bounded st -> bounded (run st calls).
Proof.
  induction calls as [|[endpoint clocks] calls IH]; intros st Hst; simpl; [exact Hst|].
  apply IH, waitForSlot_bounded, Hst.
Qed.

(** *** The record of admissions

    The passes that recorded, when every pass reads one time and the clock
    does not run backwards: the admissions within the 60 seconds before any
    moment [t] not earlier than the last pass number at most 250 per
    endpoint and 450 in all.  The stored lists hold every admission still in
    the window. *)
Local Open Scope Z_scope.

Lemma filter_sublist {A} (f : A -> bool) l k :
  sublist l k -> sublist (List.filter f l) (List.filter f k).
Proof.
  induction 1 as [|x l k _ IH|x l k _ IH]; cbn [List.filter].
  - constructor.
  - destruct (f x); [constructor|]; exact IH.
  - destruct (f x); [constructor|]; exact IH.
Qed.

Lemma filter_sublist_self {A} (f : A -> bool) l : sublist (List.filter f l) l.
Proof.
  induction l as [|x l IH]; cbn [List.filter]; [constructor|].
  destruct (f x); constructor; exact IH.
Qed.

Lemma filter_filter_impl {A} (f g : A -> bool) l :
  (forall x, f x = true -> g x = true) ->
  List.filter g (List.filter f l) = List.filter f l.
Proof.
  intros Himpl. induction l as [|x l IH]; cbn [List.filter]; [reflexivity|].
  destruct (f x) eqn:Hf; [|exact IH].
  cbn [List.filter]. rewrite (Himpl x Hf), IH. reflexivity.
Qed.

Lemma cleanOldRequests_later t t' requests :
  t <= t' -> cleanOldRequests t (cleanOldRequests t' requests) = cleanOldRequests t' requests.
Proof.
  intros Ht. apply filter_filter_impl. intros ts H.
  apply Z.ltb_lt in H. apply Z.ltb_lt. lia.
Qed.

Lemma cleanOldRequests_app t l k :
  cleanOldRequests t (l ++ k) = cleanOldRequests t l ++ cleanOldRequests t k.
Proof. apply List.filter_app. Qed.

Lemma admittedTo_app endpoint l k :
  admittedTo endpoint (l ++ k) = admittedTo endpoint l ++ admittedTo endpoint k.
Proof. unfold admittedTo. rewrite List.filter_app, map_app. reflexivity. Qed.

Lemma attempt_covers st history t endpoint t' :
  covers st history t -> t <= t' ->
  covers (attempt st endpoint (clockAt t')).1
    (history ++ match (attempt st endpoint (clockAt t')).2 with
                | Recorded => [(endpoint, t')]
                | Retry _ => []
                end) t'.
Proof.
  intros Hcov Htt'. unfold attempt. cbn [clockAt now nowGlobal nowEndpoint].
  set (g := cleanOldRequests t' (globalRequests st)).
  set (e := cleanOldRequests t' (default [] (endpointRequests st !! endpoint))).
  assert (Hg : forall u, t' <= u -> sublist (cleanOldRequests u (map snd history)) g).
  { intros u Hu. rewrite <- (cleanOldRequests_later t' u) by exact Hu.
    apply filter_sublist. apply (Hcov u). lia. }
  assert (He : forall u k, t' <= u ->
            sublist (cleanOldRequests u (admittedTo k history))
                    (default [] (<[endpoint := e]> (endpointRequests st) !! k))).
  { intros u k Hu. destruct (decide (endpoint = k)) as [<-|Hne].
    - rewrite lookup_insert_eq. cbn [default].
      rewrite <- (cleanOldRequests_later t' u) by exact Hu.
      apply filter_sublist. apply (Hcov u). lia.
    - rewrite lookup_insert_ne by exact Hne. apply (Hcov u). lia. }
  destruct ((GLOBAL_LIMIT <=? length g)%nat || (ENDPOINT_LIMIT <=? length e)%nat).
  - assert (Hst : covers {| endpointRequests := <[endpoint := e]> (endpointRequests st);
                            globalRequests := g |} (history ++ []) t').
    { rewrite app_nil_r. intros u Hu. split; [intros k; apply He, Hu|apply Hg, Hu]. }
    destruct (head _) as [oldest|]; [destruct (oldest =? 0)|]; exact Hst.
  - cbn [fst snd]. intros u Hu. split.
    + intros k. unfold recorded. cbn [endpointRequests]. rewrite insert_insert_eq.
      rewrite admittedTo_app, cleanOldRequests_app.
      destruct (decide (endpoint = k)) as [<-|Hne].
      * rewrite lookup_insert_eq. cbn [default]. apply sublist_app.
        -- specialize (He u endpoint Hu). rewrite lookup_insert_eq in He. exact He.
        -- unfold admittedTo. cbn [List.filter fst]. rewrite String.eqb_refl.
           apply filter_sublist_self.
      * rewrite lookup_insert_ne by exact Hne.
        unfold admittedTo at 2. cbn [List.filter fst].
        destruct (String.eqb_spec endpoint k) as [E|_]; [contradiction|].
        cbn [map cleanOldRequests List.filter]. rewrite app_nil_r.
        specialize (He u k Hu). rewrite lookup_insert_ne in He by exact Hne. exact He.
    + cbn [globalRequests]. rewrite map_app, cleanOldRequests_app. apply sublist_app.
      * apply Hg, Hu.
      * apply filter_sublist_self.
Qed.

Lemma covers_later st history t t' : covers st history t -> t <= t' -> covers st history t'.
Proof. intros Hcov Htt' u Hu. apply Hcov. lia. Qed.

Lemma passes_cover passes : forall st history t final,
  covers st history t -> nonDecreasingFrom t passes = true ->
  t <= final -> Forall (fun p => p.2 <= final) passes ->
  covers (afterPasses st passes) (history ++ admissions st passes) final.
Proof.
  induction passes as [|[endpoint u] passes IH]; intros st history t final Hcov Hsorted Ht Hall.
  - rewrite app_nil_r. exact (covers_later _ _ _ _ Hcov Ht).
  - cbn [nonDecreasingFrom] in Hsorted. apply andb_true_iff in Hsorted as [Htu Hsorted].
    apply Z.leb_le in Htu. inversion Hall as [|p l Hu Hall']; subst. cbn [snd] in Hu.
    pose proof (attempt_covers st history t endpoint u Hcov Htu) as Hstep.
    unfold afterPasses. cbn [map run waitForSlot admissions fst snd].
    destruct (attempt st endpoint (clockAt u)) as [st' [|ms]]; cbn [fst snd] in Hstep |- *.
    + pose proof (IH st' _ u final Hstep Hsorted Hu Hall') as Hcov'.
      rewrite <- app_assoc in Hcov'. exact Hcov'.
    + rewrite app_nil_r in Hstep. exact (IH st' _ u final Hstep Hsorted Hu Hall').
Qed.

Lemma initial_covers t : covers initial [] t.
Proof. intros u _. split; [intros endpoint|]; constructor. Qed.

(** X2.  Read on the passes that recorded: when every pass reads one time
    and the clock does not run backwards, the admissions within the 60
    seconds before any moment not earlier than the last pass number at most
    250 for an endpoint and 450 in all. *)
Theorem admissions_window_bounded (passes : list (string * Z)) (endpoint : string) (t : Z) :
  nonDecreasing passes = true ->
  Forall (fun p => p.2 <= t) passes ->
  (inWindow t (admittedTo endpoint (admissions initial passes)) <= ENDPOINT_LIMIT)%nat
  /\ (inWindow t (map snd (admissions initial passes)) <= GLOBAL_LIMIT)%nat.
Proof.
  intros Hsorted Hbefore.
  assert (Hcov : covers (afterPasses initial passes) (admissions initial passes) t).
  { destruct passes as [|[e u] rest].
    - apply initial_covers.
    - change (covers (afterPasses initial ((e, u) :: rest))
                ([] ++ admissions initial ((e, u) :: rest)) t).
      apply (passes_cover _ initial [] u t (initial_covers u)).
      + exact Hsorted.
      + inversion Hbefore; subst. assumption.
      + exact Hbefore. }
  destruct (Hcov t (Z.le_refl t)) as [He Hg].
  destruct (run_bounded (map (fun p => (p.1, [clockAt p.2])) passes) initial initial_bounded)
    as [Be Bg].
  unfold inWindow. split.
  - etransitivity; [apply sublist_length, He|apply Be].
  - etransitivity; [apply sublist_length, Hg|apply Bg].
Qed.

(** *** The wait of a refused pass, and the order of the stored timestamps *)

Lemma head_full (l : list Z) (n : nat) :
  (0 < n)%nat -> (n <=? length l)%nat = true -> exists x rest, l = x :: rest.
Proof.
  intros Hn H. apply Nat.leb_le in H. destruct l as [|x rest]; [simpl in H; lia|].
  exists x, rest. reflexivity.
Qed.

Lemma cleanOldRequests_elem t requests ts :
  ts ∈ cleanOldRequests t requests -> t - ts < WINDOW_MS.
Proof.
  unfold cleanOldRequests. intros H. apply list_elem_of_In, filter_In in H as [_ H].
  apply Z.ltb_lt, H.
Qed.

(** X3.  A pass that is refused tells the caller to wait until the oldest
    timestamp of the full list has left the window: the list is not empty,
    the wait is 60 s less the age of its first timestamp plus 100 ms (1 s
    when that timestamp is 0, which the code reads as missing), it is more
    than 100 ms, and from the end of the wait on the cleaning drops that
    timestamp. *)
Theorem retry_waits_for_oldest (st : State) (endpoint : string) (clk : Clock)
    (st' : State) (ms : Z) :
  now clk <= nowGlobal clk -> now clk <= nowEndpoint clk ->
  attempt st endpoint clk = (st', Retry ms) ->
  exists oldest rest,
    relevantRequests st' endpoint = oldest :: rest
    /\ ms = (if oldest =? 0 then 1000 else WINDOW_MS - (now clk - oldest) + 100)
    /\ ((oldest =? 0) = false ->
        100 < ms
        /\ forall t, now clk + ms <= t ->
             cleanOldRequests t (oldest :: rest) = cleanOldRequests t rest).
Proof.
  intros Hg He. unfold attempt.
  set (g := cleanOldRequests (nowGlobal clk) (globalRequests st)).
  set (e := cleanOldRequests (nowEndpoint clk) (default [] (endpointRequests st !! endpoint))).
  destruct ((GLOBAL_LIMIT <=? length g)%nat || (ENDPOINT_LIMIT <=? length e)%nat) eqn:Full;
    [|discriminate].
  set (relevant := if (GLOBAL_LIMIT <=? length g)%nat then g else e).
  assert (Hrel : exists x rest, relevant = x :: rest
            /\ (now clk - x < WINDOW_MS)).
  { unfold relevant. destruct (GLOBAL_LIMIT <=? length g)%nat eqn:G.
    - destruct (head_full g GLOBAL_LIMIT) as (x & rest & Hx);
        [unfold GLOBAL_LIMIT; lia|exact G|].
      exists x, rest. split; [exact Hx|].
      assert (Hin : x ∈ g) by (rewrite Hx; left).
      apply cleanOldRequests_elem in Hin. lia.
    - cbn [orb] in Full.
      destruct (head_full e ENDPOINT_LIMIT) as (x & rest & Hx);
        [unfold ENDPOINT_LIMIT; lia|exact Full|].
      exists x, rest. split; [exact Hx|].
      assert (Hin : x ∈ e) by (rewrite Hx; left).
      apply cleanOldRequests_elem in Hin. lia. }
  destruct Hrel as (x & rest & Hx & Hwin).
  assert (Hst : forall st0, st0 = {| endpointRequests := <[endpoint := e]> (endpointRequests st);
                                    globalRequests := g |} ->
            relevantRequests st0 endpoint = x :: rest).
  { intros st0 ->. unfold relevantRequests, recorded. cbn [globalRequests endpointRequests].
    rewrite lookup_insert_eq. exact Hx. }
  rewrite Hx. cbn [head].
  destruct (x =? 0) eqn:Hx0; intros Hrun; injection Hrun as <- <-.
  - exists x, rest. rewrite Hx0. split; [apply Hst; reflexivity|]. split; [reflexivity|].
    discriminate.
  - exists x, rest. rewrite Hx0. split; [apply Hst; reflexivity|]. split; [reflexivity|].
    intros _. split; [lia|]. intros t Ht. unfold cleanOldRequests. cbn [List.filter].
    destruct (t - x <? WINDOW_MS) eqn:E; [|reflexivity].
    apply Z.ltb_lt in E. lia.
Qed.

Lemma StronglySorted_filter_snoc (f : Z -> bool) l t t' :
  t <= t' -> StronglySorted Z.le (l ++ [t]) -> StronglySorted Z.le (List.filter f l ++ [t']).
Proof.
  intros Htt'. induction l as [|x l IH]; cbn [app List.filter]; intros Hs.
  - repeat constructor.
  - apply StronglySorted_inv in Hs as [Hs Hx].
    destruct (f x); [|exact (IH Hs)].
    cbn [app]. constructor; [exact (IH Hs)|].
    rewrite Forall_app in Hx |- *. destruct Hx as [Hl Ht]. split.
    + rewrite Forall_forall in Hl |- *. intros y Hy.
      apply Hl. apply list_elem_of_In in Hy. apply filter_In in Hy as [Hy _].
      apply list_elem_of_In, Hy.
    + constructor; [|constructor]. inversion Ht; subst. lia.
Qed.

Lemma StronglySorted_snoc_le l t t' :
  t <= t' -> StronglySorted Z.le (l ++ [t]) -> StronglySorted Z.le (l ++ [t']).
Proof.
  intros Htt'. induction l as [|x l IH]; cbn [app]; intros Hs.
  - repeat constructor.
  - apply StronglySorted_inv in Hs as [Hs Hx]. constructor; [exact (IH Hs)|].
    rewrite Forall_app in Hx |- *. destruct Hx as [Hl Ht]. split; [exact Hl|].
    constructor; [|constructor]. inversion Ht; subst. lia.
Qed.

Lemma StronglySorted_snoc_snoc l t t' :
  t <= t' -> StronglySorted Z.le (l ++ [t]) -> StronglySorted Z.le ((l ++ [t]) ++ [t']).
Proof.
  intros Htt'. induction l as [|x l IH]; cbn [app]; intros Hs.
  - repeat constructor. exact Htt'.
  - apply StronglySorted_inv in Hs as [Hs Hx]. constructor; [exact (IH Hs)|].
    rewrite Forall_app. split; [exact Hx|]. constructor; [|constructor].
    rewrite Forall_app in Hx. destruct Hx as [_ Ht]. inversion Ht; subst. lia.
Qed.

Lemma attempt_ordered st endpoint t t' :
  ordered st t -> t <= t' -> ordered (attempt st endpoint (clockAt t')).1 t'.
Proof.
  intros [He Hg] Htt'. unfold attempt. cbn [clockAt now nowGlobal nowEndpoint].
  set (g := cleanOldRequests t' (globalRequests st)).
  set (e := cleanOldRequests t' (default [] (endpointRequests st !! endpoint))).
  assert (Hg' : StronglySorted Z.le (g ++ [t'])).
  { apply (StronglySorted_filter_snoc _ _ t); assumption. }
  assert (He' : StronglySorted Z.le (e ++ [t'])).
  { apply (StronglySorted_filter_snoc _ _ t); [assumption|apply He]. }
  assert (Hother : forall k, StronglySorted Z.le (recorded st k ++ [t'])).
  { intros k. apply (StronglySorted_snoc_le _ t); [assumption|apply He]. }
  destruct ((GLOBAL_LIMIT <=? length g)%nat || (ENDPOINT_LIMIT <=? length e)%nat).
  - assert (Hst : ordered {| endpointRequests := <[endpoint := e]> (endpointRequests st);
                             globalRequests := g |} t').
    { split; [|exact Hg']. intros k. unfold recorded. cbn [endpointRequests].
      destruct (decide (endpoint = k)) as [<-|Hne].
      - rewrite lookup_insert_eq. exact He'.
      - rewrite lookup_insert_ne by exact Hne. apply Hother. }
    destruct (head _) as [oldest|]; [destruct (oldest =? 0)|]; exact Hst.
  - cbn [fst]. split.
    + intros k. unfold recorded. cbn [endpointRequests]. rewrite insert_insert_eq.
      destruct (decide (endpoint = k)) as [<-|Hne].
      * rewrite lookup_insert_eq. cbn [default].
        apply StronglySorted_snoc_snoc; [lia|exact He'].
      * rewrite lookup_insert_ne by exact Hne. apply Hother.
    + cbn [globalRequests]. apply StronglySorted_snoc_snoc; [lia|exact Hg'].
Qed.

Lemma passes_ordered passes : forall st t,
  ordered st t -> nonDecreasingFrom t passes = true ->
  exists t', ordered (afterPasses st passes) t'.
Proof.
  induction passes as [|[endpoint u] passes IH]; intros st t Hord Hsorted.
  - exists t. exact Hord.
  - cbn [nonDecreasingFrom] in Hsorted. apply andb_true_iff in Hsorted as [Htu Hsorted].
    apply Z.leb_le in Htu.
    pose proof (attempt_ordered st endpoint t u Hord Htu) as Hstep.
    unfold afterPasses. cbn [map run waitForSlot fst snd].
    destruct (attempt st endpoint (clockAt u)) as [st' [|ms]]; cbn [fst] in Hstep |- *;
      exact (IH st' u Hstep Hsorted).
Qed.

Lemma initial_ordered t : ordered initial t.
Proof. split; [intros endpoint|]; repeat constructor. Qed.

Lemma StronglySorted_app_l (l k : list Z) : StronglySorted Z.le (l ++ k) -> StronglySorted Z.le l.
Proof.
  induction l as [|x l IH]; cbn [app]; intros Hs; [constructor|].
  apply StronglySorted_inv in Hs as [Hs Hx]. constructor; [exact (IH Hs)|].
  rewrite Forall_app in Hx. tauto.
Qed.

(** X4.  When every pass reads one time and the clock does not run
    backwards, the stored timestamps of every endpoint and the global ones
    are in non-decreasing order, so the first entry of the list a wait is
    computed from is its oldest. *)
Theorem stored_timestamps_ordered (passes : list (string * Z)) (endpoint : string) :
  nonDecreasing passes = true ->
  StronglySorted Z.le (recorded (afterPasses initial passes) endpoint)
  /\ StronglySorted Z.le (globalRequests (afterPasses initial passes))
  /\ (forall oldest rest ts,
        relevantRequests (afterPasses initial passes) endpoint = oldest :: rest ->
        ts ∈ rest -> oldest <= ts).
Proof.
  intros Hsorted.
  assert (Hord : exists t, ordered (afterPasses initial passes) t).
  { destruct passes as [|[e u] rest].
    - exists 0. apply initial_ordered.
    - apply (passes_ordered _ initial u (initial_ordered u)). exact Hsorted. }
  destruct Hord as (t & He & Hg).
  pose proof (StronglySorted_app_l _ _ (He endpoint)) as He'.
  pose proof (StronglySorted_app_l _ _ Hg) as Hg'.
  split; [exact He'|]. split; [exact Hg'|].
  intros oldest rest ts Hrel Hts. unfold relevantRequests in Hrel.
  assert (Hs : StronglySorted Z.le (oldest :: rest)).
  { rewrite <- Hrel. destruct (_ <=? _)%nat; assumption. }
  apply StronglySorted_inv in Hs as [_ Hall]. rewrite Forall_forall in Hall.
  apply Hall, Hts.
Qed.

Lemma admissions_window_bounded_witness :
  (inWindow 2000%Z
     (admittedTo "github:repo"
        (admissions initial [("github:repo", 1000%Z); ("github:tree", 1500%Z); ("github:repo", 2000%Z)]))
   <= ENDPOINT_LIMIT)%nat
  /\ (inWindow 2000%Z
        (map snd
           (admissions initial
              [("github:repo", 1000%Z); ("github:tree", 1500%Z); ("github:repo", 2000%Z)]))
      <= GLOBAL_LIMIT)%nat.
Proof.
  apply (admissions_window_bounded
           [("github:repo", 1000); ("github:tree", 1500); ("github:repo", 2000)]
           "github:repo" 2000); [reflexivity|].
  repeat constructor; cbn; lia.
Defined.

Lemma retry_waits_for_oldest_witness :
  exists oldest rest,
    relevantRequests
      (attempt (afterPasses initial (burst 250 "/v2/farcaster/cast" 1000))
         "/v2/farcaster/cast" (clockAt 1000)).1 "/v2/farcaster/cast"
    = oldest :: rest
    /\ 60100 = (if oldest =? 0 then 1000 else WINDOW_MS - (1000 - oldest) + 100).
Proof.
  destruct (retry_waits_for_oldest
              (afterPasses initial (burst 250 "/v2/farcaster/cast" 1000))
              "/v2/farcaster/cast" (clockAt 1000)
              (attempt (afterPasses initial (burst 250 "/v2/farcaster/cast" 1000))
                 "/v2/farcaster/cast" (clockAt 1000)).1 60100)
    as (oldest & rest & Hrel & Hms & _).
  - cbn. lia.
  - cbn. lia.
  - vm_compute. reflexivity.
  - exists oldest, rest. split; [exact Hrel|exact Hms].
Defined.

Lemma stored_timestamps_ordered_witness :
  StronglySorted Z.le
    (recorded (afterPasses initial [("a", 1); ("b", 5); ("a", 5); ("a", 70000)]) "a")
  /\ StronglySorted Z.le
       (globalRequests (afterPasses initial [("a", 1); ("b", 5); ("a", 5); ("a", 70000)])).
Proof.
  destruct (stored_timestamps_ordered [("a", 1); ("b", 5); ("a", 5); ("a", 70000)] "a"
              eq_refl) as (He & Hg & _).
  split; assumption.
Defined.

(** The ceiling is reached: of 251 passes on one endpoint at one time, 250
    record and the last is told to wait 60.1 seconds. *)
Lemma ceiling_is_reached :
  length (admissions initial (burst 251 "/v2/farcaster/cast" 1000)) = 250%nat
  /\ inWindow 1000 (recorded (afterPasses initial (burst 251 "/v2/farcaster/cast" 1000))
                      "/v2/farcaster/cast") = 250%nat
  /\ (attempt (afterPasses initial (burst 250 "/v2/farcaster/cast" 1000))
        "/v2/farcaster/cast" (clockAt 1000)).2 = Retry 60100.
Proof. vm_compute. repeat split; reflexivity. Qed.

(** *** Passes that read the clock three times *)

Lemma attempt_covers_readings st history t endpoint clk :
  covers st history t -> t <= nowGlobal clk -> nowGlobal clk <= nowEndpoint clk ->
  covers (attempt st endpoint clk).1
    (history ++ match (attempt st endpoint clk).2 with
                | Recorded => [(endpoint, now clk)]
                | Retry _ => []
                end) (nowEndpoint clk).
Proof.
  intros Hcov Htg Hge. unfold attempt.
  set (g := cleanOldRequests (nowGlobal clk) (globalRequests st)).
  set (e := cleanOldRequests (nowEndpoint clk) (default [] (endpointRequests st !! endpoint))).
  assert (Hg : forall u, nowEndpoint clk <= u -> sublist (cleanOldRequests u (map snd history)) g).
  { intros u Hu. rewrite <- (cleanOldRequests_later (nowGlobal clk) u) by lia.
    apply filter_sublist. apply (Hcov u). lia. }
  assert (He : forall u k, nowEndpoint clk <= u ->
            sublist (cleanOldRequests u (admittedTo k history))
                    (default [] (<[endpoint := e]> (endpointRequests st) !! k))).
  { intros u k Hu. destruct (decide (endpoint = k)) as [<-|Hne].
    - rewrite lookup_insert_eq. cbn [default].
      rewrite <- (cleanOldRequests_later (nowEndpoint clk) u) by exact Hu.
      apply filter_sublist. apply (Hcov u). lia.
    - rewrite lookup_insert_ne by exact Hne. apply (Hcov u). lia. }
  destruct ((GLOBAL_LIMIT <=? length g)%nat || (ENDPOINT_LIMIT <=? length e)%nat).
  - assert (Hst : covers {| endpointRequests := <[endpoint := e]> (endpointRequests st);
                            globalRequests := g |} (history ++ []) (nowEndpoint clk)).
    { rewrite app_nil_r. intros u Hu. split; [intros k; apply He, Hu|apply Hg, Hu]. }
    destruct (head _) as [oldest|]; [destruct (oldest =? 0)|]; exact Hst.
  - cbn [fst snd]. intros u Hu. split.
    + intros k. unfold recorded. cbn [endpointRequests]. rewrite insert_insert_eq.
      rewrite admittedTo_app, cleanOldRequests_app.
      destruct (decide (endpoint = k)) as [<-|Hne].
      * rewrite lookup_insert_eq. cbn [default]. apply sublist_app.
        -- specialize (He u endpoint Hu). rewrite lookup_insert_eq in He. exact He.
        -- unfold admittedTo. cbn [List.filter fst]. rewrite String.eqb_refl.
           apply filter_sublist_self.
      * rewrite lookup_insert_ne by exact Hne.
        unfold admittedTo at 2. cbn [List.filter fst].
        destruct (String.eqb_spec endpoint k) as [E|_]; [contradiction|].
        cbn [map cleanOldRequests List.filter]. rewrite app_nil_r.
        specialize (He u k Hu). rewrite lookup_insert_ne in He by exact Hne. exact He.
    + cbn [globalRequests]. rewrite map_app, cleanOldRequests_app. apply sublist_app.
      * apply Hg, Hu.
      * apply filter_sublist_self.
Qed.

Lemma attempts_cover passes : forall st history t final,
  covers st history t -> neverBefore t (readings passes) = true ->
  t <= final -> Forall (fun reading => reading <= final) (readings passes) ->
  covers (afterAttempts st passes) (history ++ admitted st passes) final.
Proof.
  induction passes as [|[endpoint clk] passes IH]; intros st history t final Hcov Hfwd Ht Hall.
  - rewrite app_nil_r. exact (covers_later _ _ _ _ Hcov Ht).
  - cbn [readings flat_map app neverBefore fst snd] in Hfwd, Hall.
    apply andb_true_iff in Hfwd as [Hn Hfwd]. apply andb_true_iff in Hfwd as [Hg Hfwd].
    apply andb_true_iff in Hfwd as [He Hfwd].
    apply Z.leb_le in Hn, Hg, He.
    inversion Hall as [|r1 l1 _ Hall1]; subst. inversion Hall1 as [|r2 l2 _ Hall2]; subst.
    inversion Hall2 as [|r3 l3 Hlast Hall3]; subst.
    assert (Htg : t <= nowGlobal clk) by lia.
    pose proof (attempt_covers_readings st history t endpoint clk Hcov Htg He) as Hstep.
    unfold afterAttempts. cbn [map run waitForSlot admitted fst snd].
    destruct (attempt st endpoint clk) as [st' [|ms]]; cbn [fst snd] in Hstep |- *.
    + pose proof (IH st' _ (nowEndpoint clk) final Hstep Hfwd Hlast Hall3) as Hcov'.
      rewrite <- app_assoc in Hcov'. exact Hcov'.
    + rewrite app_nil_r in Hstep. exact (IH st' _ (nowEndpoint clk) final Hstep Hfwd Hlast Hall3).
Qed.

Lemma trailing_sublist t requests : sublist (trailing t requests) (cleanOldRequests t requests).
Proof.
  unfold trailing, cleanOldRequests.
  induction requests as [|ts requests IH]; cbn [List.filter]; [constructor|].
  destruct (t - ts <? WINDOW_MS); rewrite ?andb_true_r, ?andb_false_r.
  - destruct (ts <=? t); constructor; exact IH.
  - exact IH.
Qed.

(** C3, as stated, fails.  A pass records its first reading of the clock
    and cleans the lists by later readings: when the clock ticks from 60999
    to 61000 in between, the 250 timestamps recorded at 1000 are dropped and
    a 251st is recorded at 60999, within 60 seconds of them, under a clock
    that never runs backwards.  And after the clock is set back from 61000
    to 1000 a 251st timestamp 1000 is recorded. *)
Lemma admissions_exceed_window :
  forward tickDuringPass = true
  /\ length (trailing 60999 (admittedTo "/v2/farcaster/cast" (admitted initial tickDuringPass)))
     = 251%nat
  /\ recorded (afterAttempts initial tickDuringPass) "/v2/farcaster/cast" = [60999]
  /\ forward clockSetBack = false
  /\ length (trailing 1000 (admittedTo "/v2/farcaster/cast" (admitted initial clockSetBack)))
     = 251%nat
  /\ (ENDPOINT_LIMIT < 251)%nat.
Proof. vm_compute. repeat split; reflexivity. Qed.

(** C3 (amended).  Let the readings of the clock never decrease, in the
    order the passes of [waitForSlot] take them (three to a pass; the passes
    of concurrent calls interleave, a call that waits being several passes),
    and let [t] be a moment not earlier than the last reading.  Then the
    timestamps recorded for an endpoint that lie in the 60 seconds up to [t]
    number at most 250 and those recorded in all at most 450: they are
    among the timestamps the limiter still stores, which never number
    more.  Every prefix of a history is a history, so this holds after
    every pass of a run. *)
Theorem window_counts_bounded (passes : list (string * Clock)) (endpoint : string) (t : Z) :
  forward passes = true ->
  Forall (fun reading => reading <= t) (readings passes) ->
  (length (trailing t (admittedTo endpoint (admitted initial passes))) <= ENDPOINT_LIMIT)%nat
  /\ (length (trailing t (map snd (admitted initial passes))) <= GLOBAL_LIMIT)%nat
  /\ sublist (trailing t (admittedTo endpoint (admitted initial passes)))
       (recorded (afterAttempts initial passes) endpoint)
  /\ sublist (trailing t (map snd (admitted initial passes)))
       (globalRequests (afterAttempts initial passes))
  /\ (length (recorded (afterAttempts initial passes) endpoint) <= ENDPOINT_LIMIT)%nat
  /\ (length (globalRequests (afterAttempts initial passes)) <= GLOBAL_LIMIT)%nat.
Proof.
  intros Hfwd Hbefore.
  assert (Hcov : covers (afterAttempts initial passes) (admitted initial passes) t).
  { destruct passes as [|[e clk] rest].
    - apply initial_covers.
    - change (covers (afterAttempts initial ((e, clk) :: rest))
                ([] ++ admitted initial ((e, clk) :: rest)) t).
      unfold forward in Hfwd. cbn [readings flat_map app fst snd] in Hfwd.
      apply (attempts_cover _ initial [] (now clk) t (initial_covers (now clk))).
      + cbn [readings flat_map app neverBefore fst snd]. rewrite Z.leb_refl. exact Hfwd.
      + inversion Hbefore; subst. assumption.
      + exact Hbefore. }
  destruct (Hcov t (Z.le_refl t)) as [He Hg].
  destruct (run_bounded (map (fun p => (p.1, [p.2])) passes) initial initial_bounded)
    as [Be Bg].
  assert (Se : sublist (trailing t (admittedTo endpoint (admitted initial passes)))
                 (recorded (afterAttempts initial passes) endpoint)).
  { etransitivity; [apply trailing_sublist|apply He]. }
  assert (Sg : sublist (trailing t (map snd (admitted initial passes)))
                 (globalRequests (afterAttempts initial passes))).
  { etransitivity; [apply trailing_sublist|exact Hg]. }
  split; [|split; [|split; [|split; [|split]]]].
  - etransitivity; [apply sublist_length, Se|apply Be].
  - etransitivity; [apply sublist_length, Sg|apply Bg].
  - exact Se.
  - exact Sg.
  - apply Be.
  - apply Bg.
Qed.

Lemma window_counts_bounded_witness :
  (length
     (trailing 61000
        (admittedTo "/v2/farcaster/cast" (admitted initial tickDuringPass)))
   <= ENDPOINT_LIMIT)%nat
  /\ (length (trailing 61000 (map snd (admitted initial tickDuringPass))) <= GLOBAL_LIMIT)%nat.
Proof.
  destruct (window_counts_bounded tickDuringPass "/v2/farcaster/cast" 61000) as (He & Hg & _).
  - vm_compute. reflexivity.
  - apply Forall_forall. intros reading Hin. apply list_elem_of_In in Hin.
    apply Z.leb_le. revert reading Hin.
    apply (proj1 (forallb_forall (fun reading => reading <=? 61000) _)).
    vm_compute. reflexivity.
  - split; assumption.
Defined.

End RateLimiterFacts.

(** ** Pagination and parent resolution *)
Module FeedFacts.
Import JSNumber JSObject Feed.

Lemma filter_all {A} (f : A -> bool) (l : list A) :
  Forall (fun x => f x = true) l -> List.filter f l = l.
Proof.
  induction 1 as [|x l Hx _ IH]; simpl; [reflexivity|]. rewrite Hx, IH. reflexivity.
Qed.

Lemma slice0_nat {A} (l : list A) (n : nat) :
  slice0 l (inject_Z (Z.of_nat n)) = take n l.
Proof.
  unfold slice0, truncate.
  assert (H : Qle_bool 0 (inject_Z (Z.of_nat n)) = true).
  { apply Qle_bool_iff. change 0%Q with (inject_Z 0). rewrite <- Zle_Qle. lia. }
  rewrite H, Qfloor_Z.
  destruct (Z.ltb_spec (Z.of_nat n) 0); [lia|]. rewrite Nat2Z.id. reflexivity.
Qed.

Lemma take_rev_drop {A} (l : list A) (n : nat) :
  (n <= length l)%nat -> take n (rev l) = rev (drop (length l - n) l).
Proof.
  intros H. rewrite <- (take_drop (length l - n) l) at 1.
  rewrite rev_app_distr. rewrite take_app_le by (rewrite length_rev, length_drop; lia).
  apply take_ge. rewrite length_rev, length_drop. lia.
Qed.

(** [unique] lists every element once. *)
Lemma uniqueFrom_spec xs : forall seen,
  NoDup (uniqueFrom seen xs)
  /\ (forall x, x ∈ uniqueFrom seen xs <-> x ∈ xs /\ x ∉ seen).
Proof.
  induction xs as [|y xs IH]; intros seen; simpl.
  - split; [constructor|]. intros x. split; [intros H; inversion H|intros [H _]; inversion H].
  - case_bool_decide as Hy.
    + destruct (IH seen) as [Hnd Hin]. split; [exact Hnd|].
      intros x. rewrite Hin, elem_of_cons. split; [tauto|].
      intros [[->|Hx] Hs]; [contradiction|tauto].
    + destruct (IH (y :: seen)) as [Hnd Hin]. split.
      * constructor; [|exact Hnd]. rewrite Hin, elem_of_cons. tauto.
      * intros x. rewrite !elem_of_cons, Hin, elem_of_cons. split.
        -- intros [->|[Hx Hs]]; [tauto|]. split; [tauto|]. intros Hxs. tauto.
        -- intros [[->|Hx] Hs]; [tauto|].
           destruct (decide (x = y)) as [->|Hne]; [tauto|]. right. split; [exact Hx|].
           intros [?|?]; contradiction.
Qed.

Lemma NoDup_unique xs : NoDup (unique xs).
Proof. apply uniqueFrom_spec. Qed.

Lemma elem_of_unique xs x : x ∈ unique xs <-> x ∈ xs.
Proof.
  unfold unique. rewrite (proj2 (uniqueFrom_spec xs [])). split; [tauto|].
  intros H. split; [exact H|]. intros Hn. inversion Hn.
Qed.

(** The batches, put end to end, are the list that was cut. *)
Lemma concat_batchesOf {A} (size : nat) : forall fuel (xs : list A),
  (0 < size)%nat -> (length xs <= fuel)%nat -> concat (batchesOf fuel size xs) = xs.
Proof.
  induction fuel as [|fuel IH]; intros xs Hsize Hlen.
  - destruct xs; [reflexivity|simpl in Hlen; lia].
  - destruct xs as [|x xs]; [reflexivity|].
    change (batchesOf (S fuel) size (x :: xs))
      with (take size (x :: xs) :: batchesOf fuel size (drop size (x :: xs))).
    simpl concat. rewrite IH; [apply take_drop|exact Hsize|].
    rewrite length_drop. simpl in *. lia.
Qed.

Lemma concat_batches {A} (size : nat) (xs : list A) :
  (0 < size)%nat -> concat (batches size xs) = xs.
Proof. intros H. apply concat_batchesOf; [exact H|lia]. Qed.

Lemma inherited_proto : inherited "__proto__" = true.
Proof. reflexivity. Qed.

Lemma plain_not_proto refs :
  Forall (fun ref => inherited ref = false) refs -> "__proto__"%string ∉ refs.
Proof.
  intros Hplain Hin. rewrite Forall_forall in Hplain.
  specialize (Hplain _ Hin). rewrite inherited_proto in Hplain. discriminate Hplain.
Qed.

Section AdapterFacts.
Context {Raw Post : Type}.
Variable keep : bool -> Raw -> bool.
Variable transform : Raw -> Post.
Variable parentRef : Post -> option string.
Variable setParent : Post -> Slot Post -> Post.
Variable ownField : Post -> string -> option bool.
Variable parentOf : Post -> option (Slot Post).
(** The unit without its attached parent. *)
Variable bare : Post -> Post.

(** What the two adapters have in common: attaching a parent changes
    nothing but the parent, and a transformed record carries none. *)
Hypothesis bare_setParent : forall p parent, bare (setParent p parent) = bare p.
Hypothesis bare_transform : forall raw, bare (transform raw) = transform raw.
Hypothesis parentRef_setParent : forall p parent, parentRef (setParent p parent) = parentRef p.
Hypothesis parentOf_setParent : forall p parent, parentOf (setParent p parent) = Some parent.
Hypothesis parentOf_transform : forall raw, parentOf (transform raw) = None.

Variable upstream : Upstream (Raw := Raw).
Variable params : QueryParams.

Local Abbreviation paginate := (paginate keep transform upstream params).
Local Abbreviation fetchPosts :=
  (fetchPosts keep transform parentRef setParent ownField upstream params).
Local Abbreviation finish := (finish transform parentRef setParent ownField upstream params).
Local Abbreviation resolveParents :=
  (resolveParents transform parentRef setParent ownField upstream).
Local Abbreviation buildParentMap := (buildParentMap transform upstream).
Local Abbreviation attachParent := (attachParent parentRef setParent ownField).
Local Abbreviation read := (read ownField).
Local Abbreviation lookupOne := (lookupOne transform upstream).
Local Abbreviation resolved := (resolved transform upstream).

(** **** The pagination loop on three pages of 50 *)

Lemma paginate_three_pages p1 p2 p3 fuel :
  yieldsThreePages upstream p1 p2 p3 ->
  length p1 = 50%nat -> length p2 = 50%nat -> length p3 = 50%nat ->
  Forall (fun raw => keep (includeReplies params) raw = true) (p1 ++ p2 ++ p3) ->
  limit params = Some 120%Q ->
  all params = false ->
  (3 <= fuel)%nat ->
  paginate fuel None [] = Some (Ok (map transform (p1 ++ p2 ++ p3))).
Proof.
  intros (c1 & c2 & last & T1 & T2 & T3 & F1 & F2 & F3) L1 L2 L3 Hkeep Hlim Hall Hfuel.
  apply Forall_app in Hkeep as [K1 Hkeep]. apply Forall_app in Hkeep as [K2 K3].
  destruct fuel as [|[|[|fuel]]]; try lia.
  assert (Hlt : forall n : nat, (n < 120)%nat ->
            fetchAll params || ltb (inject_Z (Z.of_nat n)) (limitOf params) = true).
  { intros n Hn. unfold fetchAll, limitOf. rewrite Hall, Hlim. simpl.
    unfold ltb. apply negb_true_iff.
    destruct (Qle_bool 120 (inject_Z (Z.of_nat n))) eqn:E; [|reflexivity].
    apply Qle_bool_iff in E. change 120%Q with (inject_Z 120) in E.
    rewrite <- Zle_Qle in E. lia. }
  cbn [Feed.paginate]. rewrite F1. cbn [items cursor]. rewrite T1.
  rewrite (filter_all _ _ K1), app_nil_l.
  rewrite Hlt by (rewrite length_map; lia).
  rewrite F2. cbn [items cursor]. rewrite T2.
  rewrite (filter_all _ _ K2).
  rewrite Hlt by (rewrite length_app, !length_map; lia).
  rewrite F3. cbn [items cursor]. rewrite T3.
  rewrite (filter_all _ _ K3).
  rewrite !map_app, app_assoc. reflexivity.
Qed.

(** **** Attaching parents keeps the units *)

Lemma bare_attachParent parentMap p : bare (attachParent parentMap p) = bare p.
Proof.
  unfold Feed.attachParent. destruct (truthyString (parentRef p)); [|reflexivity].
  destruct (read parentMap s); [apply bare_setParent|reflexivity].
Qed.

Lemma bare_resolveParents posts : map bare (resolveParents posts) = map bare posts.
Proof.
  unfold Feed.resolveParents. rewrite map_map. apply map_ext. intros p. apply bare_attachParent.
Qed.

Lemma length_resolveParents posts : length (resolveParents posts) = length posts.
Proof. unfold Feed.resolveParents. apply length_map. Qed.

(** What [finish] returns once the loop has gathered 150 units for a limit
    of 120: parents aside, the first 120 of the units, taken after the
    reversal when the order is [oldest]. *)
Lemma finish_limit_120 fetched :
  length fetched = 150%nat ->
  Forall (fun p => bare p = p) fetched ->
  limit params = Some 120%Q ->
  all params = false ->
  let expected :=
    match sortOrder params with
    | Some oldest => rev (drop 30 fetched)
    | _ => take 120 fetched
    end in
  map bare (finish fetched) = expected
  /\ (includeParents params = false -> finish fetched = expected).
Proof.
  intros Hlen Hbare Hlim Hall expected.
  assert (Hslice : forall l : list Post, slice0 l (limitOf params) = take 120 l).
  { intros l. unfold limitOf. rewrite Hlim. apply (slice0_nat l 120). }
  assert (Hmapbare : forall l : list Post, Forall (fun p => bare p = p) l -> map bare l = l).
  { induction 1 as [|x l Hx _ IH]; simpl; [reflexivity|]. rewrite Hx, IH. reflexivity. }
  assert (Hrev : take 120 (rev fetched) = rev (drop 30 fetched)).
  { rewrite take_rev_drop by lia. rewrite Hlen. reflexivity. }
  unfold Feed.finish, fetchAll. rewrite Hall, !Hslice.
  split.
  - rewrite <- !firstn_map.
    assert (Hdec : forall l : list Post,
              map bare (if includeParents params then resolveParents l else l) = map bare l).
    { intros l. destruct (includeParents params); [apply bare_resolveParents|reflexivity]. }
    rewrite Hdec. unfold expected.
    destruct (sortOrder params) as [[|]|].
    + rewrite (Hmapbare _ Hbare). reflexivity.
    + rewrite <- Hrev. f_equal. apply Hmapbare, Forall_rev, Hbare.
    + rewrite (Hmapbare _ Hbare). reflexivity.
  - intros ->. unfold expected. destruct (sortOrder params) as [[|]|]; auto.
Qed.

Lemma fetch_three_pages p1 p2 p3 fuel :
  yieldsThreePages upstream p1 p2 p3 ->
  length p1 = 50%nat -> length p2 = 50%nat -> length p3 = 50%nat ->
  Forall (fun raw => keep (includeReplies params) raw = true) (p1 ++ p2 ++ p3) ->
  limit params = Some 120%Q ->
  all params = false ->
  (3 <= fuel)%nat ->
  let fetched := map transform (p1 ++ p2 ++ p3) in
  let expected :=
    match sortOrder params with
    | Some oldest => rev (drop 30 fetched)
    | _ => take 120 fetched
    end in
  exists posts,
    fetchPosts fuel = Some (Ok posts)
    /\ length posts = 120%nat
    /\ map bare posts = expected
    /\ (includeParents params = false -> posts = expected).
Proof.
  intros Hpages L1 L2 L3 Hkeep Hlim Hall Hfuel fetched expected.
  unfold Feed.fetchPosts.
  rewrite (paginate_three_pages p1 p2 p3 fuel Hpages L1 L2 L3 Hkeep Hlim Hall Hfuel).
  fold fetched.
  assert (Hlen : length fetched = 150%nat).
  { unfold fetched. rewrite length_map, !length_app. lia. }
  assert (Hbare : Forall (fun p => bare p = p) fetched).
  { unfold fetched. apply Forall_map, Forall_forall. intros raw _. apply bare_transform. }
  destruct (finish_limit_120 fetched Hlen Hbare Hlim Hall) as [Hb Hexact].
  exists (finish fetched). split; [reflexivity|]. split; [|split; assumption].
  rewrite <- (length_map bare), Hb.
  destruct (sortOrder params) as [[|]|];
    rewrite ?length_rev, ?length_drop, ?length_take; lia.
Qed.

(** **** The parent map *)

Lemma lookupOne_fst ref : (lookupOne ref).1 = ref.
Proof. unfold Feed.lookupOne. destruct (lookupParent upstream ref) as [[raw|]|]; reflexivity. Qed.

Lemma resolved_is_Some ref :
  is_Some (resolved ref) <-> exists raw, lookupParent upstream ref = Ok (Some raw).
Proof.
  unfold Feed.resolved, Feed.lookupOne.
  destruct (lookupParent upstream ref) as [[raw|]|]; simpl; split.
  - intros _. exists raw. reflexivity.
  - intros _. eexists. reflexivity.
  - intros [? H]. discriminate H.
  - intros [? H]. discriminate H.
  - intros [? H]. discriminate H.
  - intros [? H]. discriminate H.
Qed.

(** A key that is not [__proto__] is assigned as an own property. *)
Lemma assign_plain key post (parentMap : ParentMap Post) :
  key <> "__proto__"%string ->
  assign key post parentMap
  = {| own := <[key := post]> (own parentMap); proto := proto parentMap |}.
Proof.
  intros Hkey. unfold assign. destruct (String.eqb_spec key "__proto__"); [contradiction|].
  reflexivity.
Qed.

Lemma recordResults_lookup refs : forall (parentMap : ParentMap Post),
  "__proto__"%string ∉ refs ->
  proto (recordResults parentMap (map lookupOne refs)) = proto parentMap
  /\ forall ref,
       own (recordResults parentMap (map lookupOne refs)) !! ref
       = match (if bool_decide (ref ∈ refs) then resolved ref else None) with
         | Some parent => Some parent
         | None => own parentMap !! ref
         end.
Proof.
  induction refs as [|r refs IH]; intros parentMap Hplain.
  - split; reflexivity.
  - apply not_elem_of_cons in Hplain as [Hr Hplain].
    unfold Feed.recordResults in *. simpl foldl.
    rewrite lookupOne_fst. fold (resolved r).
    set (next := match resolved r with
                 | Some post => assign r post parentMap
                 | None => parentMap
                 end).
    destruct (IH next Hplain) as [Hproto Hown].
    assert (Hnext : proto next = proto parentMap
                    /\ forall ref, own next !! ref
                                   = if decide (ref = r)
                                     then match resolved r with
                                          | Some parent => Some parent
                                          | None => own parentMap !! ref
                                          end
                                     else own parentMap !! ref).
    { unfold next. destruct (resolved r) as [post|].
      - rewrite assign_plain by congruence. cbn [own proto]. split; [reflexivity|].
        intros ref. destruct (decide (ref = r)) as [->|Hne].
        + apply lookup_insert_eq.
        + apply lookup_insert_ne. congruence.
      - split; [reflexivity|]. intros ref. destruct (decide (ref = r)); reflexivity. }
    destruct Hnext as [Hnproto Hnown].
    split; [congruence|]. intros ref. rewrite Hown, Hnown.
    destruct (decide (ref = r)) as [->|Hne].
    + rewrite (bool_decide_eq_true_2 (r ∈ r :: refs)) by (left).
      destruct (bool_decide (r ∈ refs)); destruct (resolved r) as [parent|]; reflexivity.
    + assert (Hin : bool_decide (ref ∈ r :: refs) = bool_decide (ref ∈ refs)).
      { apply bool_decide_ext. rewrite elem_of_cons. tauto. }
      rewrite Hin. reflexivity.
Qed.

Lemma recordResults_app (parentMap : ParentMap Post) results results' :
  recordResults parentMap (results ++ results')
  = recordResults (recordResults parentMap results) results'.
Proof. unfold Feed.recordResults. apply foldl_app. Qed.

Lemma buildParentMap_flat refs :
  buildParentMap refs = recordResults emptyMap (map lookupOne refs).
Proof.
  unfold Feed.buildParentMap.
  rewrite <- (concat_batches batchSize refs) at 2 by (unfold batchSize; lia).
  generalize (batches batchSize refs). generalize (emptyMap : ParentMap Post).
  intros m bs. revert m. induction bs as [|b bs IH]; intros m; [reflexivity|].
  simpl. rewrite map_app, recordResults_app. apply IH.
Qed.

(** With no reference named [__proto__] the object keeps its prototype and
    owns the parents that were resolved. *)
Lemma buildParentMap_lookup refs :
  "__proto__"%string ∉ refs ->
  proto (buildParentMap refs) = None
  /\ forall ref,
       own (buildParentMap refs) !! ref = if bool_decide (ref ∈ refs) then resolved ref else None.
Proof.
  intros Hplain. rewrite buildParentMap_flat.
  destruct (recordResults_lookup refs emptyMap Hplain) as [Hproto Hown].
  split; [exact Hproto|]. intros ref. rewrite Hown. cbn [emptyMap own]. rewrite lookup_empty.
  destruct (if bool_decide (ref ∈ refs) then resolved ref else None); reflexivity.
Qed.

(** A read of a key that names no member of [Object.prototype], when no
    reference does, answers the resolved parent or nothing. *)
Lemma read_buildParentMap refs ref :
  Forall (fun r => inherited r = false) refs -> inherited ref = false ->
  read (buildParentMap refs) ref
  = Stored <$> (if bool_decide (ref ∈ refs) then resolved ref else None).
Proof.
  intros Hplain Href.
  destruct (buildParentMap_lookup refs (plain_not_proto refs Hplain)) as [Hproto Hown].
  unfold Feed.read. rewrite Hown, Hproto, Href.
  destruct (String.eqb_spec ref "__proto__") as [->|_].
  - rewrite inherited_proto in Href. discriminate Href.
  - destruct (if bool_decide (ref ∈ refs) then resolved ref else None); reflexivity.
Qed.

(** **** One failed lookup among [M] distinct parent references *)

Section OneFailure.
Variable posts : list Post.
Variable failed : string.

Hypothesis posts_fresh : Forall (fun p => parentOf p = None) posts.
Hypothesis refs_plain : Forall (fun ref => inherited ref = false) (parentRefs parentRef posts).
Hypothesis failed_in : failed ∈ parentRefs parentRef posts.
Hypothesis failed_fails : resolved failed = None.
Hypothesis others_succeed :
  forall ref, ref ∈ parentRefs parentRef posts -> ref <> failed -> is_Some (resolved ref).

Lemma parentMap_dom :
  dom (own (buildParentMap (parentRefs parentRef posts)))
  = list_to_set (parentRefs parentRef posts) ∖ {[failed]}.
Proof.
  apply set_eq. intros ref.
  rewrite elem_of_dom,
    (proj2 (buildParentMap_lookup _ (plain_not_proto _ refs_plain))),
    elem_of_difference, elem_of_list_to_set, elem_of_singleton.
  case_bool_decide as Hin.
  - destruct (decide (ref = failed)) as [->|Hne].
    + rewrite failed_fails. split; [intros [? H]; discriminate H|tauto].
    + split; [tauto|]. intros _. apply others_succeed; assumption.
  - split; [intros [? H]; discriminate H|tauto].
Qed.

Lemma parentMap_size :
  size (own (buildParentMap (parentRefs parentRef posts)))
  = (length (parentRefs parentRef posts) - 1)%nat.
Proof.
  rewrite <- size_dom, parentMap_dom, size_difference by set_solver.
  rewrite size_singleton, size_list_to_set by apply NoDup_unique. reflexivity.
Qed.

(** A unit gets a parent exactly when its reference is one of the others. *)
Lemma attachParent_parentOf p :
  p ∈ posts ->
  is_Some (parentOf (attachParent (buildParentMap (parentRefs parentRef posts)) p))
  <-> exists ref, truthyString (parentRef p) = Some ref /\ ref <> failed.
Proof.
  intros Hp.
  assert (Hfresh : parentOf p = None).
  { rewrite Forall_forall in posts_fresh. apply posts_fresh, Hp. }
  unfold Feed.attachParent.
  destruct (truthyString (parentRef p)) as [ref|] eqn:Href.
  - assert (Hin : ref ∈ parentRefs parentRef posts).
    { unfold parentRefs. apply elem_of_unique, list_elem_of_omap. exists p. split; assumption. }
    assert (Hplain : inherited ref = false).
    { rewrite Forall_forall in refs_plain. apply refs_plain, Hin. }
    rewrite (read_buildParentMap _ _ refs_plain Hplain), bool_decide_eq_true_2 by exact Hin.
    destruct (decide (ref = failed)) as [->|Hne].
    + rewrite failed_fails. cbn [fmap option_fmap option_map]. rewrite Hfresh.
      split; [intros [? H]; discriminate H|].
      intros (r & Hr & Hne). congruence.
    + destruct (others_succeed ref Hin Hne) as [parent Hparent]. rewrite Hparent.
      cbn [fmap option_fmap option_map]. rewrite parentOf_setParent. split; [|intros _; eexists; reflexivity].
      intros _. exists ref. split; [reflexivity|exact Hne].
  - rewrite Hfresh. split; [intros [? H]; discriminate H|].
    intros (r & Hr & _). discriminate Hr.
Qed.

Lemma parentRef_attachParent parentMap p :
  parentRef (attachParent parentMap p) = parentRef p.
Proof.
  unfold Feed.attachParent. destruct (truthyString (parentRef p)); [|reflexivity].
  destruct (read parentMap s); [apply parentRef_setParent|reflexivity].
Qed.

Lemma attachedRefs_set :
  list_to_set (attachedRefs parentRef parentOf (resolveParents posts))
  =@{gset string} list_to_set (parentRefs parentRef posts) ∖ {[failed]}.
Proof.
  apply set_eq. intros ref.
  rewrite elem_of_difference, !elem_of_list_to_set, elem_of_singleton.
  unfold attachedRefs, parentRefs. rewrite !elem_of_unique, !list_elem_of_omap.
  unfold Feed.resolveParents. split.
  - intros (q & Hq & Hsel). apply list_elem_of_fmap in Hq as (p & -> & Hp).
    rewrite parentRef_attachParent in Hsel.
    destruct (parentOf _) eqn:Hparent; [|discriminate Hsel].
    assert (Hs : is_Some (parentOf
              (attachParent (buildParentMap (parentRefs parentRef posts)) p)))
      by (rewrite Hparent; eexists; reflexivity).
    apply attachParent_parentOf in Hs as (r & Hr & Hne); [|exact Hp].
    split; [exists p; split; assumption|]. congruence.
  - intros [(p & Hp & Href) Hne].
    exists (attachParent (buildParentMap (parentRefs parentRef posts)) p). split.
    + apply list_elem_of_fmap. exists p. split; [reflexivity|exact Hp].
    + rewrite parentRef_attachParent.
      assert (Hs : is_Some (parentOf
                (attachParent (buildParentMap (parentRefs parentRef posts)) p))).
      { apply attachParent_parentOf; [exact Hp|]. exists ref. split; assumption. }
      destruct Hs as [parent Hparent]. fold (parentRefs parentRef posts).
      rewrite Hparent. exact Href.
Qed.

Lemma attachedRefs_length :
  length (attachedRefs parentRef parentOf (resolveParents posts))
  = (length (parentRefs parentRef posts) - 1)%nat.
Proof.
  rewrite <- (size_list_to_set (C := gset string)) by apply NoDup_unique.
  rewrite attachedRefs_set, size_difference by set_solver.
  rewrite size_singleton, size_list_to_set by apply NoDup_unique. reflexivity.
Qed.

End OneFailure.

(** **** The loop gathers transformed records only *)

Lemma paginate_fresh fuel : forall cursor0 gathered posts,
  paginate fuel cursor0 gathered = Some (Ok posts) ->
  Forall (fun p => parentOf p = None) gathered ->
  Forall (fun p => parentOf p = None) posts.
Proof.
  induction fuel as [|fuel IH]; intros cursor0 gathered posts; [discriminate|].
  cbn [Feed.paginate]. destruct (fetchPage upstream cursor0) as [res|msg]; [|discriminate].
  intros Hrun Hgathered.
  assert (Hnext : Forall (fun p => parentOf p = None)
            (gathered ++ map transform
               (List.filter (keep (includeReplies params)) (items res)))).
  { apply Forall_app. split; [exact Hgathered|].
    apply Forall_map, Forall_forall. intros raw _. apply parentOf_transform. }
  destruct (truthyString (cursor res)) as [c|].
  - destruct (_ || _).
    + eapply IH; eassumption.
    + injection Hrun as <-. exact Hnext.
  - injection Hrun as <-. exact Hnext.
Qed.

End AdapterFacts.

(** **** The two adapters *)

Lemma sample_yieldsThreePages :
  yieldsThreePages sampleUpstream (samplePage 0) (samplePage 1) (samplePage 2).
Proof. exists "page2"%string, "page3"%string, None. repeat split; reflexivity. Defined.

(** C1, as stated, fails for the order [oldest]: on the sample feed of 150
    numbered casts the request for 120 answers casts 150 down to 31, not
    casts 120 down to 1, the reversal of what [newest] answers. *)
Lemma oldest_is_not_newest_reversed :
  exists newestPosts oldestPosts : list FarcasterCast,
    fetchCasts sampleUpstream (sampleParams newest false) 3 = Some (Ok newestPosts)
    /\ fetchCasts sampleUpstream (sampleParams oldest false) 3 = Some (Ok oldestPosts)
    /\ length newestPosts = 120%nat
    /\ length oldestPosts = 120%nat
    /\ cast_hash <$> head newestPosts = Some "cast1"%string
    /\ cast_hash <$> head (rev newestPosts) = Some "cast120"%string
    /\ cast_hash <$> head oldestPosts = Some "cast150"%string
    /\ oldestPosts <> rev newestPosts.
Proof.
  eexists. eexists.
  split; [vm_compute; reflexivity|]. split; [vm_compute; reflexivity|].
  split; [reflexivity|]. split; [reflexivity|].
  split; [reflexivity|]. split; [reflexivity|]. split; [reflexivity|].
  intros H. apply (f_equal (fun l => cast_hash <$> head l)) in H.
  vm_compute in H. discriminate H.
Qed.

(** C1 (amended).  When the upstream yields three pages of 50 items and
    then no cursor, a request with limit 120 gathers all 150 items and
    answers 120 of them: with the order [newest] (or none) the 120 newest,
    newest first; with the order [oldest] the first 120 of the reversed
    sequence, that is the 120 oldest of the 150, oldest first (the 30 newest
    are dropped).  Attached parents aside, these are the upstream's items;
    without [includeParents] they are exactly those.  Both adapters. *)
Theorem pagination_of_three_pages :
  (forall (upstream : Upstream (Raw := RawCast)) (params : QueryParams)
          (p1 p2 p3 : list RawCast) (fuel : nat),
      yieldsThreePages upstream p1 p2 p3 ->
      length p1 = 50%nat -> length p2 = 50%nat -> length p3 = 50%nat ->
      Forall (fun raw => keepCast (includeReplies params) raw = true) (p1 ++ p2 ++ p3) ->
      limit params = Some 120%Q ->
      all params = false ->
      (3 <= fuel)%nat ->
      let fetched := map transformCast (p1 ++ p2 ++ p3) in
      let expected :=
        match sortOrder params with
        | Some oldest => rev (drop 30 fetched)
        | _ => take 120 fetched
        end in
      exists posts,
        fetchCasts upstream params fuel = Some (Ok posts)
        /\ length posts = 120%nat
        /\ map castWithoutParent posts = expected
        /\ (includeParents params = false -> posts = expected))
  /\ (forall (upstream : Upstream (Raw := RawItem)) (params : QueryParams)
            (p1 p2 p3 : list RawItem) (fuel : nat),
      yieldsThreePages upstream p1 p2 p3 ->
      length p1 = 50%nat -> length p2 = 50%nat -> length p3 = 50%nat ->
      Forall (fun raw => keepItem (includeReplies params) raw = true) (p1 ++ p2 ++ p3) ->
      limit params = Some 120%Q ->
      all params = false ->
      (3 <= fuel)%nat ->
      let fetched := map transformBskyPost (p1 ++ p2 ++ p3) in
      let expected :=
        match sortOrder params with
        | Some oldest => rev (drop 30 fetched)
        | _ => take 120 fetched
        end in
      exists posts,
        fetchBskyPosts upstream params fuel = Some (Ok posts)
        /\ length posts = 120%nat
        /\ map postWithoutParent posts = expected
        /\ (includeParents params = false -> posts = expected)).
Proof.
  split; intros upstream params p1 p2 p3 fuel.
  - apply (fetch_three_pages keepCast transformCast cast_parentHash setParentCast castField
             castWithoutParent); reflexivity.
  - apply (fetch_three_pages keepItem transformBskyPost bsky_replyParent setParentPost
             postField postWithoutParent); reflexivity.
Qed.

Lemma pagination_of_three_pages_witness :
  exists posts,
    fetchCasts sampleUpstream (sampleParams oldest true) 3 = Some (Ok posts)
    /\ length posts = 120%nat
    /\ map castWithoutParent posts
        = rev (drop 30 (map transformCast (samplePage 0 ++ samplePage 1 ++ samplePage 2)))
    /\ (includeParents (sampleParams oldest true) = false ->
        posts = rev (drop 30 (map transformCast (samplePage 0 ++ samplePage 1 ++ samplePage 2)))).
Proof.
  apply (proj1 pagination_of_three_pages sampleUpstream (sampleParams oldest true)
           (samplePage 0) (samplePage 1) (samplePage 2) 3 sample_yieldsThreePages);
    first [reflexivity | apply Forall_forall; intros raw _; reflexivity].
Defined.

(** C6, as stated, fails.  The parent map is an object literal, and a read
    of a key it does not own answers what the object inherits.  Of two
    distinct references, ["constructor"] and ["p1"], the lookup of the first
    fails and that of the second succeeds; both casts get a parent, the
    first the inherited member. *)
Lemma inherited_member_is_attached :
  exists casts,
    fetchCasts inheritedUpstream (sampleParams newest true) 1 = Some (Ok casts)
    /\ parentRefs cast_parentHash casts = ["constructor"; "p1"]%string
    /\ lookupParent inheritedUpstream "constructor" = Thrown "lookup failed"
    /\ lookupParent inheritedUpstream "p1" = Ok (Some (sampleParent "p1"))
    /\ length (attachedRefs cast_parentHash cast_parentCast casts) = 2%nat
    /\ cast_parentCast <$> head casts = Some (Some (Inherited None "constructor")).
Proof. eexists. split; [vm_compute; reflexivity|]. repeat split; reflexivity. Qed.

(** C6 (amended).  Let the fetched units carry [M] distinct non-empty parent
    references, none of them the name of a member of [Object.prototype],
    let the lookup of one of them fail (it throws or answers no cast) and
    the other [M - 1] succeed.  Then the parent map holds [M - 1] parents,
    the units carry [M - 1] distinct attached parents, a unit gets its
    parent exactly when its reference is not the failed one, and
    [fetchCasts] returns normally with these units. *)
Theorem parent_resolution_skips_failed_lookup
    (upstream : Upstream (Raw := RawCast)) (params : QueryParams) (fuel : nat)
    (units : list FarcasterCast) (failed : string) :
  includeParents params = true ->
  paginate keepCast transformCast upstream params fuel None [] = Some (Ok units) ->
  let ordered :=
    match sortOrder params with
    | Some oldest => rev units
    | _ => units
    end in
  let refs := parentRefs cast_parentHash ordered in
  Forall (fun ref => inherited ref = false) refs ->
  failed ∈ refs ->
  (forall raw, lookupParent upstream failed <> Ok (Some raw)) ->
  (forall ref, ref ∈ refs -> ref <> failed ->
     exists raw, lookupParent upstream ref = Ok (Some raw)) ->
  let parentMap := buildParentMap transformCast upstream refs in
  let withParents :=
    resolveParents transformCast cast_parentHash setParentCast castField upstream ordered in
  size (own parentMap) = (length refs - 1)%nat
  /\ proto parentMap = None
  /\ length (attachedRefs cast_parentHash cast_parentCast withParents) = (length refs - 1)%nat
  /\ (forall c, c ∈ ordered ->
        is_Some (cast_parentCast
                   (attachParent cast_parentHash setParentCast castField parentMap c))
        <-> exists ref, truthyString (cast_parentHash c) = Some ref /\ ref <> failed)
  /\ fetchCasts upstream params fuel
     = Some (Ok (if all params then withParents else slice0 withParents (limitOf params))).
Proof.
  intros Hparents Hpages ordered refs Hplain Hin Hfail Hothers parentMap withParents.
  assert (Hfresh : Forall (fun c => cast_parentCast c = None) ordered).
  { assert (H : Forall (fun c => cast_parentCast c = None) units).
    { apply (paginate_fresh keepCast transformCast cast_parentCast) in Hpages;
        [exact Hpages|reflexivity|constructor]. }
    unfold ordered. destruct (sortOrder params) as [[|]|]; [exact H|apply Forall_rev, H|exact H]. }
  assert (Hfailed : resolved transformCast upstream failed = None).
  { destruct (resolved transformCast upstream failed) as [parent|] eqn:E;
      [|reflexivity].
    assert (Hs : is_Some (resolved transformCast upstream failed))
      by (rewrite E; eexists; reflexivity).
    apply resolved_is_Some in Hs as [raw Hraw]. destruct (Hfail raw Hraw). }
  assert (Hsucc : forall ref, ref ∈ refs -> ref <> failed ->
            is_Some (resolved transformCast upstream ref)).
  { intros ref Hr Hne. apply resolved_is_Some, Hothers; assumption. }
  split; [|split; [|split; [|split]]].
  - apply (parentMap_size transformCast cast_parentHash setParentCast cast_parentCast
             castWithoutParent) with (failed := failed);
      first [assumption | reflexivity].
  - apply (buildParentMap_lookup transformCast upstream refs (plain_not_proto refs Hplain)).
  - apply (attachedRefs_length transformCast cast_parentHash setParentCast castField
             cast_parentCast castWithoutParent) with (failed := failed);
      first [assumption | reflexivity].
  - intros c Hc.
    apply (attachParent_parentOf transformCast cast_parentHash setParentCast castField
             cast_parentCast) with (posts := ordered);
      first [assumption | reflexivity].
  - unfold fetchCasts, fetchPosts. rewrite Hpages. unfold finish, fetchAll.
    rewrite Hparents. reflexivity.
Qed.

Lemma parent_resolution_skips_failed_lookup_witness :
  size (own (buildParentMap transformCast sampleUpstream ["p2"; "p3"; "p1"]%string)) = 2%nat
  /\ length
       (attachedRefs cast_parentHash cast_parentCast
          (resolveParents transformCast cast_parentHash setParentCast castField sampleUpstream
             (map transformCast (samplePage 0 ++ samplePage 1 ++ samplePage 2))))
     = 2%nat.
Proof.
  pose proof
    (parent_resolution_skips_failed_lookup sampleUpstream (sampleParams newest true) 3
       (map transformCast (samplePage 0 ++ samplePage 1 ++ samplePage 2)) "p2"
       eq_refl) as H.
  assert (Hpages :
    paginate keepCast transformCast sampleUpstream (sampleParams newest true) 3 None []
    = Some (Ok (map transformCast (samplePage 0 ++ samplePage 1 ++ samplePage 2)))).
  { vm_compute. reflexivity. }
  specialize (H Hpages). cbv zeta in H.
  assert (Hrefs :
    parentRefs cast_parentHash
      (map transformCast (samplePage 0 ++ samplePage 1 ++ samplePage 2))
    = ["p2"; "p3"; "p1"]%string).
  { vm_compute. reflexivity. }
  cbn [sortOrder sampleParams] in H. rewrite Hrefs in H.
  destruct H as (Hsize & _ & Hattached & _).
  - repeat constructor.
  - apply list_elem_of_here.
  - intros raw Hraw. discriminate Hraw.
  - intros ref _ Hne. exists (sampleParent ref). cbn [lookupParent sampleUpstream].
    destruct (String.eqb_spec ref "p2") as [->|_]; [destruct (Hne eq_refl)|reflexivity].
  - split; assumption.
Defined.

End FeedFacts.

(** ** Git filter and content fetch *)
Module GitFacts.
Import JSNumber JSString Git.
Import Feed(result, Ok, Thrown).

Section PicomatchFacts.
Variable isMatch : string -> string -> bool.

Lemma existsb_elem_of (f : string -> bool) (l : list string) :
  existsb f l = true <-> exists p, p ∈ l /\ f p = true.
Proof.
  rewrite existsb_exists. split; intros (p & Hp & Hf); exists p; split; try assumption;
    apply list_elem_of_In; assumption.
Qed.

Lemma existsb_false_elem_of (f : string -> bool) (l : list string) :
  existsb f l = false <-> forall p, p ∈ l -> f p = false.
Proof.
  split.
  - intros H p Hp. destruct (f p) eqn:E; [|reflexivity].
    assert (Ht : existsb f l = true) by (apply existsb_elem_of; exists p; split; assumption).
    congruence.
  - intros H. destruct (existsb f l) eqn:E; [|reflexivity].
    apply existsb_elem_of in E as (p & Hp & Hf). rewrite (H p Hp) in Hf. discriminate Hf.
Qed.

(** [matchesPatterns] as a formula: some include pattern matches, if there
    is any, and no exclude pattern does. *)
Lemma matchesPatterns_iff filePath includePatterns excludePatterns :
  matchesPatterns isMatch filePath includePatterns excludePatterns = true
  <-> (hasPatterns includePatterns = true ->
       exists p, p ∈ default [] includePatterns /\ isMatch filePath p = true)
      /\ (forall p, p ∈ default [] excludePatterns -> isMatch filePath p = false).
Proof.
  unfold matchesPatterns.
  assert (Hexc :
    match excludePatterns with
    | Some (p :: ps) =>
        if existsb (fun pattern => isMatch filePath pattern) (p :: ps) then false else true
    | _ => true
    end = true
    <-> forall p, p ∈ default [] excludePatterns -> isMatch filePath p = false).
  { destruct excludePatterns as [[|e es]|]; simpl default.
    - split; [intros _ p Hp; inversion Hp|reflexivity].
    - destruct (existsb _ (e :: es)) eqn:E.
      + split; [discriminate|]. intros H.
        pose proof (proj2 (existsb_false_elem_of
                             (fun pattern => isMatch filePath pattern) (e :: es)) H) as H'.
        congruence.
      + split; [|reflexivity]. intros _.
        exact (proj1 (existsb_false_elem_of
                        (fun pattern => isMatch filePath pattern) (e :: es)) E).
    - split; [intros _ p Hp; inversion Hp|reflexivity]. }
  destruct includePatterns as [[|inc incs]|]; simpl default; cbn [hasPatterns negb].
  - rewrite Hexc. split; [intros H; split; [discriminate|exact H]|tauto].
  - destruct (existsb _ (inc :: incs)) eqn:E; cbn [negb].
    + rewrite Hexc.
      pose proof (proj1 (existsb_elem_of
                           (fun pattern => isMatch filePath pattern) (inc :: incs)) E) as E'.
      tauto.
    + split; [discriminate|]. intros [H _]. specialize (H eq_refl).
      pose proof (proj2 (existsb_elem_of
                           (fun pattern => isMatch filePath pattern) (inc :: incs)) H) as H'.
      congruence.
  - rewrite Hexc. split; [intros H; split; [discriminate|exact H]|tauto].
Qed.

End PicomatchFacts.

(** C7.  Whatever glob matcher stands for [picomatch.isMatch]: without
    include and exclude patterns every path passes; a path passes exactly
    when it matches at least one include pattern (if there is any) and no
    exclude pattern; and, as the matcher accepts ["src/a.ts"] for
    ["**/*.ts"], that path is excluded under the include list [["src/**"]]
    and the exclude list [["**/*.ts"]]. *)
Theorem matchesPatterns_filter (isMatch : string -> string -> bool) :
  isMatch "src/a.ts" "**/*.ts" = true ->
  (forall filePath includePatterns excludePatterns,
      hasPatterns includePatterns = false -> hasPatterns excludePatterns = false ->
      matchesPatterns isMatch filePath includePatterns excludePatterns = true)
  /\ (forall filePath includePatterns excludePatterns,
        matchesPatterns isMatch filePath includePatterns excludePatterns = true
        <-> (hasPatterns includePatterns = true ->
             exists p, p ∈ default [] includePatterns /\ isMatch filePath p = true)
            /\ (forall p, p ∈ default [] excludePatterns -> isMatch filePath p = false))
  /\ matchesPatterns isMatch "src/a.ts" (Some ["src/**"%string]) (Some ["**/*.ts"%string])
     = false.
Proof.
  intros Hts. split; [|split].
  - intros filePath [[|inc incs]|] [[|e es]|]; try discriminate; reflexivity.
  - apply matchesPatterns_iff.
  - unfold matchesPatterns. simpl existsb. rewrite Hts.
    destruct (isMatch "src/a.ts" "src/**"); reflexivity.
Qed.

Lemma matchesPatterns_filter_witness :
  matchesPatterns globMatch "src/a.ts" None None = true
  /\ matchesPatterns globMatch "src/a.ts" (Some ["src/**"%string]) None = true
  /\ matchesPatterns globMatch "src/a.ts" (Some ["src/**"%string]) (Some ["**/*.ts"%string])
     = false.
Proof.
  destruct (matchesPatterns_filter globMatch eq_refl) as (Hnone & _ & Hexcluded).
  split; [apply Hnone; reflexivity|]. split; [reflexivity|exact Hexcluded].
Defined.

(** *** The content fetch *)

Section ContentFacts.
Variable isMatch : string -> string -> bool.

Lemma filesToFetch_spec params entries f :
  f ∈ filesToFetch params entries ->
  f ∈ entries
  /\ isFile f = true
  /\ (inject_Z (default 0%Z (size f)) <= maxSizeOf params)%Q.
Proof.
  unfold filesToFetch. intros H.
  apply (subseteq_take 50) in H.
  apply list_elem_of_In, filter_In in H as [H _].
  apply filter_In in H as [H Hcond]. apply andb_true_iff in Hcond as [Hf Hs].
  split; [apply list_elem_of_In, H|]. split; [exact Hf|]. apply Qle_bool_iff, Hs.
Qed.

Lemma fetchContents_spec gh branchName toFetch f :
  f ∈ fetchContents gh branchName toFetch ->
  exists t text, t ∈ toFetch /\ f = withContent t text.
Proof.
  unfold fetchContents. rewrite list_elem_of_omap. intros (t & Ht & Hf).
  destruct (getContent gh (path t) branchName) as [r|]; [|discriminate Hf].
  destruct (ok r); [|discriminate Hf]. injection Hf as <-.
  exists t, (body r). split; [exact Ht|reflexivity].
Qed.

Lemma fetchContents_length gh branchName toFetch :
  (length (fetchContents gh branchName toFetch) <= length toFetch)%nat.
Proof.
  unfold fetchContents. induction toFetch as [|t ts IH]; [reflexivity|].
  cbn [omap list_omap length].
  destruct (getContent gh (path t) branchName) as [r|]; [destruct (ok r)|];
    cbn [length]; lia.
Qed.

Lemma filesToFetch_length params entries :
  (length (filesToFetch params entries) <= 50)%nat.
Proof. unfold filesToFetch. rewrite length_take. lia. Qed.

End ContentFacts.

(** C9, as stated, fails for a caller-specified ceiling of 0 bytes:
    [params.maxFileSize || 100000] reads it as the default, so a file of 5
    bytes is fetched. *)
Lemma zero_ceiling_is_the_default :
  exists response f,
    fetchGitHubRepo globMatch sampleGitHub "owner" "repo" (sampleGitParams (Some 0%Q))
      = Ok response
    /\ f ∈ files response
    /\ maxFileSize (sampleGitParams (Some 0%Q)) = Some 0%Q
    /\ size f = Some 5%Z
    /\ (0 < inject_Z 5)%Q.
Proof.
  eexists. eexists. split; [vm_compute; reflexivity|].
  split; [apply list_elem_of_here|]. repeat split.
Qed.

(** C9 (amended).  In every response of [fetchGitHubRepo], every entry of
    the file-contents list is an entry of the pattern-filtered tree (with
    its body added), its tree-reported size is at most the effective
    ceiling [params.maxFileSize || 100000] (the caller's ceiling when it is
    a non-zero number, 100000 otherwise), and at most 50 entries carry a
    body. *)
Theorem file_contents_bounded (isMatch : string -> string -> bool) (gh : GitHub)
    (owner repoName : string) (params : GitQueryParams) (response : GitResponse) :
  fetchGitHubRepo isMatch gh owner repoName params = Ok response ->
  (forall f, f ∈ files response ->
     exists entries t text,
       (fetchTree isMatch gh params (meta_branch (meta response))).1.1 = Some entries
       /\ t ∈ entries
       /\ f = withContent t text
       /\ (forall bytes, size f = Some bytes -> (inject_Z bytes <= maxSizeOf params)%Q))
  /\ (length (files response) <= 50)%nat
  /\ (maxFileSize params = None -> maxSizeOf params = 100000%Q)
  /\ (forall m, maxFileSize params = Some m -> ~ (m == 0)%Q -> maxSizeOf params = m).
Proof.
  intros Hrun. unfold fetchGitHubRepo in Hrun.
  destruct (getRepo gh) as [repoResponse|]; [|discriminate Hrun].
  destruct (negb (ok repoResponse)).
  { destruct (status repoResponse =? 404)%Z; discriminate Hrun. }
  set (branchName := match Feed.truthyString (branch params) with
                     | Some b => b
                     | None => default_branch (body repoResponse)
                     end) in *.
  destruct (fetchTree isMatch gh params branchName) as [[treeOpt sha] total] eqn:Htree.
  injection Hrun as <-. cbn [files meta meta_branch]. rewrite Htree. cbn [fst].
  split; [|split; [|split]].
  - intros f Hf. destruct treeOpt as [entries|]; [|inversion Hf].
    destruct (includeContent params); [|inversion Hf].
    apply fetchContents_spec in Hf as (t & text & Ht & ->).
    apply filesToFetch_spec in Ht as (Hin & _ & Hsize).
    exists entries, t, text. repeat split; try assumption.
    intros bytes Hbytes. cbn [withContent size] in Hbytes. rewrite Hbytes in Hsize.
    exact Hsize.
  - destruct treeOpt as [entries|]; [|simpl; lia].
    destruct (includeContent params); [|simpl; lia].
    etransitivity; [apply fetchContents_length|apply filesToFetch_length].
  - intros Hnone. unfold maxSizeOf. rewrite Hnone. reflexivity.
  - intros m Hm Hnz. unfold maxSizeOf. rewrite Hm. apply JSNumberFacts.orDefault_nonzero, Hnz.
Qed.

Lemma file_contents_bounded_witness :
  exists response,
    fetchGitHubRepo globMatch sampleGitHub "owner" "repo" (sampleGitParams (Some 1000%Q))
      = Ok response
    /\ (length (files response) <= 50)%nat
    /\ maxSizeOf (sampleGitParams (Some 1000%Q)) = 1000%Q.
Proof.
  eexists. split; [vm_compute; reflexivity|].
  match goal with
  | |- (length (files ?response) <= 50)%nat /\ _ =>
      destruct (file_contents_bounded globMatch sampleGitHub "owner" "repo"
                  (sampleGitParams (Some 1000%Q)) response eq_refl)
        as (_ & Hlen & _ & Hmax)
  end.
  split; [exact Hlen|]. apply Hmax; [reflexivity|discriminate].
Defined.

End GitFacts.

(** ** Tree renderer *)
Module TreeFacts.
Import JSNumber JSString Git Tree.

Section SortFacts.
Context {A : Type}.
Variable localeCompare : string -> string -> Z.
Variable isDir : A -> bool.

(** What is asked of the collation: two names compare one way or the
    other, and the order is transitive. *)
Hypothesis localeCompare_total :
  forall a b, (0 < localeCompare a b)%Z -> (localeCompare b a <= 0)%Z.
Hypothesis localeCompare_trans :
  forall a b c,
    (localeCompare a b <= 0)%Z -> (localeCompare b c <= 0)%Z -> (localeCompare a c <= 0)%Z.

Local Abbreviation before := (before localeCompare isDir).

Lemma before_total x y : ~ before x y -> before y x.
Proof.
  unfold before, compareEntries. intros H.
  destruct (isDir x.2), (isDir y.2); simpl in *; try lia; apply localeCompare_total; lia.
Qed.

Lemma before_trans x y z : before x y -> before y z -> before x z.
Proof.
  unfold before, compareEntries.
  destruct (isDir x.2), (isDir y.2), (isDir z.2); simpl; try lia;
    apply localeCompare_trans.
Qed.

(** Directories come first, and names rise within a kind. *)
Lemma before_spec x y :
  before x y ->
  (isDir y.2 = true -> isDir x.2 = true)
  /\ (isDir x.2 = isDir y.2 -> (localeCompare x.1 y.1 <= 0)%Z).
Proof.
  unfold before, compareEntries.
  destruct (isDir x.2), (isDir y.2); simpl; intros H; split; try tauto; try lia;
    discriminate.
Qed.

Lemma insertSorted_perm x sorted :
  insertSorted localeCompare isDir x sorted ≡ₚ x :: sorted.
Proof.
  induction sorted as [|y sorted IH]; simpl; [reflexivity|].
  destruct (_ <=? 0)%Z; [reflexivity|]. rewrite IH. apply perm_swap.
Qed.

Lemma sortEntries_perm entries : sortEntries localeCompare isDir entries ≡ₚ entries.
Proof.
  induction entries as [|x entries IH]; simpl; [reflexivity|].
  rewrite insertSorted_perm, IH. reflexivity.
Qed.

Lemma insertSorted_sorted x sorted :
  StronglySorted before sorted ->
  StronglySorted before (insertSorted localeCompare isDir x sorted).
Proof.
  induction 1 as [|y sorted Hs IH Hy]; simpl; [repeat constructor|].
  destruct (Z.leb_spec (compareEntries localeCompare isDir x y) 0) as [Hle|Hgt].
  - constructor; [constructor; assumption|].
    constructor; [exact Hle|].
    eapply Forall_impl; [exact Hy|]. intros z Hz. eapply before_trans; eassumption.
  - constructor; [exact IH|].
    rewrite insertSorted_perm. constructor; [|exact Hy].
    apply before_total. unfold before. lia.
Qed.

Lemma sortEntries_sorted entries :
  StronglySorted before (sortEntries localeCompare isDir entries).
Proof.
  induction entries as [|x entries IH]; simpl; [constructor|].
  apply insertSorted_sorted, IH.
Qed.

Lemma StronglySorted_lookup_lt (l : list (string * A)) i j x y :
  StronglySorted before l -> (i < j)%nat ->
  l !! i = Some x -> l !! j = Some y -> before x y.
Proof.
  intros Hs. revert i j. induction Hs as [|z l Hs IH Hz]; intros i j Hij Hi Hj.
  - discriminate Hi.
  - destruct j as [|j]; [lia|]. destruct i as [|i].
    + injection Hi as ->. rewrite Forall_forall in Hz. apply Hz.
      apply list_elem_of_lookup. exists j. exact Hj.
    + apply (IH i j); [lia|exact Hi|exact Hj].
Qed.

(** The commutation of the sort with a relabelling of the values that
    keeps the directory flag. *)
Context {B : Type}.
Variable isDir' : B -> bool.
Variable relabel : A -> B.
Hypothesis relabel_isDir : forall v, isDir' (relabel v) = isDir v.

Local Abbreviation relabelEntry := (relabelEntry relabel).

Lemma compareEntries_relabel x y :
  compareEntries localeCompare isDir' (relabelEntry x) (relabelEntry y)
  = compareEntries localeCompare isDir x y.
Proof. unfold compareEntries, relabelEntry. simpl. rewrite !relabel_isDir. reflexivity. Qed.

Lemma insertSorted_relabel x sorted :
  insertSorted localeCompare isDir' (relabelEntry x) (map relabelEntry sorted)
  = map relabelEntry (insertSorted localeCompare isDir x sorted).
Proof.
  induction sorted as [|y sorted IH]; simpl; [reflexivity|].
  rewrite compareEntries_relabel. destruct (_ <=? 0)%Z; simpl; [reflexivity|].
  rewrite IH. reflexivity.
Qed.

Lemma sortEntries_relabel entries :
  sortEntries localeCompare isDir' (map relabelEntry entries)
  = map relabelEntry (sortEntries localeCompare isDir entries).
Proof.
  induction entries as [|x entries IH]; simpl; [reflexivity|].
  rewrite IH. apply insertSorted_relabel.
Qed.

Lemma filter_relabel (f : string -> bool) entries :
  List.filter (fun e : string * B => f e.1) (map relabelEntry entries)
  = map relabelEntry (List.filter (fun e : string * A => f e.1) entries).
Proof.
  induction entries as [|x entries IH]; simpl; [reflexivity|].
  destruct (f x.1); simpl; rewrite IH; reflexivity.
Qed.

Lemma insertByIndex_relabel i x (sorted : list (Z * (string * A))) :
  insertByIndex i (relabelEntry x) (map (fun p => (p.1, relabelEntry p.2)) sorted)
  = map (fun p => (p.1, relabelEntry p.2)) (insertByIndex i x sorted).
Proof.
  induction sorted as [|[j y] sorted IH]; simpl; [reflexivity|].
  destruct (i <=? j)%Z; simpl; [reflexivity|]. rewrite IH. reflexivity.
Qed.

Lemma indexKeyed_relabel entries :
  indexKeyed (map relabelEntry entries)
  = map (fun p => (p.1, relabelEntry p.2)) (indexKeyed entries).
Proof.
  induction entries as [|[k v] entries IH]; simpl; [reflexivity|].
  destruct (arrayIndex k); [|exact IH].
  rewrite IH. apply (insertByIndex_relabel _ (k, v)).
Qed.

Lemma objectEntries_relabel entries :
  objectEntries (map relabelEntry entries) = map relabelEntry (objectEntries entries).
Proof.
  unfold objectEntries. rewrite map_app, indexKeyed_relabel, !map_map. f_equal.
  apply (filter_relabel (fun k => negb (isArrayIndex k))).
Qed.

Lemma sortedEntries_relabel entries :
  sortedEntries localeCompare isDir' (map relabelEntry entries)
  = map relabelEntry (sortedEntries localeCompare isDir entries).
Proof.
  unfold sortedEntries, visible.
  rewrite objectEntries_relabel, (filter_relabel (fun k => negb (startsWith "_" k))).
  apply sortEntries_relabel.
Qed.

End SortFacts.

Section RenderFacts.
Variable localeCompare : string -> string -> Z.

(** [renderNode] walks the entries of a level in the order of [levelEntries]. *)
Lemma renderNode_level node prefix :
  renderNode localeCompare node prefix
  = emitEntries prefix (map (renderedChild localeCompare) (levelEntries localeCompare node)).
Proof.
  destruct node as [f s children]. unfold levelEntries. cbn [node_children].
  rewrite <- (sortedEntries_relabel localeCompare nodeIsDir r_isDir
                (fun child => {| r_isDir := nodeIsDir child; r_size := sizeText child;
                                 r_subtree := renderNode localeCompare child |}))
    by reflexivity.
  cbn [renderNode node_children]. f_equal. f_equal.
  induction children as [|[k child] children IH]; [reflexivity|].
  cbn [map]. rewrite <- IH. reflexivity.
Qed.

End RenderFacts.

(** *** Comparison by code units is a total order *)

Lemma ascii_compare_spec (a b : ascii) :
  CompareSpec (a = b) (N_of_ascii a < N_of_ascii b)%N (N_of_ascii b < N_of_ascii a)%N
    (Ascii.compare a b).
Proof.
  unfold Ascii.compare. destruct (N.compare_spec (N_of_ascii a) (N_of_ascii b)) as [E|L|G];
    constructor; try assumption.
  rewrite <- (ascii_N_embedding a), <- (ascii_N_embedding b), E. reflexivity.
Qed.

Lemma string_compare_trans (a : string) : forall b c,
  String.compare a b <> Gt -> String.compare b c <> Gt -> String.compare a c <> Gt.
Proof.
  induction a as [|x a IH]; intros [|y b] [|z c]; simpl; try congruence.
  destruct (ascii_compare_spec x y) as [Exy|Lxy|Gxy];
  destruct (ascii_compare_spec y z) as [Eyz|Lyz|Gyz];
  destruct (ascii_compare_spec x z) as [Exz|Lxz|Gxz];
    try congruence; try (subst; lia); try apply IH.
Qed.

Lemma codeUnitCompare_total a b :
  (0 < codeUnitCompare a b)%Z -> (codeUnitCompare b a <= 0)%Z.
Proof.
  unfold codeUnitCompare. rewrite (String.compare_antisym b a).
  destruct (String.compare a b); simpl; lia.
Qed.

Lemma codeUnitCompare_trans a b c :
  (codeUnitCompare a b <= 0)%Z -> (codeUnitCompare b c <= 0)%Z ->
  (codeUnitCompare a c <= 0)%Z.
Proof.
  unfold codeUnitCompare. intros Hab Hbc.
  assert (H : String.compare a c <> Gt).
  { apply (string_compare_trans a b c).
    - destruct (String.compare a b); [discriminate|discriminate|lia].
    - destruct (String.compare b c); [discriminate|discriminate|lia]. }
  destruct (String.compare a c); [lia|lia|congruence].
Qed.

Lemma append_empty_r (s : string) : s +:+ EmptyString = s.
Proof.
  induction s as [|c s IH]; [reflexivity|].
  change (String c (s +:+ EmptyString) = String c s). rewrite IH. reflexivity.
Qed.

Lemma codeUnitCompare_antisym a b :
  (codeUnitCompare a b <= 0)%Z -> (codeUnitCompare b a <= 0)%Z -> a = b.
Proof.
  unfold codeUnitCompare. rewrite (String.compare_antisym b a).
  destruct (String.compare a b) eqn:H; cbn; try lia.
  intros _ _. apply String.compare_eq_iff, H.
Qed.

(** *** The finite map of the built object *)

Lemma abstract_unfold n :
  abstract n = mkMapNode (node_isFile n) (node_size n) (abstractProps (node_children n)).
Proof.
  destruct n as [f s props]. reflexivity.
Qed.

Lemma abstractProps_getProp props key :
  abstractProps props !! key = abstract <$> getProp props key.
Proof.
  induction props as [|[k child] props IH]; cbn [abstractProps getProp].
  - apply lookup_empty.
  - destruct (String.eqb_spec k key) as [->|Hne].
    + rewrite lookup_insert_eq. reflexivity.
    + rewrite lookup_insert_ne by exact Hne. exact IH.
Qed.

Lemma abstractProps_setProp props key value :
  abstractProps (setProp props key value) = <[key := abstract value]> (abstractProps props).
Proof.
  induction props as [|[k child] props IH]; cbn [abstractProps setProp]; [reflexivity|].
  destruct (String.eqb_spec k key) as [->|Hne]; cbn [abstractProps].
  - rewrite insert_insert_eq. reflexivity.
  - rewrite IH. apply insert_insert_ne. congruence.
Qed.

(** [mapInsertParts] is [insertParts] seen on the finite map. *)
Lemma abstract_insertParts parts item current :
  abstract (insertParts parts item current) = mapInsertParts parts item (abstract current).
Proof.
  revert current. induction parts as [|part rest IH]; intros current; [reflexivity|].
  cbn [insertParts mapInsertParts]. destruct (String.eqb part EmptyString); [apply IH|].
  rewrite (abstract_unfold current). cbn [map_isFile map_size map_children].
  destruct rest as [|part' rest'].
  - rewrite abstract_unfold. unfold withChildren. cbn [node_isFile node_size node_children].
    rewrite abstractProps_setProp. reflexivity.
  - rewrite abstract_unfold. unfold withChildren. cbn [node_isFile node_size node_children].
    rewrite abstractProps_setProp, IH, abstractProps_getProp.
    destruct (getProp (node_children current) part); reflexivity.
Qed.

(** Insertions along two paths neither of which runs through the other
    commute. *)
Lemma mapInsertParts_comm px x : forall py y current,
  isPrefix (segments px) (segments py) = false ->
  isPrefix (segments py) (segments px) = false ->
  mapInsertParts px x (mapInsertParts py y current)
  = mapInsertParts py y (mapInsertParts px x current).
Proof.
  induction px as [|p rx IHx]; intros py y current Hxy Hyx.
  { cbn in Hxy. discriminate Hxy. }
  cbn [segments List.filter] in Hxy, Hyx. cbn [mapInsertParts].
  destruct (String.eqb_spec p EmptyString) as [->|Hp]; cbn [negb] in Hxy, Hyx.
  { apply IHx; assumption. }
  revert current. induction py as [|q ry IHy]; intros current.
  { cbn in Hyx. discriminate Hyx. }
  cbn [segments List.filter] in Hxy, Hyx. cbn [mapInsertParts].
  destruct (String.eqb_spec q EmptyString) as [->|Hq]; cbn [negb] in Hxy, Hyx.
  { apply IHy; assumption. }
  cbn [isPrefix] in Hxy, Hyx. cbn [map_isFile map_size map_children]. f_equal.
  destruct (String.eqb_spec p q) as [<-|Hpq].
  - rewrite String.eqb_refl in Hyx. cbn [andb] in Hxy, Hyx.
    rewrite !lookup_insert_eq, !insert_insert_eq. f_equal.
    destruct rx as [|p' rx']; [discriminate Hxy|].
    destruct ry as [|q' ry']; [discriminate Hyx|].
    cbn [default]. apply IHx; assumption.
  - rewrite !lookup_insert_ne by congruence. apply insert_insert_ne. congruence.
Qed.

Lemma abstract_buildFrom tree : forall root,
  abstract (foldl insertItem root tree) = foldl mapInsertItem (abstract root) tree.
Proof.
  induction tree as [|item tree IH]; intros root; [reflexivity|].
  cbn [foldl]. rewrite IH. unfold insertItem, mapInsertItem. rewrite abstract_insertParts.
  reflexivity.
Qed.

Lemma nested_sym x y : nested x y = nested y x.
Proof. unfold nested. apply orb_comm. Qed.

Lemma mapInsertItem_comm root x y :
  nested x y = false ->
  mapInsertItem (mapInsertItem root x) y = mapInsertItem (mapInsertItem root y) x.
Proof.
  unfold nested, mapInsertItem, pathSegments. intros H.
  apply orb_false_elim in H as [Hxy Hyx]. apply mapInsertParts_comm; assumption.
Qed.

Lemma parentsFirst_cons x tree :
  parentsFirst (x :: tree) = true
  <-> (forall y, y ∈ tree -> isPrefix (pathSegments y) (pathSegments x) = false)
      /\ parentsFirst tree = true.
Proof.
  cbn [parentsFirst]. rewrite andb_true_iff, forallb_forall.
  split; intros [Hx Ht]; (split; [|exact Ht]); intros y Hy.
  - apply negb_true_iff, Hx, list_elem_of_In, Hy.
  - apply negb_true_iff, Hx, list_elem_of_In, Hy.
Qed.

(** An entry taken out of such a listing: it begins none of the entries
    before it, and the rest is such a listing. *)
Lemma parentsFirst_without l1 x l2 :
  parentsFirst (l1 ++ x :: l2) = true ->
  (forall y, y ∈ l1 -> isPrefix (pathSegments x) (pathSegments y) = false)
  /\ parentsFirst (l1 ++ l2) = true.
Proof.
  induction l1 as [|z l1 IH]; cbn [app].
  - rewrite parentsFirst_cons. intros [_ H]. split; [|exact H].
    intros y Hy. inversion Hy.
  - rewrite !parentsFirst_cons. intros [Hz H]. destruct (IH H) as [Hx H'].
    split; [|split; [|exact H']].
    + intros y Hy. apply elem_of_cons in Hy as [->|Hy]; [|auto].
      apply Hz. apply elem_of_app. right. left.
    + intros y Hy. apply Hz. apply elem_of_app in Hy as [Hy|Hy]; apply elem_of_app; [left|right].
      * exact Hy.
      * right. exact Hy.
Qed.

(** An insertion moves ahead of insertions along paths it does not run
    through. *)
Lemma foldl_mapInsertItem_front x l : forall root,
  (forall y, y ∈ l -> nested x y = false) ->
  foldl mapInsertItem (mapInsertItem root x) l = mapInsertItem (foldl mapInsertItem root l) x.
Proof.
  induction l as [|y l IH]; intros root Hl; [reflexivity|].
  cbn [foldl]. rewrite (mapInsertItem_comm root x y) by (apply Hl; left).
  apply IH. intros z Hz. apply Hl. right. exact Hz.
Qed.

(** So the finite map of the built object is the same for every order of
    the entries that lists each entry before the entries beneath it. *)
Lemma foldl_mapInsertItem_perm tree : forall tree' root,
  tree ≡ₚ tree' -> parentsFirst tree = true -> parentsFirst tree' = true ->
  foldl mapInsertItem root tree = foldl mapInsertItem root tree'.
Proof.
  induction tree as [|x l IH]; intros tree' root Hperm Hfirst Hfirst'.
  - apply Permutation_nil in Hperm. subst tree'. reflexivity.
  - assert (Hx : x ∈ tree') by (rewrite <- Hperm; left).
    apply list_elem_of_split in Hx as (l1 & l2 & ->).
    apply Permutation_cons_app_inv in Hperm.
    apply parentsFirst_cons in Hfirst as [Hbelow Hl].
    apply parentsFirst_without in Hfirst' as [Hbefore Hrest].
    rewrite foldl_app. cbn [foldl].
    rewrite <- foldl_mapInsertItem_front.
    + rewrite <- foldl_app. apply IH; assumption.
    + intros y Hy. unfold nested. rewrite (Hbefore y Hy). cbn [orb].
      apply Hbelow. rewrite Hperm. apply elem_of_app. left. exact Hy.
Qed.

(** *** Building keeps the property names of every object distinct *)

Lemma setProp_keys props key value :
  map fst (setProp props key value)
  = match getProp props key with
    | Some _ => map fst props
    | None => map fst props ++ [key]
    end.
Proof.
  induction props as [|[k v] props IH]; cbn [setProp getProp]; [reflexivity|].
  destruct (String.eqb_spec k key) as [->|Hne]; [reflexivity|].
  cbn [map fst]. rewrite IH. destruct (getProp props key); reflexivity.
Qed.

Lemma getProp_None props key : getProp props key = None -> key ∉ map fst props.
Proof.
  induction props as [|[k v] props IH]; cbn [getProp map fst]; intros H.
  - apply not_elem_of_nil.
  - destruct (String.eqb_spec k key) as [->|Hne]; [discriminate H|].
    apply not_elem_of_cons. split; [congruence|auto].
Qed.

Lemma getProp_elem_of props key value :
  getProp props key = Some value -> (key, value) ∈ props.
Proof.
  induction props as [|[k v] props IH]; cbn [getProp]; intros H; [discriminate H|].
  destruct (String.eqb_spec k key) as [->|Hne].
  - injection H as ->. left.
  - right. auto.
Qed.

Lemma setProp_Forall (P : string * Node -> Prop) props key value :
  Forall P props -> P (key, value) -> Forall P (setProp props key value).
Proof.
  intros Hprops Hvalue. induction Hprops as [|[k v] props Hkv Hprops IH]; cbn [setProp].
  - constructor; [exact Hvalue|constructor].
  - destruct (String.eqb_spec k key) as [->|Hne]; constructor; assumption.
Qed.

Lemma wellFormed_setProp f s props key value :
  wellFormed (mkNode f s props) -> wellFormed value ->
  wellFormed (mkNode f s (setProp props key value)).
Proof.
  intros Hnode Hvalue. inversion Hnode as [f' s' props' Hkeys Hchildren]; subst.
  constructor.
  - rewrite setProp_keys. destruct (getProp props key) eqn:Hget; [exact Hkeys|].
    apply NoDup_app. split; [exact Hkeys|]. split; [|apply NoDup_singleton].
    intros k Hk Hk'. apply list_elem_of_singleton in Hk' as ->.
    exact (getProp_None _ _ Hget Hk).
  - apply setProp_Forall; assumption.
Qed.

Lemma wellFormed_emptyObject : wellFormed emptyObject.
Proof. constructor; constructor. Qed.

Lemma wellFormed_insertParts parts item : forall current,
  wellFormed current -> wellFormed (insertParts parts item current).
Proof.
  induction parts as [|part rest IH]; intros current Hcurrent; [exact Hcurrent|].
  cbn [insertParts]. destruct (String.eqb part EmptyString); [auto|].
  destruct current as [f s props]. unfold withChildren. cbn [node_isFile node_size node_children].
  destruct rest as [|part' rest'].
  - apply wellFormed_setProp; [exact Hcurrent|]. constructor; constructor.
  - apply wellFormed_setProp; [exact Hcurrent|]. apply IH.
    destruct (getProp props part) as [child|] eqn:Hget; cbn [default].
    + inversion Hcurrent as [f' s' props' _ Hchildren]; subst.
      rewrite Forall_forall in Hchildren.
      exact (Hchildren _ (getProp_elem_of _ _ _ Hget)).
    + apply wellFormed_emptyObject.
Qed.

Lemma wellFormed_buildFrom tree : forall root,
  wellFormed root -> wellFormed (foldl insertItem root tree).
Proof.
  induction tree as [|item tree IH]; intros root Hroot; [exact Hroot|].
  cbn [foldl]. apply IH, wellFormed_insertParts, Hroot.
Qed.

(** *** The text depends on the finite map only *)

(** Induction on an object, the property assumed of its children. *)
Lemma Node_ind_children (P : Node -> Prop) :
  (forall f s props, Forall (fun e => P e.2) props -> P (mkNode f s props)) ->
  forall n, P n.
Proof.
  intros Hnode. fix IH 1. intros [f s props]. apply Hnode.
  induction props as [|[k child] props IHprops]; constructor; [apply IH|exact IHprops].
Qed.

Lemma abstractProps_list_to_map props :
  abstractProps props = list_to_map (map abstractEntry props).
Proof.
  induction props as [|[k child] props IH]; [reflexivity|].
  cbn [abstractProps map]. rewrite IH. reflexivity.
Qed.

Lemma filter_perm {A} (f : A -> bool) (l l' : list A) :
  l ≡ₚ l' -> List.filter f l ≡ₚ List.filter f l'.
Proof.
  induction 1 as [|x l l' _ IH|x y l|l l' l'' _ IH1 _ IH2]; cbn [List.filter].
  - reflexivity.
  - destruct (f x); [constructor|]; exact IH.
  - destruct (f x), (f y); try reflexivity. apply perm_swap.
  - etransitivity; eassumption.
Qed.

Lemma filter_split_perm {A} (f : A -> bool) (l : list A) :
  List.filter f l ++ List.filter (fun x => negb (f x)) l ≡ₚ l.
Proof.
  induction l as [|x l IH]; cbn [List.filter]; [reflexivity|].
  destruct (f x); cbn [negb app].
  - constructor. exact IH.
  - rewrite <- Permutation_middle. constructor. exact IH.
Qed.

Lemma insertByIndex_perm {A} i (e : string * A) sorted :
  map snd (insertByIndex i e sorted) ≡ₚ e :: map snd sorted.
Proof.
  induction sorted as [|[j e'] sorted IH]; cbn [insertByIndex map]; [reflexivity|].
  destruct (i <=? j)%Z; cbn [map snd]; [reflexivity|].
  rewrite IH. apply perm_swap.
Qed.

Lemma indexKeyed_perm {A} (props : list (string * A)) :
  map snd (indexKeyed props) ≡ₚ List.filter (fun e => isArrayIndex e.1) props.
Proof.
  induction props as [|[k v] props IH]; cbn [indexKeyed List.filter]; [reflexivity|].
  unfold isArrayIndex at 1. cbn [fst]. destruct (arrayIndex k); [|exact IH].
  rewrite insertByIndex_perm. constructor. exact IH.
Qed.

(** [Object.entries] lists every property once. *)
Lemma objectEntries_perm {A} (props : list (string * A)) : objectEntries props ≡ₚ props.
Proof.
  unfold objectEntries. rewrite indexKeyed_perm.
  apply (filter_split_perm (fun e => isArrayIndex e.1)).
Qed.

(** For a collation that is a total order in which distinct names never
    compare equal. *)
Section Canonical.
Variable localeCompare : string -> string -> Z.
Hypothesis localeCompare_total :
  forall a b, (0 < localeCompare a b)%Z -> (localeCompare b a <= 0)%Z.
Hypothesis localeCompare_trans :
  forall a b c,
    (localeCompare a b <= 0)%Z -> (localeCompare b c <= 0)%Z -> (localeCompare a c <= 0)%Z.
Hypothesis localeCompare_antisym :
  forall a b, (localeCompare a b <= 0)%Z -> (localeCompare b a <= 0)%Z -> a = b.

Lemma sortedEntries_perm {A} (isDir : A -> bool) (props : list (string * A)) :
  sortedEntries localeCompare isDir props ≡ₚ visible props.
Proof.
  unfold sortedEntries. rewrite sortEntries_perm. apply filter_perm, objectEntries_perm.
Qed.

Lemma before_same_name {A} (isDir : A -> bool) (x y : string * A) :
  before localeCompare isDir x y -> before localeCompare isDir y x -> x.1 = y.1.
Proof.
  unfold before, compareEntries.
  destruct (isDir x.2), (isDir y.2); cbn; try lia; apply localeCompare_antisym.
Qed.

Lemma NoDup_keys_same {A} (l : list (string * A)) x y :
  NoDup (map fst l) -> x ∈ l -> y ∈ l -> x.1 = y.1 -> x = y.
Proof.
  intros Hkeys Hx Hy Hxy. destruct x as [k v], y as [k' v']. cbn in Hxy. subst k'.
  pose proof (elem_of_list_to_map_1 (M := gmap string) _ _ _ Hkeys Hx) as H1.
  pose proof (elem_of_list_to_map_1 (M := gmap string) _ _ _ Hkeys Hy) as H2.
  congruence.
Qed.

(** The sorted entries of an object, children abstracted, depend on the
    finite map of its properties only. *)
Lemma sortedEntries_abstract props props' :
  NoDup (map fst props) -> NoDup (map fst props') ->
  abstractProps props = abstractProps props' ->
  map abstractEntry (sortedEntries localeCompare nodeIsDir props)
  = map abstractEntry (sortedEntries localeCompare nodeIsDir props').
Proof.
  intros Hkeys Hkeys' Hsame.
  assert (Hrelabel : forall l,
    map abstractEntry (sortedEntries localeCompare nodeIsDir l)
    = sortedEntries localeCompare mapIsDir (map abstractEntry l)).
  { intros l. symmetry.
    apply (sortedEntries_relabel localeCompare nodeIsDir mapIsDir abstract).
    intros [f s children]. reflexivity. }
  rewrite !Hrelabel.
  assert (Hfst : forall l : list (string * Node), map fst (map abstractEntry l) = map fst l).
  { intros l. rewrite map_map. reflexivity. }
  assert (Hperm : map abstractEntry props ≡ₚ map abstractEntry props').
  { rewrite <- (map_to_list_to_map (M := gmap string) (map abstractEntry props))
      by (rewrite Hfst; exact Hkeys).
    rewrite <- (map_to_list_to_map (M := gmap string) (map abstractEntry props'))
      by (rewrite Hfst; exact Hkeys').
    rewrite <- !abstractProps_list_to_map, Hsame. reflexivity. }
  assert (Hsorted : sortedEntries localeCompare mapIsDir (map abstractEntry props)
                    ≡ₚ sortedEntries localeCompare mapIsDir (map abstractEntry props')).
  { rewrite !sortedEntries_perm. apply filter_perm, Hperm. }
  apply (StronglySorted_unique_strong (before localeCompare mapIsDir)).
  - intros x y Hx Hy Hxy Hyx.
    apply (NoDup_keys_same (map abstractEntry props)).
    + rewrite Hfst. exact Hkeys.
    + rewrite sortedEntries_perm in Hx. unfold visible in Hx.
      apply list_elem_of_In, filter_In in Hx as [Hx _]. apply list_elem_of_In, Hx.
    + rewrite <- Hsorted, sortedEntries_perm in Hy. unfold visible in Hy.
      apply list_elem_of_In, filter_In in Hy as [Hy _]. apply list_elem_of_In, Hy.
    + eapply before_same_name; eassumption.
  - apply sortEntries_sorted; assumption.
  - apply sortEntries_sorted; assumption.
  - exact Hsorted.
Qed.


Lemma abstract_nodeIsDir n n' : abstract n = abstract n' -> nodeIsDir n = nodeIsDir n'.
Proof.
  rewrite !abstract_unfold. intros H. injection H as Hf _ _. unfold nodeIsDir. rewrite Hf.
  reflexivity.
Qed.

Lemma abstract_sizeText n n' : abstract n = abstract n' -> sizeText n = sizeText n'.
Proof.
  rewrite !abstract_unfold. intros H. injection H as _ Hs _. unfold sizeText. rewrite Hs.
  reflexivity.
Qed.

Lemma emitEntries_abstract prefix : forall entries entries',
  map abstractEntry entries = map abstractEntry entries' ->
  Forall (fun e => forall node', wellFormed node' -> abstract e.2 = abstract node' ->
            forall prefix', renderNode localeCompare e.2 prefix'
                            = renderNode localeCompare node' prefix') entries ->
  Forall (fun e => wellFormed e.2) entries' ->
  emitEntries prefix (map (renderedChild localeCompare) entries)
  = emitEntries prefix (map (renderedChild localeCompare) entries').
Proof.
  induction entries as [|[k child] entries IH]; intros [|[k' child'] entries'] Hsame Hsub Hwf;
    try discriminate Hsame; [reflexivity|].
  cbn [map abstractEntry relabelEntry fst snd] in Hsame. injection Hsame as -> Hchild Hrest.
  inversion Hsub as [|e l Hhead Htail]; subst.
  inversion Hwf as [|e l Hwf_head Hwf_tail]; subst.
  cbn [map renderedChild emitEntries fst snd r_isDir r_size r_subtree].
  rewrite (IH entries' Hrest Htail Hwf_tail).
  rewrite (abstract_nodeIsDir _ _ Hchild), (abstract_sizeText _ _ Hchild).
  cbn [snd] in Hhead. rewrite (Hhead child' Hwf_head Hchild).
  destruct entries, entries'; try discriminate Hrest; reflexivity.
Qed.

Lemma sortedEntries_subset (props : list (string * Node)) e :
  e ∈ sortedEntries localeCompare nodeIsDir props -> e ∈ props.
Proof.
  rewrite sortedEntries_perm. unfold visible. intros He.
  apply list_elem_of_In, filter_In in He as [He _]. apply list_elem_of_In, He.
Qed.

(** Two well-formed objects with the same finite map render alike. *)
Lemma renderNode_abstract node : forall node',
  wellFormed node -> wellFormed node' -> abstract node = abstract node' ->
  forall prefix, renderNode localeCompare node prefix = renderNode localeCompare node' prefix.
Proof.
  induction node as [f s props IH] using Node_ind_children.
  intros [f' s' props'] Hwf Hwf' Hsame prefix.
  rewrite !renderNode_level. unfold levelEntries. cbn [node_children].
  inversion Hwf as [f0 s0 props0 Hkeys Hchildren]; subst.
  inversion Hwf' as [f0 s0 props0 Hkeys' Hchildren']; subst.
  rewrite !abstract_unfold in Hsame. cbn [node_isFile node_size node_children] in Hsame.
  injection Hsame as _ _ Hmap.
  pose proof (sortedEntries_abstract props props' Hkeys Hkeys' Hmap) as Hsorted.
  rewrite Forall_forall in IH. rewrite Forall_forall in Hchildren.
  rewrite Forall_forall in Hchildren'.
  apply emitEntries_abstract; [exact Hsorted| |].
  - apply Forall_forall. intros e He node' Hnode' Hsame prefix'.
    apply sortedEntries_subset in He. apply (IH e He); auto.
  - apply Forall_forall. intros e He. apply Hchildren', sortedEntries_subset, He.
Qed.

(** The text is the same for every order of the entries that lists each
    entry before the entries beneath it. *)
Lemma formatHierarchicalTree_perm tree tree' :
  tree ≡ₚ tree' -> parentsFirst tree = true -> parentsFirst tree' = true ->
  formatHierarchicalTree localeCompare tree = formatHierarchicalTree localeCompare tree'.
Proof.
  intros Hperm Hfirst Hfirst'. unfold formatHierarchicalTree, buildTree.
  apply renderNode_abstract.
  - apply wellFormed_buildFrom, wellFormed_emptyObject.
  - apply wellFormed_buildFrom, wellFormed_emptyObject.
  - rewrite !abstract_buildFrom. apply foldl_mapInsertItem_perm; assumption.
Qed.

End Canonical.




End TreeFacts.

(** ** The ephemeral cache and the resolution of usernames *)
Module CacheFacts.
Import JSNumber JSString Cache Handlers Users.
Import Feed(result, Ok, Thrown).

(** X1.  A value stored at time [t] for [ttl] milliseconds is read back
    unchanged up to and including time [t + ttl], and after that the read
    answers nothing and removes the entry; a read of any other key answers
    what it answered before the store, and the two operations commute. *)
Theorem getCached_setCache (key : string) (value : Q) (ttl t t' : Z) (k : string)
    (cache : gmap string Entry) :
  getCached k t' (setCache key value ttl t cache)
  = if String.eqb k key then
      if (t + ttl <? t')%Z then (None, delete key cache)
      else (Some value, setCache key value ttl t cache)
    else ((getCached k t' cache).1, setCache key value ttl t (getCached k t' cache).2).
Proof.
  unfold getCached, setCache. destruct (String.eqb_spec k key) as [->|Hne].
  - rewrite lookup_insert_eq. cbn [expiry data].
    destruct (t + ttl <? t')%Z; [|reflexivity].
    rewrite delete_insert_eq. reflexivity.
  - rewrite lookup_insert_ne by congruence.
    destruct (cache !! k) as [item|] eqn:E; cbn [fst snd].
    + destruct (expiry item <? t')%Z; cbn [fst snd]; [|reflexivity].
      rewrite delete_insert_ne by congruence. reflexivity.
    + rewrite delete_insert_ne by congruence. reflexivity.
Qed.

Lemma getCached_hit key t (cache : gmap string Entry) value e :
  cache !! key = Some {| data := value; expiry := e |} -> (t <= e)%Z ->
  getCached key t cache = (Some value, cache).
Proof.
  intros Hk Hle. unfold getCached. rewrite Hk. cbn [expiry data].
  destruct (e <? t)%Z eqn:E; [apply Z.ltb_lt in E; lia|reflexivity].
Qed.

(** X5.  When [resolveFid] answers a fid, the fid is not 0 and the cache
    holds it under the normalized name (the name lower-cased, a leading [@]
    removed); until that entry expires (5 minutes after a lookup) every
    call for a name with the same normalized form answers the same fid
    without asking the client and leaves the cache as it is.  Whatever the
    case mapping [toLowerCase] is. *)
Theorem resolveFid_stays_resolved (toLowerCase : string -> string) (neynar : Neynar) (t : Z)
    (username : string) (cache cache' : gmap string Entry) (fid : Q) :
  resolveFid toLowerCase neynar t username cache = (Ok fid, cache') ->
  truthy fid = true
  /\ exists e,
       cache' !! fidKey (stripAt (toLowerCase username)) = Some {| data := fid; expiry := e |}
       /\ (t <= e)%Z
       /\ (cache !! fidKey (stripAt (toLowerCase username)) = None -> e = (t + 300000)%Z)
       /\ forall (neynar' : Neynar) (t' : Z) (username' : string),
            stripAt (toLowerCase username') = stripAt (toLowerCase username) ->
            (t' <= e)%Z ->
            resolveFid toLowerCase neynar' t' username' cache' = (Ok fid, cache').
Proof.
  unfold resolveFid. set (key := fidKey (stripAt (toLowerCase username))).
  assert (Hagain : forall cache0 e, truthy fid = true ->
            cache0 !! key = Some {| data := fid; expiry := e |} ->
            forall (neynar' : Neynar) (t' : Z) (username' : string),
              stripAt (toLowerCase username') = stripAt (toLowerCase username) ->
              (t' <= e)%Z ->
              (let normalized := stripAt (toLowerCase username') in
               let '(cached, cache1) := getCached (fidKey normalized) t' cache0 in
               let viaLookup (cache2 : gmap string Entry) :=
                 match lookupUserByUsername neynar' normalized with
                 | Ok (Some fid0) =>
                     if truthy fid0
                     then (Ok fid0, setCache (fidKey normalized) fid0 300000 t' cache2)
                     else (Thrown ("User not found: " +:+ username'), cache2)
                 | Ok None => (Thrown ("User not found: " +:+ username'), cache2)
                 | Thrown msg => (Thrown msg, cache2)
                 end in
               match cached with
               | Some c => if truthy c then (Ok c, cache1) else viaLookup cache1
               | None => viaLookup cache1
               end) = (Ok fid, cache0)).
  { intros cache0 e Htruthy Hentry neynar' t' username' Hname Hle. cbv zeta.
    rewrite Hname. fold key. rewrite (getCached_hit key t' cache0 fid e Hentry Hle).
    rewrite Htruthy. reflexivity. }
  unfold getCached. destruct (cache !! key) as [item|] eqn:Hitem.
  - destruct (expiry item <? t)%Z eqn:Hexp.
    + (* expired: looked up afresh *)
      destruct (lookupUserByUsername neynar _) as [[f|]|]; try discriminate.
      destruct (truthy f) eqn:Hf; [|discriminate].
      intros H. injection H as <- <-. split; [exact Hf|].
      exists (t + 300000)%Z. unfold setCache. rewrite lookup_insert_eq.
      split; [reflexivity|]. split; [lia|]. split; [discriminate|].
      apply Hagain; [exact Hf|]. apply lookup_insert_eq.
    + destruct (truthy (data item)) eqn:Hd.
      * intros H. injection H as <- <-. split; [exact Hd|].
        exists (expiry item). destruct item as [d e]. cbn [data expiry] in *.
        split; [exact Hitem|]. apply Z.ltb_ge in Hexp. split; [exact Hexp|].
        split; [discriminate|]. apply Hagain; assumption.
      * destruct (lookupUserByUsername neynar _) as [[f|]|]; try discriminate.
        destruct (truthy f) eqn:Hf; [|discriminate].
        intros H. injection H as <- <-. split; [exact Hf|].
        exists (t + 300000)%Z. unfold setCache. rewrite lookup_insert_eq.
        split; [reflexivity|]. split; [lia|]. split; [discriminate|].
        apply Hagain; [exact Hf|]. apply lookup_insert_eq.
  - destruct (lookupUserByUsername neynar _) as [[f|]|]; try discriminate.
    destruct (truthy f) eqn:Hf; [|discriminate].
    intros H. injection H as <- <-. split; [exact Hf|].
    exists (t + 300000)%Z. unfold setCache. rewrite lookup_insert_eq.
    split; [reflexivity|]. split; [lia|]. split; [reflexivity|].
    apply Hagain; [exact Hf|]. apply lookup_insert_eq.
Qed.

Lemma resolveFid_stays_resolved_witness :
  resolveFid JSString.toLowerCase neynarStorageDown 100 "ALICE"
    (resolveFid JSString.toLowerCase neynarWith1200Casts 0 "@Alice" ∅).2
  = (Ok 3%Q, (resolveFid JSString.toLowerCase neynarWith1200Casts 0 "@Alice" ∅).2).
Proof.
  assert (Hrun : resolveFid JSString.toLowerCase neynarWith1200Casts 0 "@Alice" ∅
                 = (Ok 3%Q, (resolveFid JSString.toLowerCase neynarWith1200Casts 0 "@Alice" ∅).2))
    by (vm_compute; reflexivity).
  destruct (resolveFid_stays_resolved JSString.toLowerCase neynarWith1200Casts 0 "@Alice" ∅ _
              3%Q Hrun)
    as (_ & e & _ & _ & He & Hagain).
  apply (Hagain neynarStorageDown 100%Z "ALICE"%string); [reflexivity|].
  rewrite (He eq_refl). vm_compute. discriminate.
Defined.

End CacheFacts.

(** ** The adapters on any upstream *)
Module FeedRequestsFacts.
Import JSNumber JSObject Feed FeedFacts FeedRequests.

Lemma slice0_length {A} (l : list A) (q : Q) :
  (0 <= q)%Q -> length (slice0 l q) = kept q (length l).
Proof.
  intros Hq. unfold slice0, truncate, kept.
  assert (H : Qle_bool 0 q = true) by (apply Qle_bool_iff, Hq).
  rewrite H.
  assert (H0 : (0 <= Qfloor q)%Z).
  { change 0%Z with (Qfloor 0). apply Qfloor_resp_le, Hq. }
  destruct (Z.ltb_spec (Qfloor q) 0); [lia|]. apply length_take.
Qed.

Section Generic.
Context {Raw Post : Type}.
Variable keep : bool -> Raw -> bool.
Variable transform : Raw -> Post.
Variable parentRef : Post -> option string.
Variable setParent : Post -> Slot Post -> Post.
Variable ownField : Post -> string -> option bool.
Variable upstream : Upstream (Raw := Raw).

Local Abbreviation paginate := (paginate keep transform upstream).
Local Abbreviation fetchPosts :=
  (fetchPosts keep transform parentRef setParent ownField upstream).
Local Abbreviation finish := (finish transform parentRef setParent ownField upstream).
Local Abbreviation resolveParents :=
  (resolveParents transform parentRef setParent ownField upstream).

Lemma length_finish params units :
  length (finish params units)
  = if all params then length units
    else length (slice0 units (limitOf params)).
Proof.
  unfold Feed.finish, fetchAll.
  assert (H1 : forall l : list Post,
            length (if includeParents params then resolveParents l else l) = length l).
  { intros l. destruct (includeParents params); [|reflexivity].
    unfold Feed.resolveParents. apply length_map. }
  assert (H2 : length (match sortOrder params with Some oldest => rev units | _ => units end)
               = length units).
  { destruct (sortOrder params) as [[|]|]; rewrite ?length_rev; reflexivity. }
  destruct (all params).
  - rewrite H1. exact H2.
  - unfold slice0. destruct (_ <? 0)%Z; rewrite !length_take, H1, H2; reflexivity.
Qed.

(** The loop reads the request's reply policy, [all] and limit only. *)
Lemma paginate_ext params params' fuel : forall cursor0 gathered,
  includeReplies params = includeReplies params' ->
  all params = all params' ->
  (all params = false -> limit params = limit params') ->
  paginate params fuel cursor0 gathered = paginate params' fuel cursor0 gathered.
Proof.
  intros cursor0 gathered Hr Ha Hl. revert cursor0 gathered.
  induction fuel as [|fuel IH]; intros cursor0 gathered; [reflexivity|].
  cbn [Feed.paginate]. destruct (fetchPage upstream cursor0) as [res|msg]; [|reflexivity].
  rewrite <- Hr. destruct (truthyString (cursor res)) as [c|]; [|reflexivity].
  unfold fetchAll, limitOf. rewrite <- Ha.
  destruct (all params) eqn:E.
  - cbn [orb]. apply IH.
  - rewrite <- (Hl eq_refl). cbn [orb]. destruct (ltb _ _); [apply IH|reflexivity].
Qed.

Lemma paginate_Forall (P : Post -> Prop) params fuel : forall cursor0 gathered result,
  (forall raw, keep (includeReplies params) raw = true -> P (transform raw)) ->
  Forall P gathered ->
  paginate params fuel cursor0 gathered = Some (Ok result) ->
  Forall P result.
Proof.
  intros cursor0 gathered result Hkeep. revert cursor0 gathered result.
  induction fuel as [|fuel IH]; intros cursor0 gathered result Hg Hrun; [discriminate Hrun|].
  cbn [Feed.paginate] in Hrun.
  destruct (fetchPage upstream cursor0) as [res|msg]; [|discriminate Hrun].
  assert (Hnext : Forall P (gathered ++ map transform
                              (List.filter (keep (includeReplies params)) (items res)))).
  { apply Forall_app. split; [exact Hg|]. apply Forall_map, Forall_forall.
    intros raw Hraw. apply Hkeep. apply list_elem_of_In, filter_In in Hraw. tauto. }
  destruct (truthyString (cursor res)) as [c|].
  - destruct (_ || _).
    + eapply IH; eassumption.
    + injection Hrun as <-. exact Hnext.
  - injection Hrun as <-. exact Hnext.
Qed.

(** A throw of the loop is the throw of a page fetch. *)
Lemma paginate_Thrown params fuel : forall cursor0 gathered msg,
  paginate params fuel cursor0 gathered = Some (Thrown msg) ->
  exists c, fetchPage upstream c = Thrown msg.
Proof.
  induction fuel as [|fuel IH]; intros cursor0 gathered msg Hrun; [discriminate Hrun|].
  cbn [Feed.paginate] in Hrun.
  destruct (fetchPage upstream cursor0) as [res|msg'] eqn:E.
  - destruct (truthyString (cursor res)) as [c|]; [|discriminate Hrun].
    destruct (_ || _); [|discriminate Hrun]. eapply IH, Hrun.
  - injection Hrun as ->. exists cursor0. exact E.
Qed.

Lemma resolveParents_none posts :
  Forall (fun p => truthyString (parentRef p) = None) posts ->
  resolveParents posts = posts.
Proof.
  intros H. unfold Feed.resolveParents.
  generalize (buildParentMap transform upstream (parentRefs parentRef posts)).
  intros parentMap. induction H as [|p posts Hp _ IH]; [reflexivity|].
  cbn [map]. rewrite IH. unfold attachParent. rewrite Hp. reflexivity.
Qed.

Lemma paginate_upstream (upstream' : Upstream (Raw := Raw)) params fuel :
  (forall c, fetchPage upstream' c = fetchPage upstream c) ->
  forall cursor0 gathered,
    Feed.paginate keep transform upstream' params fuel cursor0 gathered
    = paginate params fuel cursor0 gathered.
Proof.
  intros Hsame. induction fuel as [|fuel IH]; intros cursor0 gathered; [reflexivity|].
  cbn [Feed.paginate]. rewrite Hsame.
  destruct (fetchPage upstream cursor0) as [res|msg]; [|reflexivity].
  destruct (truthyString (cursor res)) as [c|]; [|reflexivity].
  destruct (_ || _); [apply IH|reflexivity].
Qed.

Lemma fetchPosts_length params fuel posts :
  fetchPosts params fuel = Some (Ok posts) ->
  exists units,
    paginate params fuel None [] = Some (Ok units)
    /\ (all params = true -> length posts = length units)
    /\ (all params = false -> (0 <= limitOf params)%Q ->
        length posts = kept (limitOf params) (length units)).
Proof.
  unfold Feed.fetchPosts.
  destruct (paginate params fuel None []) as [[units|msg]|]; try discriminate.
  intros H. injection H as <-. exists units. split; [reflexivity|].
  rewrite length_finish. split; intros ->; [reflexivity|].
  intros Hl. apply slice0_length, Hl.
Qed.

Lemma fetchPosts_all_limit params l fuel :
  all params = true ->
  fetchPosts (withLimit l params) fuel = fetchPosts params fuel.
Proof.
  intros Hall. unfold Feed.fetchPosts.
  rewrite (paginate_ext (withLimit l params) params) by
    (cbn [withLimit includeReplies all limit]; first [reflexivity | congruence]).
  destruct (paginate params fuel None []) as [[units|msg]|]; try reflexivity.
  unfold Feed.finish, fetchAll. cbn [withLimit all sortOrder includeParents]. rewrite Hall.
  reflexivity.
Qed.

Lemma fetchPosts_Thrown params fuel msg :
  fetchPosts params fuel = Some (Thrown msg) ->
  (exists c, fetchPage upstream c = Thrown msg)
  /\ forall upstream' : Upstream (Raw := Raw),
       (forall c, fetchPage upstream' c = fetchPage upstream c) ->
       Feed.fetchPosts keep transform parentRef setParent ownField upstream' params fuel
       = Some (Thrown msg).
Proof.
  unfold Feed.fetchPosts.
  destruct (paginate params fuel None []) as [[units|msg']|] eqn:E; try discriminate.
  intros H. injection H as ->. split; [eapply paginate_Thrown, E|].
  intros upstream' Hsame. rewrite (paginate_upstream upstream' params fuel Hsame), E.
  reflexivity.
Qed.

Lemma resolveParents_spec posts :
  Forall (fun ref => inherited ref = false) (parentRefs parentRef posts) ->
  resolveParents posts
  = map (fun p =>
           match truthyString (parentRef p) with
           | Some ref =>
               match resolved transform upstream ref with
               | Some parent => setParent p (Stored parent)
               | None => p
               end
           | None => p
           end) posts.
Proof.
  intros Hplain. unfold Feed.resolveParents. apply map_ext_in. intros p Hp. unfold attachParent.
  destruct (truthyString (parentRef p)) as [ref|] eqn:E; [|reflexivity].
  assert (Hin : ref ∈ parentRefs parentRef posts).
  { unfold parentRefs. apply elem_of_unique, list_elem_of_omap.
    exists p. split; [apply list_elem_of_In, Hp|exact E]. }
  assert (Href : inherited ref = false).
  { rewrite Forall_forall in Hplain. apply Hplain, Hin. }
  rewrite (read_buildParentMap transform ownField upstream _ _ Hplain Href).
  rewrite bool_decide_eq_true_2 by exact Hin.
  destruct (resolved transform upstream ref); reflexivity.
Qed.

Lemma batchesOf_lengths {A} (size : nat) : forall fuel (xs : list A),
  (0 < size)%nat ->
  Forall (fun b => (1 <= length b <= size)%nat) (batchesOf fuel size xs).
Proof.
  induction fuel as [|fuel IH]; intros xs Hsize; [destruct xs; constructor|].
  destruct xs as [|x xs]; [constructor|].
  change (batchesOf (S fuel) size (x :: xs))
    with (take size (x :: xs) :: batchesOf fuel size (drop size (x :: xs))).
  constructor; [|apply IH, Hsize].
  rewrite length_take. cbn [length]. lia.
Qed.

Lemma parentRefs_spec posts :
  NoDup (parentRefs parentRef posts)
  /\ (forall ref, ref ∈ parentRefs parentRef posts
                  <-> exists p, p ∈ posts /\ truthyString (parentRef p) = Some ref)
  /\ concat (batches batchSize (parentRefs parentRef posts)) = parentRefs parentRef posts
  /\ Forall (fun b => (1 <= length b <= 25)%nat) (batches batchSize (parentRefs parentRef posts)).
Proof.
  split; [apply NoDup_unique|]. split; [|split].
  - intros ref. unfold parentRefs. rewrite elem_of_unique, list_elem_of_omap. reflexivity.
  - apply concat_batches. unfold batchSize. lia.
  - apply (batchesOf_lengths batchSize). unfold batchSize. lia.
Qed.

End Generic.

Lemma keepCast_no_parent raw :
  keepCast false raw = true -> truthyString (cast_parentHash (transformCast raw)) = None.
Proof.
  unfold keepCast, transformCast. cbn [orb cast_parentHash].
  destruct (truthyString (parent_hash raw)) as [h|] eqn:E; [|reflexivity].
  intros H. apply negb_true_iff, bool_decide_eq_false in H. destruct H. eexists. reflexivity.
Qed.

(** X8.  For Farcaster, [includeParents] does nothing unless
    [includeReplies] is set: without replies every fetched cast has an empty
    [parentHash], so no parent is looked up and the answer is the one
    without [includeParents]. *)
Theorem fetchCasts_parents_need_replies (upstream : Upstream (Raw := RawCast))
    (params : QueryParams) (fuel : nat) :
  includeReplies params = false ->
  fetchCasts upstream (withParents true params) fuel
  = fetchCasts upstream (withParents false params) fuel.
Proof.
  intros Hr. unfold fetchCasts, fetchPosts.
  rewrite (paginate_ext keepCast transformCast upstream
             (withParents true params) (withParents false params)) by reflexivity.
  destruct (paginate keepCast transformCast upstream (withParents false params) fuel None [])
    as [[units|msg]|] eqn:E; try reflexivity.
  do 2 f_equal. unfold finish, fetchAll. cbn [withParents includeParents sortOrder all].
  assert (Hnone : Forall (fun c => truthyString (cast_parentHash c) = None) units).
  { eapply (paginate_Forall keepCast transformCast upstream); [|constructor|exact E].
    intros raw. cbn [withParents includeReplies]. rewrite Hr. apply keepCast_no_parent. }
  rewrite resolveParents_none; [reflexivity|].
  destruct (sortOrder params) as [[|]|]; [exact Hnone|apply Forall_rev, Hnone|exact Hnone].
Qed.

Lemma fetchCasts_parents_need_replies_witness :
  fetchCasts sampleUpstream
    (withParents true (withLimit (Some 7%Q)
       {| limit := None; all := false; includeReplies := false; includeParents := false;
          includeReactions := false; sortOrder := None |})) 3
  = fetchCasts sampleUpstream
      (withParents false (withLimit (Some 7%Q)
         {| limit := None; all := false; includeReplies := false; includeParents := false;
            includeReactions := false; sortOrder := None |})) 3.
Proof. apply fetchCasts_parents_need_replies. reflexivity. Defined.

(** X6.  What [fetchCasts] and [fetchBskyPosts] answer has the length of
    what the loop gathered when [all] is set, and otherwise the smaller of
    that length and the whole part of the limit ([params.limit || 50]),
    for a limit that is not negative. *)
Theorem fetch_respects_limit :
  (forall (upstream : Upstream (Raw := RawCast)) params fuel posts,
      fetchCasts upstream params fuel = Some (Ok posts) ->
      exists units,
        paginate keepCast transformCast upstream params fuel None [] = Some (Ok units)
        /\ (all params = true -> length posts = length units)
        /\ (all params = false -> (0 <= limitOf params)%Q ->
            length posts = kept (limitOf params) (length units)))
  /\ (forall (upstream : Upstream (Raw := RawItem)) params fuel posts,
        fetchBskyPosts upstream params fuel = Some (Ok posts) ->
        exists units,
          paginate keepItem transformBskyPost upstream params fuel None [] = Some (Ok units)
          /\ (all params = true -> length posts = length units)
          /\ (all params = false -> (0 <= limitOf params)%Q ->
              length posts = kept (limitOf params) (length units))).
Proof. split; intros upstream params fuel posts; apply fetchPosts_length. Qed.

Lemma fetch_respects_limit_witness :
  exists posts units,
    fetchCasts sampleUpstream (sampleParams newest true) 3 = Some (Ok posts)
    /\ paginate keepCast transformCast sampleUpstream (sampleParams newest true) 3 None []
       = Some (Ok units)
    /\ length posts = kept (limitOf (sampleParams newest true)) (length units).
Proof.
  assert (Hrun : {posts | fetchCasts sampleUpstream (sampleParams newest true) 3
                          = Some (Ok posts)})
    by (eexists; vm_compute; reflexivity).
  destruct Hrun as [posts Hrun].
  destruct (proj1 fetch_respects_limit sampleUpstream (sampleParams newest true) 3%nat posts Hrun)
    as (units & Hunits & _ & Hlen).
  exists posts, units. split; [exact Hrun|]. split; [exact Hunits|].
  apply Hlen; [reflexivity|vm_compute; discriminate].
Defined.

(** X7.  With [all] set the limit has no effect: the same pages are fetched
    and the same units answered whatever the limit is. *)
Theorem fetch_all_ignores_limit :
  (forall (upstream : Upstream (Raw := RawCast)) params l fuel,
      all params = true ->
      fetchCasts upstream (withLimit l params) fuel = fetchCasts upstream params fuel)
  /\ (forall (upstream : Upstream (Raw := RawItem)) params l fuel,
        all params = true ->
        fetchBskyPosts upstream (withLimit l params) fuel
        = fetchBskyPosts upstream params fuel).
Proof. split; intros upstream params l fuel; apply fetchPosts_all_limit. Qed.

Lemma fetch_all_ignores_limit_witness :
  fetchCasts sampleUpstream (withLimit (Some 1%Q) allParams) 3
  = fetchCasts sampleUpstream allParams 3.
Proof. apply (proj1 fetch_all_ignores_limit). reflexivity. Defined.

(** X9.  [fetchCasts] and [fetchBskyPosts] throw only what a page fetch
    threw, and whether they throw does not depend on the parent lookups: a
    failed parent lookup never fails the request. *)
Theorem fetch_throws_page_errors :
  (forall (upstream : Upstream (Raw := RawCast)) params fuel msg,
      fetchCasts upstream params fuel = Some (Thrown msg) ->
      (exists c, fetchPage upstream c = Thrown msg)
      /\ forall upstream' : Upstream (Raw := RawCast),
           (forall c, fetchPage upstream' c = fetchPage upstream c) ->
           fetchCasts upstream' params fuel = Some (Thrown msg))
  /\ (forall (upstream : Upstream (Raw := RawItem)) params fuel msg,
        fetchBskyPosts upstream params fuel = Some (Thrown msg) ->
        (exists c, fetchPage upstream c = Thrown msg)
        /\ forall upstream' : Upstream (Raw := RawItem),
             (forall c, fetchPage upstream' c = fetchPage upstream c) ->
             fetchBskyPosts upstream' params fuel = Some (Thrown msg)).
Proof. split; intros upstream params fuel msg; apply fetchPosts_Thrown. Qed.

Lemma fetch_throws_page_errors_witness :
  fetchCasts brokenUpstream (sampleParams newest true) 3 = Some (Thrown "503")
  /\ exists c, fetchPage brokenUpstream c = Thrown "503".
Proof.
  assert (Hrun : fetchCasts brokenUpstream (sampleParams newest true) 3 = Some (Thrown "503"))
    by (vm_compute; reflexivity).
  split; [exact Hrun|].
  exact (proj1 (proj1 fetch_throws_page_errors brokenUpstream (sampleParams newest true)
                  3%nat "503"%string Hrun)).
Defined.


(** X11.  Parent resolution, whatever lookups fail, when no parent
    reference is the name of a member of [Object.prototype]: every unit
    whose reference is not empty and whose lookup answers a record gets that
    record, transformed, as its parent; every other unit is left as it is;
    the order and number of the units do not change. *)
Theorem parents_attached_as_resolved :
  (forall (upstream : Upstream (Raw := RawCast)) (casts : list FarcasterCast),
      Forall (fun ref => inherited ref = false) (parentRefs cast_parentHash casts) ->
      resolveParents transformCast cast_parentHash setParentCast castField upstream casts
      = map (fun c =>
               match truthyString (cast_parentHash c) with
               | Some ref =>
                   match resolved transformCast upstream ref with
                   | Some parent => setParentCast c (Stored parent)
                   | None => c
                   end
               | None => c
               end) casts)
  /\ (forall (upstream : Upstream (Raw := RawItem)) (posts : list BlueskyPost),
        Forall (fun ref => inherited ref = false) (parentRefs bsky_replyParent posts) ->
        resolveParents transformBskyPost bsky_replyParent setParentPost postField upstream posts
        = map (fun p =>
                 match truthyString (bsky_replyParent p) with
                 | Some ref =>
                     match resolved transformBskyPost upstream ref with
                     | Some parent => setParentPost p (Stored parent)
                     | None => p
                     end
                 | None => p
                 end) posts).
Proof. split; intros upstream posts; apply resolveParents_spec. Qed.

Lemma parents_attached_as_resolved_witness :
  cast_parentCast
  <$> resolveParents transformCast cast_parentHash setParentCast castField sampleUpstream
        (map transformCast [sampleCast 1; sampleCast 2; sampleCast 3])
  = [None; Some (Stored (transformCast (sampleParent "p3")));
     Some (Stored (transformCast (sampleParent "p1")))].
Proof.
  rewrite (proj1 parents_attached_as_resolved sampleUpstream
             (map transformCast [sampleCast 1; sampleCast 2; sampleCast 3])).
  - vm_compute. reflexivity.
  - vm_compute. repeat constructor.
Defined.

End FeedRequestsFacts.

(** ** Numbers that rounding leaves alone *)
Module RoundingFacts.
Import JSNumber JSNumberFacts PricingRequests.
Local Open Scope Q_scope.

Lemma ilog2_unique y k : pow2 k <= y -> y < pow2 (k + 1) -> ilog2 y = k.
Proof.
  intros H1 H2. assert (Hy : 0 < y) by (pose proof (pow2_pos k); lra).
  destruct (ilog2_spec y Hy) as [S1 S2].
  assert (A : pow2 (ilog2 y) < pow2 (k + 1)) by lra.
  assert (B : pow2 k < pow2 (ilog2 y + 1)) by lra.
  apply pow2_lt_inv in A, B. lia.
Qed.

Lemma binary64_of_multiple y M :
  y == inject_Z M * pow2 (ulpExponent y) -> binary64 y == y.
Proof.
  intros Hy. rewrite binary64_eq.
  assert (H : y / pow2 (ulpExponent y) == inject_Z M).
  { pose proof (pow2_pos (ulpExponent y)) as P. rewrite Hy at 1. field. lra. }
  rewrite (roundHalfEven_comp _ _ H), roundHalfEven_Z. symmetry. exact Hy.
Qed.

Lemma binary64_idem_pos x : 0 < x -> binary64 (binary64 x) == binary64 x.
Proof.
  intros Hx.
  set (e := ulpExponent x). set (m := roundHalfEven (x / pow2 e)).
  assert (Hy : binary64 x == inject_Z m * pow2 e) by apply binary64_eq.
  pose proof (pow2_pos e) as Pe.
  assert (He : (-1074 <= e)%Z) by (unfold e, ulpExponent; lia).
  assert (Hex : (ilog2 x + 1 <= e + 53)%Z) by (unfold e, ulpExponent; lia).
  destruct (ilog2_spec x Hx) as [_ X2].
  assert (Um : (m <= 2 ^ 53)%Z).
  { unfold m. rewrite <- (roundHalfEven_Z (2 ^ 53)). apply roundHalfEven_le.
    rewrite <- pow2_Z by lia.
    apply Qle_shift_div_r; [assumption|]. rewrite <- pow2_add.
    apply Qlt_le_weak. eapply Qlt_le_trans; [exact X2|]. apply pow2_le. lia. }
  assert (Lm : (0 <= m)%Z).
  { unfold m. rewrite <- (roundHalfEven_Z 0). apply roundHalfEven_le.
    apply Qle_shift_div_l; [assumption|]. rewrite Qmult_0_l. lra. }
  destruct (Z.eq_dec m 0%Z) as [Hm0|Hm0].
  { assert (H0 : binary64 x == 0) by (rewrite Hy, Hm0; ring).
    rewrite (binary64_comp _ _ H0), binary64_0. symmetry. exact H0. }
  assert (Hmpos : (1 <= m)%Z) by lia.
  assert (Hypos : pow2 e <= binary64 x).
  { rewrite Hy. rewrite <- (Qmult_1_l (pow2 e)) at 1.
    apply Qmult_le_compat_r; [|lra]. change 1 with (inject_Z 1). rewrite <- Zle_Qle. lia. }
  set (y := binary64 x) in *.
  assert (Hy0 : 0 < y) by lra.
  destruct (ilog2_spec y Hy0) as [Y1 Y2].
  destruct (Z.eq_dec m (2 ^ 53)%Z) as [Hmax|Hlt].
  - (* the significand carried into the next binade *)
    assert (Hy' : y == pow2 (e + 53)).
    { rewrite Hy, Hmax, pow2_add, (pow2_Z 53) by lia. ring. }
    assert (Hj : ilog2 y = (e + 53)%Z).
    { apply ilog2_unique; rewrite Hy'; [lra|].
      assert (L : pow2 (e + 53) < pow2 (e + 53 + 1)).
      { rewrite (pow2_add (e + 53) 1). pose proof (pow2_pos (e + 53)).
        assert (E2 : pow2 1 == 2) by reflexivity. rewrite E2. lra. }
      exact L. }
    apply (binary64_of_multiple y (2 ^ 52)%Z).
    unfold ulpExponent. rewrite Hj. replace (Z.max (e + 53 - 52) (-1074)) with (e + 1)%Z by lia.
    rewrite Hy'. rewrite <- (pow2_Z 52) by lia. rewrite <- pow2_add. 
    assert (E : (52 + (e + 1) = e + 53)%Z) by lia. rewrite E. reflexivity.
  - assert (Hm : (m < 2 ^ 53)%Z) by lia.
    assert (Hy' : y < pow2 (e + 53)).
    { rewrite Hy, pow2_add, (pow2_Z 53) by lia. rewrite (Qmult_comm (pow2 e)).
      apply Qmult_lt_compat_r; [assumption|]. rewrite <- Zlt_Qlt. exact Hm. }
    assert (Hj : (ilog2 y < e + 53)%Z).
    { assert (A : pow2 (ilog2 y) < pow2 (e + 53)) by lra. apply pow2_lt_inv in A. lia. }
    set (e' := ulpExponent y).
    assert (He' : (e' <= e)%Z) by (unfold e', ulpExponent; lia).
    apply (binary64_of_multiple y (m * 2 ^ (e - e'))%Z).
    fold e'. rewrite inject_Z_mult, <- (pow2_Z (e - e')) by lia.
    rewrite Hy. rewrite <- Qmult_assoc, <- pow2_add.
    assert (E : (e - e' + e' = e)%Z) by lia. rewrite E. reflexivity.
Qed.

Lemma binary64_idem x : binary64 (binary64 x) == binary64 x.
Proof.
  destruct (Qlt_le_dec 0 x) as [Hpos|Hle]; [apply binary64_idem_pos, Hpos|].
  destruct (Qeq_dec x 0) as [H0|Hne].
  - assert (E0 : binary64 x == 0) by (rewrite (binary64_comp _ _ H0); apply binary64_0).
    rewrite (binary64_comp _ _ E0), binary64_0. symmetry. exact E0.
  - assert (Hneg : 0 < - x) by lra.
    assert (E : x == - - x) by ring.
    rewrite (binary64_comp _ _ E) at 2. rewrite (binary64_opp (- x)).
    assert (E2 : binary64 x == - binary64 (- x)).
    { rewrite (binary64_comp _ _ E) at 1. apply binary64_opp. }
    rewrite (binary64_comp _ _ E2), binary64_opp, (binary64_idem_pos _ Hneg). reflexivity.
Qed.

Lemma representable_binary64 x : representable (binary64 x).
Proof. unfold representable. exact (binary64_idem x). Qed.

Lemma representable_add x y : representable (add x y).
Proof. unfold representable, add. exact (binary64_idem (x + y)). Qed.

Lemma representable_mul x y : representable (mul x y).
Proof. unfold representable, mul. exact (binary64_idem (x * y)). Qed.

Lemma representable_div x y : representable (div x y).
Proof. unfold representable, div. exact (binary64_idem (x / y)). Qed.

Lemma representable_comp x y : x == y -> representable x -> representable y.
Proof.
  unfold representable. intros E H. rewrite <- (binary64_comp _ _ E), H. exact E.
Qed.

(** An integer of at most 53 bits is a binary64 value. *)
Lemma representable_int n : (0 <= n <= 2 ^ 53)%Z -> representable (inject_Z n).
Proof.
  intros [Hn0 Hn]. unfold representable.
  destruct (Z.eq_dec n 0%Z) as [->|Hne]; [apply binary64_0|].
  set (y := inject_Z n).
  assert (Hy1 : 1 <= y) by (unfold y; change 1 with (inject_Z 1); rewrite <- Zle_Qle; lia).
  assert (Hy0 : 0 < y) by lra.
  destruct (ilog2_spec y Hy0) as [Y1 Y2].
  assert (Hy53 : y <= pow2 53).
  { unfold y. rewrite (pow2_Z 53) by lia. rewrite <- Zle_Qle. exact Hn. }
  destruct (Z.eq_dec n (2 ^ 53)%Z) as [Hmax|Hlt].
  - assert (Hj : ilog2 y = 53%Z).
    { apply ilog2_unique.
      - unfold y. rewrite Hmax, (pow2_Z 53) by lia. apply Qle_refl.
      - unfold y. rewrite Hmax, (pow2_Z (53 + 1)) by lia. rewrite <- Zlt_Qlt. reflexivity. }
    apply (binary64_of_multiple y (2 ^ 52)%Z). unfold ulpExponent. rewrite Hj.
    unfold y. rewrite Hmax. reflexivity.
  - assert (Hj : (ilog2 y < 53)%Z).
    { assert (L : y < pow2 53).
      { unfold y. rewrite (pow2_Z 53) by lia. rewrite <- Zlt_Qlt. lia. }
      assert (A : pow2 (ilog2 y) < pow2 53) by lra. apply pow2_lt_inv in A. exact A. }
    set (e := ulpExponent y).
    assert (He : (e <= 0)%Z) by (unfold e, ulpExponent; lia).
    apply (binary64_of_multiple y (n * 2 ^ (- e))%Z). fold e.
    rewrite inject_Z_mult, <- (pow2_Z (- e)) by lia.
    rewrite <- Qmult_assoc, <- pow2_add.
    assert (E : (- e + e = 0)%Z) by lia. rewrite E. unfold y.
    assert (P0 : pow2 0 == 1) by reflexivity. rewrite P0. ring.
Qed.

(** The ceiling of a binary64 value that is not negative is one. *)
Lemma representable_ceil z : 0 <= z -> representable z -> representable (Math_ceil z).
Proof.
  intros Hz Hrep. unfold Math_ceil.
  destruct (Qlt_le_dec (pow2 53) z) as [Hbig|Hsmall].
  - (* above 2^53 every binary64 value is an integer *)
    assert (Hz0 : 0 < z) by (pose proof (pow2_pos 53); lra).
    destruct (ilog2_spec z Hz0) as [Z1 Z2].
    assert (Hj : (53 <= ilog2 z)%Z).
    { assert (A : pow2 53 < pow2 (ilog2 z + 1)) by lra. apply pow2_lt_inv in A. lia. }
    set (e := ulpExponent z).
    assert (He : (0 <= e)%Z) by (unfold e, ulpExponent; lia).
    unfold representable in Hrep. rewrite binary64_eq in Hrep. fold e in Hrep.
    set (m := roundHalfEven (z / pow2 e)) in Hrep.
    assert (Hint : z == inject_Z (m * 2 ^ e)).
    { rewrite inject_Z_mult, <- (pow2_Z e) by lia. symmetry. exact Hrep. }
    assert (Hc : Qceiling z = (m * 2 ^ e)%Z).
    { rewrite (Qceiling_comp _ _ Hint). apply Qceiling_Z. }
    rewrite Hc. apply (representable_comp z); [exact Hint|]. unfold representable.
    rewrite binary64_eq. fold e. exact Hrep.
  - apply representable_int. split.
    + change 0%Z with (Qceiling 0). apply Qceiling_resp_le, Hz.
    + rewrite <- (Qceiling_Z (2 ^ 53)). apply Qceiling_resp_le.
      rewrite <- (pow2_Z 53) by lia. exact Hsmall.
Qed.

Lemma mul_ge_self c r : 0 <= c -> representable c -> 1 <= r -> c <= mul c r.
Proof.
  intros Hc Hrep Hr. unfold representable in Hrep. rewrite <- Hrep at 1.
  apply binary64_le. nra.
Qed.

Lemma mul_le_self c r : 0 <= c -> representable c -> r <= 1 -> mul c r <= c.
Proof.
  intros Hc Hrep Hr. unfold representable in Hrep. rewrite <- Hrep at 2.
  apply binary64_le. nra.
Qed.

Lemma add_ge_self a b : representable a -> 0 <= b -> a <= add a b.
Proof.
  intros Hrep Hb. unfold representable in Hrep. rewrite <- Hrep at 1.
  apply binary64_le. lra.
Qed.

Lemma mul_le_l c r r' : 0 <= c -> r <= r' -> mul c r <= mul c r'.
Proof. intros. apply binary64_le. nra. Qed.

Lemma mul_nonneg x c : 0 <= x -> 0 <= c -> 0 <= mul x c.
Proof. intros Hx Hc. apply binary64_nonneg, Qmult_le_0_compat; assumption. Qed.

Lemma add_nonneg x y : 0 <= x -> 0 <= y -> 0 <= add x y.
Proof. intros Hx Hy. apply binary64_nonneg. lra. Qed.

Lemma div_nonneg x c : 0 <= x -> 0 < c -> 0 <= div x c.
Proof.
  intros Hx Hc. apply binary64_nonneg. apply Qle_shift_div_l; [assumption|].
  rewrite Qmult_0_l. assumption.
Qed.

Lemma Math_max_ge_r x b : b <= Math_max x b.
Proof. unfold Math_max. apply Q.le_max_r. Qed.

Lemma lit_ge_1 q : 1 <= q -> 1 <= lit q.
Proof.
  intros H. unfold lit.
  assert (E : binary64 1 == 1) by (vm_compute; reflexivity).
  rewrite <- E. apply binary64_le, H.
Qed.

Lemma lit_le_1 q : q <= 1 -> lit q <= 1.
Proof.
  intros H. unfold lit.
  assert (E : binary64 1 == 1) by (vm_compute; reflexivity).
  rewrite <- E. apply binary64_le, H.
Qed.

(** The last step of every price function: rounding to 6 decimal places. *)
Lemma rounded_le x y :
  x <= y ->
  div (Math_round (mul x 1000000)) 1000000 <= div (Math_round (mul y 1000000)) 1000000.
Proof.
  intros H. apply div_le_r; [reflexivity|]. apply Math_round_le.
  apply mul_le_r; [discriminate|exact H].
Qed.

Lemma rounded_nonneg x : 0 <= x -> 0 <= div (Math_round (mul x 1000000)) 1000000.
Proof.
  intros H. apply div_nonneg; [|reflexivity]. apply Math_round_nonneg, mul_nonneg;
    [exact H|discriminate].
Qed.

End RoundingFacts.


(** ** The prices of the four services *)
Module PriceFacts.
Import JSNumber JSNumberFacts RoundingFacts Pricing PricingFacts PricingRequests.
Local Open Scope Q_scope.

Lemma castPages_representable l : 0 <= l -> representable (Math_ceil (div l castsPerPage)).
Proof.
  intros Hl. apply representable_ceil; [|apply representable_div].
  apply div_nonneg; [exact Hl|reflexivity].
Qed.

Lemma roundedCost_costOf params l basePrice :
  roundedCost params l basePrice
  = div (Math_round (mul (Math_max (costOf params l) basePrice) 1000000)) 1000000.
Proof. reflexivity. Qed.

Lemma apiCallsOf_nonneg params l : 0 <= l -> 0 <= apiCallsOf params l.
Proof.
  intros Hl. unfold apiCallsOf.
  assert (Hpages : 0 <= Math_ceil (div l castsPerPage)).
  { apply Math_ceil_nonneg, div_nonneg; [exact Hl|reflexivity]. }
  assert (Hbase : 0 <= (if all params then add (Math_ceil (div l castsPerPage)) fetchAllBuffer
                        else Math_ceil (div l castsPerPage))).
  { destruct (all params); [apply add_nonneg; [exact Hpages|discriminate]|exact Hpages]. }
  destruct (includeParents params); [|exact Hbase].
  apply add_nonneg; [exact Hbase|]. apply Math_ceil_nonneg, mul_nonneg; [exact Hl|].
  apply parentRatio_nonneg.
Qed.

Lemma baseCalls_representable params l :
  0 <= l ->
  representable (if all params then add (Math_ceil (div l castsPerPage)) fetchAllBuffer
                 else Math_ceil (div l castsPerPage)).
Proof.
  intros Hl. destruct (all params); [apply representable_add|apply castPages_representable, Hl].
Qed.

Lemma costOf_le params params' l :
  0 <= l ->
  apiCallsOf params l <= apiCallsOf params' l ->
  (includeReplies params = true -> includeReplies params' = true) ->
  (includeReactions params = true -> includeReactions params' = true) ->
  costOf params l <= costOf params' l.
Proof.
  intros Hl Hcalls Hr Hx. unfold costOf.
  assert (H0 : 0 <= mul (apiCallsOf params' l) perApiCall).
  { apply mul_nonneg; [apply apiCallsOf_nonneg, Hl|apply perApiCall_nonneg]. }
  assert (H1 : mul (apiCallsOf params l) perApiCall <= mul (apiCallsOf params' l) perApiCall).
  { apply mul_le_r; [apply perApiCall_nonneg|exact Hcalls]. }
  assert (Hrep1 : 1 <= repliesDataMultiplier) by (apply lit_ge_1; discriminate).
  assert (Hrea1 : 1 <= reactionsDataMultiplier) by (apply lit_ge_1; discriminate).
  assert (H2 : (if includeReplies params then mul (mul (apiCallsOf params l) perApiCall)
                                                repliesDataMultiplier
                else mul (apiCallsOf params l) perApiCall)
               <= (if includeReplies params' then mul (mul (apiCallsOf params' l) perApiCall)
                                                    repliesDataMultiplier
                   else mul (apiCallsOf params' l) perApiCall)).
  { destruct (includeReplies params) eqn:E.
    - rewrite (Hr eq_refl). apply mul_le_r; [apply repliesDataMultiplier_nonneg|exact H1].
    - destruct (includeReplies params'); [|exact H1].
      eapply Qle_trans; [exact H1|].
      apply mul_ge_self; [exact H0|apply representable_mul|exact Hrep1]. }
  set (c := if includeReplies params then _ else _) in *.
  set (c' := if includeReplies params' then _ else _) in *.
  assert (Hc' : 0 <= c' /\ representable c').
  { unfold c'. destruct (includeReplies params').
    - split; [|apply representable_mul].
      apply mul_nonneg; [exact H0|apply repliesDataMultiplier_nonneg].
    - split; [exact H0|apply representable_mul]. }
  destruct Hc' as [Hc0 Hcrep].
  destruct (includeReactions params) eqn:E.
  - rewrite (Hx eq_refl). apply mul_le_r; [apply reactionsDataMultiplier_nonneg|exact H2].
  - destruct (includeReactions params'); [|exact H2].
    eapply Qle_trans; [exact H2|]. apply mul_ge_self; assumption.
Qed.

Lemma roundedCost_flags_le params params' l basePrice :
  0 <= l ->
  apiCallsOf params l <= apiCallsOf params' l ->
  (includeReplies params = true -> includeReplies params' = true) ->
  (includeReactions params = true -> includeReactions params' = true) ->
  roundedCost params l basePrice <= roundedCost params' l basePrice.
Proof.
  intros Hl Hcalls Hr Hx. rewrite !roundedCost_costOf.
  apply rounded_le, Math_max_le, costOf_le; assumption.
Qed.

Lemma apiCallsOf_replies params l :
  0 <= l -> apiCallsOf (withReplies false params) l <= apiCallsOf (withReplies true params) l.
Proof.
  intros Hl. unfold apiCallsOf. cbn [withReplies all includeParents includeReplies].
  destruct (includeParents params); [|apply Qle_refl].
  apply add_le; [apply Qle_refl|]. apply Math_ceil_le, mul_le_l; [exact Hl|].
  unfold parentRatioWithReplies, parentRatioWithoutReplies, lit. apply binary64_le. discriminate.
Qed.

Lemma apiCallsOf_parents params l :
  0 <= l -> apiCallsOf (withParents false params) l <= apiCallsOf (withParents true params) l.
Proof.
  intros Hl. unfold apiCallsOf. cbn [withParents all includeParents includeReplies].
  apply add_ge_self; [apply (baseCalls_representable params l Hl)|].
  apply Math_ceil_nonneg, mul_nonneg; [exact Hl|apply parentRatio_nonneg].
Qed.

Lemma dynamicPriceAmount_requested params basePrice :
  dynamicPriceAmount params basePrice
  = if isFreeTier params then 0 else roundedCost params (requested params) basePrice.
Proof. reflexivity. Qed.

Lemma amount_le params params' basePrice :
  0 <= requested params ->
  requested params' = requested params ->
  (isFreeTier params' = true -> isFreeTier params = true) ->
  roundedCost params (requested params) basePrice
    <= roundedCost params' (requested params) basePrice ->
  dynamicPriceAmount params basePrice <= dynamicPriceAmount params' basePrice.
Proof.
  intros Hl Hreq Hfree Hle. rewrite !dynamicPriceAmount_requested, Hreq.
  destruct (isFreeTier params') eqn:F'.
  - rewrite (Hfree eq_refl). apply Qle_refl.
  - destruct (isFreeTier params); [|exact Hle]. apply roundedCost_nonneg, Hl.
Qed.

(** X12.  Switching on [includeReactions], [includeReplies] or
    [includeParents], all else equal, never lowers the price of a request
    for a number of units that is not negative. *)
Theorem flags_never_lower_price (params : PricingParams) (basePrice : Q) :
  (all params = false -> 0 <= orDefault (limit params) 50) ->
  dynamicPriceAmount (withReactions false params) basePrice
    <= dynamicPriceAmount (withReactions true params) basePrice
  /\ dynamicPriceAmount (withReplies false params) basePrice
     <= dynamicPriceAmount (withReplies true params) basePrice
  /\ dynamicPriceAmount (withParents false params) basePrice
     <= dynamicPriceAmount (withParents true params) basePrice.
Proof.
  intros Hlimit.
  assert (Hl : 0 <= requested params).
  { unfold requested. destruct (all params); [|apply Hlimit; reflexivity].
    apply mul_nonneg; discriminate. }
  split; [|split].
  - apply amount_le; [exact Hl|reflexivity| |].
    + rewrite !isFreeTier_withReactions. tauto.
    + apply roundedCost_flags_le; [exact Hl|apply Qle_refl|tauto|reflexivity].
  - apply amount_le; [exact Hl|reflexivity| |].
    + unfold isFreeTier. cbn [withReplies limit all includeReplies includeParents].
      destruct (gtb _ _), (all params); try discriminate.
    + apply roundedCost_flags_le;
        [exact Hl|apply apiCallsOf_replies, Hl|reflexivity|tauto].
  - apply amount_le; [exact Hl|reflexivity| |].
    + unfold isFreeTier. cbn [withParents limit all includeReplies includeParents].
      destruct (gtb _ _), (all params), (includeReplies params); try discriminate.
    + apply roundedCost_flags_le;
        [exact Hl|apply apiCallsOf_parents, Hl|tauto|tauto].
Qed.

(** X13.  The cast count is read for all-queries only.  When it is absent
    or [all] is not set, [calculateDynamicPriceWithCastCount] answers what
    [calculateDynamicPrice] answers; for an all-query with a count the price
    is that of as many units, it grows with the count, and a count of at
    most the default estimate of 7500 never costs more than the default. *)
Theorem cast_count_pricing (params : PricingParams) (basePrice : Q) :
  calculateDynamicPriceWithCastCount params None basePrice
  = calculateDynamicPrice params basePrice
  /\ (all params = false ->
      forall castCount,
        calculateDynamicPriceWithCastCount params castCount basePrice
        = calculateDynamicPrice params basePrice)
  /\ (all params = true ->
      forall castCount,
        calculateDynamicPriceWithCastCount params (Some castCount) basePrice
        = "$" +:+ toString (roundedCost params castCount basePrice))
  /\ (forall c1 c2,
        c1 <= c2 -> roundedCost params c1 basePrice <= roundedCost params c2 basePrice)
  /\ (forall castCount,
        castCount <= 7500 ->
        roundedCost params castCount basePrice
        <= roundedCost params (mul fetchAllDefaultPages castsPerPage) basePrice).
Proof.
  split; [|split; [|split; [|split]]].
  - unfold calculateDynamicPriceWithCastCount, calculateDynamicPrice.
    destruct (isFreeTier params), (all params); reflexivity.
  - intros Hall castCount. unfold calculateDynamicPriceWithCastCount, calculateDynamicPrice.
    rewrite Hall. reflexivity.
  - intros Hall castCount. unfold calculateDynamicPriceWithCastCount, isFreeTier.
    rewrite Hall. destruct (gtb _ _); reflexivity.
  - intros c1 c2. apply roundedCost_le.
  - intros castCount Hc. apply roundedCost_le.
    assert (E : mul fetchAllDefaultPages castsPerPage == 7500) by (vm_compute; reflexivity).
    rewrite E. exact Hc.
Qed.

Lemma cast_count_pricing_witness :
  calculateDynamicPriceWithCastCount
    {| limit := None; all := true; includeReplies := false; includeParents := false;
       includeReactions := false |} (Some 1200) (lit (1 # 1000))
  = "$" +:+ toString (roundedCost
                        {| limit := None; all := true; includeReplies := false;
                           includeParents := false; includeReactions := false |}
                        1200 (lit (1 # 1000))).
Proof.
  apply (proj1 (proj2 (proj2 (cast_count_pricing
           {| limit := None; all := true; includeReplies := false; includeParents := false;
              includeReactions := false |} (lit (1 # 1000))))) eq_refl 1200).
Defined.

Lemma flags_never_lower_price_witness :
  dynamicPriceAmount
    (withReactions false
       {| limit := Some 500; all := false; includeReplies := true; includeParents := true;
          includeReactions := false |}) (lit (1 # 1000))
  <= dynamicPriceAmount
       (withReactions true
          {| limit := Some 500; all := false; includeReplies := true; includeParents := true;
             includeReactions := false |}) (lit (1 # 1000)).
Proof.
  destruct (flags_never_lower_price
              {| limit := Some 500; all := false; includeReplies := true;
                 includeParents := true; includeReactions := false |} (lit (1 # 1000)))
    as [Hle _]; [intros _; vm_compute; discriminate|exact Hle].
Defined.

(** *** RSS *)
Import RssPricing.

Lemma rssRounded_le params params' basePrice :
  orDefault (itemCount params) 10 <= orDefault (itemCount params') 10 ->
  0 <= orDefault (itemCount params') 10 ->
  (includeContent params = true -> includeContent params' = true) ->
  rssRounded params basePrice <= rssRounded params' basePrice.
Proof.
  intros Hn H0 Hc. unfold rssRounded. cbv zeta. apply rounded_le, Math_max_le.
  assert (H1 : add baseFetch (mul (orDefault (itemCount params) 10) perItem)
               <= add baseFetch (mul (orDefault (itemCount params') 10) perItem)).
  { apply add_le; [apply Qle_refl|]. apply mul_le_r; [|exact Hn].
    apply lit_nonneg. discriminate. }
  assert (Hpos : 0 <= add baseFetch (mul (orDefault (itemCount params') 10) perItem)).
  { apply add_nonneg; [apply lit_nonneg; discriminate|].
    apply mul_nonneg; [exact H0|apply lit_nonneg; discriminate]. }
  destruct (includeContent params) eqn:E.
  - rewrite (Hc eq_refl). apply mul_le_r; [apply lit_nonneg; discriminate|exact H1].
  - destruct (includeContent params'); [|exact H1].
    eapply Qle_trans; [exact H1|].
    apply mul_ge_self; [exact Hpos|apply representable_add|apply lit_ge_1; discriminate].
Qed.

Lemma rssRounded_nonneg params basePrice :
  0 <= orDefault (itemCount params) 10 -> 0 <= rssRounded params basePrice.
Proof.
  intros H0. unfold rssRounded. cbv zeta. apply rounded_nonneg.
  eapply Qle_trans; [|apply Math_max_ge_l].
  assert (Hpos : 0 <= add baseFetch (mul (orDefault (itemCount params) 10) perItem)).
  { apply add_nonneg; [apply lit_nonneg; discriminate|].
    apply mul_nonneg; [exact H0|apply lit_nonneg; discriminate]. }
  destruct (includeContent params); [|exact Hpos].
  apply mul_nonneg; [exact Hpos|apply lit_nonneg; discriminate].
Qed.

(** X14.  The RSS price does not fall when more items are asked for, nor
    when the full content is added; and the string [calculateRssPrice]
    returns is ["$"] and the amount. *)
Theorem rss_price_monotone (params : RssPricingParams) (basePrice n1 n2 : Q) :
  0 < n1 -> n1 <= n2 ->
  rssPriceAmount (withItemCount (Some n1) params) basePrice
    <= rssPriceAmount (withItemCount (Some n2) params) basePrice
  /\ rssPriceAmount (withContent false (withItemCount (Some n1) params)) basePrice
     <= rssPriceAmount (withContent true (withItemCount (Some n1) params)) basePrice
  /\ calculateRssPrice (withItemCount (Some n1) params) basePrice
     = "$" +:+ toString (rssPriceAmount (withItemCount (Some n1) params) basePrice).
Proof.
  intros H1 H12. assert (H2 : 0 < n2) by lra.
  assert (E1 : orDefault (Some n1) 10 = n1) by (apply orDefault_pos, H1).
  assert (E2 : orDefault (Some n2) 10 = n2) by (apply orDefault_pos, H2).
  split; [|split].
  - unfold rssPriceAmount, isRssFreeTier. cbn [withItemCount all includeContent itemCount].
    rewrite E1, E2.
    destruct (all params); [apply rssRounded_le; cbn [withItemCount itemCount includeContent];
                            rewrite ?E1, ?E2; first [lra | tauto]|].
    destruct (includeContent params) eqn:C;
      [apply rssRounded_le; cbn [withItemCount itemCount includeContent];
       rewrite ?E1, ?E2; first [lra | tauto]|].
    destruct (Qle_bool n2 freeTierMaxItems) eqn:F2.
    + apply Qle_bool_iff in F2.
      assert (F1 : Qle_bool n1 freeTierMaxItems = true) by (apply Qle_bool_iff; lra).
      rewrite F1. apply Qle_refl.
    + destruct (Qle_bool n1 freeTierMaxItems).
      * apply rssRounded_nonneg. cbn [withItemCount itemCount]. rewrite E2. lra.
      * apply rssRounded_le; cbn [withItemCount itemCount includeContent];
          rewrite ?E1, ?E2; first [lra | tauto].
  - unfold rssPriceAmount, isRssFreeTier.
    cbn [withContent withItemCount all includeContent itemCount]. rewrite E1.
    destruct (all params).
    + apply rssRounded_le; cbn [withContent withItemCount itemCount includeContent];
        rewrite ?E1; first [lra | tauto | reflexivity].
    + destruct (Qle_bool n1 freeTierMaxItems).
      * apply rssRounded_nonneg. cbn [withContent withItemCount itemCount]. rewrite E1. lra.
      * apply rssRounded_le; cbn [withContent withItemCount itemCount includeContent];
          rewrite ?E1; first [lra | tauto | reflexivity].
  - unfold calculateRssPrice, rssPriceAmount.
    destruct (isRssFreeTier _); reflexivity.
Qed.

Lemma rss_price_monotone_witness :
  rssPriceAmount (withItemCount (Some 10) {| itemCount := None; includeContent := false;
                                             all := false |}) (lit (1 # 1000))
  <= rssPriceAmount (withItemCount (Some 100) {| itemCount := None; includeContent := false;
                                                 all := false |}) (lit (1 # 1000)).
Proof.
  destruct (rss_price_monotone {| itemCount := None; includeContent := false; all := false |}
              (lit (1 # 1000)) 10 100) as [Hle _]; [reflexivity|discriminate|exact Hle].
Defined.


(** *** Git *)
Import GitPricing.

Lemma div_le_1 m : m < 100000 -> div m 100000 <= 1.
Proof.
  intros Hm. unfold div.
  assert (E : binary64 1 == 1) by (vm_compute; reflexivity).
  rewrite <- E. apply binary64_le.
  apply Qle_shift_div_r; [reflexivity|]. lra.
Qed.

Lemma ltb_lt x y : ltb x y = true -> x < y.
Proof.
  unfold ltb. intros H. apply negb_true_iff in H.
  destruct (Qlt_le_dec x y) as [Hlt|Hle]; [exact Hlt|].
  apply Qle_bool_iff in Hle. congruence.
Qed.

(** A step of [contentEstimate]: a multiplication by a factor that is at
    most 1 does not raise the estimate. *)
Lemma reduce_le c c' r :
  0 <= c -> c <= c' -> representable c' -> 0 <= r -> r <= 1 ->
  0 <= mul c r /\ mul c r <= c'.
Proof.
  intros Hc Hcc' Hrep Hr Hr1. split; [apply mul_nonneg; assumption|].
  eapply Qle_trans; [apply mul_le_r; [exact Hr|exact Hcc']|].
  apply mul_le_self; [lra|exact Hrep|exact Hr1].
Qed.

Lemma contentEstimate_le params includes excludes ceiling :
  0 <= orDefault (repoSize params) 0 ->
  contentEstimate (withFilters includes excludes ceiling params)
  <= contentEstimate (withFilters None None None params).
Proof.
  intros Hr. unfold contentEstimate.
  cbn [withFilters repoSize includePatterns excludePatterns maxFileSize GitPricing.nonEmpty].
  set (c0 := mul (orDefault (repoSize params) 0) (lit (3 # 10))).
  assert (H0 : 0 <= c0) by (apply mul_nonneg; [exact Hr|apply lit_nonneg; discriminate]).
  assert (R0 : representable c0) by apply representable_mul.
  set (c1 := if GitPricing.nonEmpty includes then mul c0 (lit (2 # 10)) else c0).
  assert (H1 : 0 <= c1 /\ c1 <= c0).
  { unfold c1. destruct (GitPricing.nonEmpty includes); [|split; [exact H0|apply Qle_refl]].
    apply reduce_le; [exact H0|apply Qle_refl|exact R0|apply lit_nonneg; discriminate|].
    apply lit_le_1. discriminate. }
  set (c2 := if GitPricing.nonEmpty excludes then mul c1 (lit (7 # 10)) else c1).
  assert (H2 : 0 <= c2 /\ c2 <= c0).
  { unfold c2. destruct (GitPricing.nonEmpty excludes); [|exact H1].
    apply reduce_le; [apply H1|apply H1|exact R0|apply lit_nonneg; discriminate|].
    apply lit_le_1. discriminate. }
  destruct ceiling as [m|]; [|apply H2].
  destruct (truthy m && ltb m 100000) eqn:E; [|apply H2].
  apply andb_true_iff in E as [_ Hm]. apply ltb_lt in Hm.
  apply reduce_le; [apply H2|apply H2|exact R0| |].
  - eapply Qle_trans; [|apply Math_max_ge_l]. apply lit_nonneg. discriminate.
  - unfold Math_max. apply Q.max_lub; [apply lit_le_1; discriminate|apply div_le_1, Hm].
Qed.

Lemma estimatedKB_le params includes excludes ceiling :
  0 <= orDefault (repoSize params) 0 ->
  estimatedKB (withFilters includes excludes ceiling params)
  <= estimatedKB (withFilters None None None params).
Proof.
  intros Hr. unfold estimatedKB.
  cbn [withFilters estimatedOutputKB includeTree includeContent fileCount].
  destruct (truthy _); [apply Qle_refl|].
  destruct (includeContent params); [|apply Qle_refl].
  apply add_le; [apply Qle_refl|]. apply contentEstimate_le, Hr.
Qed.

Lemma gitRounded_le params params' basePrice :
  estimatedKB params <= estimatedKB params' ->
  gitRounded params basePrice <= gitRounded params' basePrice.
Proof.
  intros H. unfold gitRounded. cbv zeta. apply rounded_le.
  apply Math_max_le, Math_max_le, add_le; [apply Qle_refl|].
  apply mul_le_r; [apply lit_nonneg; discriminate|exact H].
Qed.

(** X15.  Filters never raise the price of a repository request: with
    include patterns, exclude patterns or a file-size ceiling the price is
    at most the price of the same request without them. *)
Theorem git_filters_never_raise_price (params : GitPricingParams) (basePrice : Q)
    (includes excludes : option (list string)) (ceiling : option Q) :
  0 <= orDefault (repoSize params) 0 ->
  gitPriceAmount (withFilters includes excludes ceiling params) basePrice
  <= gitPriceAmount (withFilters None None None params) basePrice
  /\ calculateGitPrice (withFilters includes excludes ceiling params) basePrice
     = "$" +:+ toString (gitPriceAmount (withFilters includes excludes ceiling params) basePrice).
Proof.
  intros Hr. split.
  - unfold gitPriceAmount, isGitFreeTier.
    cbn [withFilters includeContent includeTree fileCount].
    destruct (includeContent params);
      [|destruct (includeTree params && gtb _ _); [|apply Qle_refl]];
      apply gitRounded_le, estimatedKB_le, Hr.
  - unfold calculateGitPrice, gitPriceAmount. destruct (isGitFreeTier _); reflexivity.
Qed.

Lemma git_filters_never_raise_price_witness :
  gitPriceAmount
    (withFilters (Some ["src/**"%string]) None (Some 20000)
       {| repoSize := Some 4000; fileCount := None; estimatedOutputKB := None;
          includeContent := true; includeTree := false; includePatterns := None;
          excludePatterns := None; maxFileSize := None |}) (lit (1 # 1000))
  <= gitPriceAmount
       (withFilters None None None
          {| repoSize := Some 4000; fileCount := None; estimatedOutputKB := None;
             includeContent := true; includeTree := false; includePatterns := None;
             excludePatterns := None; maxFileSize := None |}) (lit (1 # 1000)).
Proof.
  destruct (git_filters_never_raise_price
              {| repoSize := Some 4000; fileCount := None; estimatedOutputKB := None;
                 includeContent := true; includeTree := false; includePatterns := None;
                 excludePatterns := None; maxFileSize := None |} (lit (1 # 1000))
              (Some ["src/**"%string]) None (Some 20000)) as [Hle _];
    [vm_compute; discriminate|exact Hle].
Defined.

(** X16.  A price that is charged is never below the base price: each of
    the price functions answers ["$0"] for a free request and otherwise at
    least the base price, rounded as the price is; a repository price is
    also at least the minimum price of the paid tier. *)
Theorem paid_price_at_least_base (basePrice : Q) :
  (forall params units,
      roundedBase basePrice <= roundedCost params units basePrice)
  /\ (forall params, roundedBase basePrice <= rssRounded params basePrice)
  /\ (forall params,
        roundedBase basePrice <= gitRounded params basePrice
        /\ roundedBase minPrice <= gitRounded params basePrice)
  /\ (forall params,
        calculateDynamicPrice params basePrice
        = if isFreeTier params then "$0"%string
          else "$" +:+ toString (roundedCost params (requested params) basePrice))
  /\ (forall params,
        calculateRssPrice params basePrice
        = if isRssFreeTier params then "$0"%string
          else "$" +:+ toString (rssRounded params basePrice))
  /\ (forall params,
        calculateGitPrice params basePrice
        = if isGitFreeTier params then "$0"%string
          else "$" +:+ toString (gitRounded params basePrice)).
Proof.
  split; [|split; [|split; [|split; [|split]]]].
  - intros params units. rewrite roundedCost_costOf. unfold roundedBase.
    apply rounded_le, Math_max_ge_r.
  - intros params. unfold rssRounded, roundedBase. cbv zeta.
    apply rounded_le, Math_max_ge_r.
  - intros params. unfold gitRounded, roundedBase. cbv zeta. split.
    + apply rounded_le, Math_max_ge_r.
    + apply rounded_le. eapply Qle_trans; [|apply Math_max_ge_l]. apply Math_max_ge_r.
  - intros params. unfold calculateDynamicPrice, requested.
    destruct (isFreeTier params); reflexivity.
  - reflexivity.
  - reflexivity.
Qed.

End PriceFacts.

(** ** The items of an RSS response *)
Module RssFacts.
Import JSNumber Feed FeedRequests FeedFacts FeedRequestsFacts Rss.

Lemma slice0_take {A} (l : list A) (q : Q) :
  (0 <= q)%Q -> slice0 l q = take (Z.to_nat (Qfloor q)) l.
Proof.
  intros Hq. unfold slice0, truncate.
  assert (H : Qle_bool 0 q = true) by (apply Qle_bool_iff, Hq).
  rewrite H.
  assert (H0 : (0 <= Qfloor q)%Z).
  { change 0%Z with (Qfloor 0). apply Qfloor_resp_le, Hq. }
  destruct (Z.ltb_spec (Qfloor q) 0); [lia|reflexivity].
Qed.

(** X18.  The items [fetchRssFeed] returns are the parsed items in the
    order asked for, all of them when [all] is set or the limit is absent
    or 0, and otherwise the first [limit] of them (for a limit above 0);
    without [includeContent] every item is returned without its content,
    and with it the items are returned as parsed. *)
Theorem rss_items_selected (params : RssQueryParams) (allItems : list RssItem) :
  (sliceLimit params = None ->
     map withoutContent (selectItems params allItems)
     = map withoutContent (inOrder params allItems))
  /\ (forall l, sliceLimit params = Some l -> (0 <= l)%Q ->
        map withoutContent (selectItems params allItems)
        = map withoutContent (take (Z.to_nat (Qfloor l)) (inOrder params allItems))
        /\ length (selectItems params allItems) = kept l (length allItems))
  /\ (includeContent params = false ->
        Forall (fun item => content item = None) (selectItems params allItems))
  /\ (includeContent params = true ->
        forall item, item ∈ selectItems params allItems -> item ∈ allItems)
  /\ (all params = true \/ limit params = Some 0%Q \/ limit params = None ->
        length (selectItems params allItems) = length allItems).
Proof.
  assert (Hidem : forall items : list RssItem,
            map withoutContent (map withoutContent items) = map withoutContent items).
  { intros items. rewrite map_map. apply map_ext. intros [? ? ? ? ? ? ? ? ?]. reflexivity. }
  assert (Hstrip : forall items : list RssItem,
            map withoutContent
              (if negb (includeContent params) then map withoutContent items else items)
            = map withoutContent items).
  { intros items. destruct (includeContent params); cbn [negb]; [reflexivity|apply Hidem]. }
  assert (Hlen : forall items : list RssItem,
            length (if negb (includeContent params) then map withoutContent items else items)
            = length items).
  { intros items. destruct (includeContent params); cbn [negb]; [reflexivity|apply length_map]. }
  assert (Horder : length (inOrder params allItems) = length allItems).
  { unfold inOrder. destruct (sortOrder params) as [[|]|]; rewrite ?length_rev; reflexivity. }
  split; [|split; [|split; [|split]]].
  - intros Hnone. unfold selectItems. rewrite Hnone. apply Hstrip.
  - intros l Hsome Hl. unfold selectItems. rewrite Hsome. fold (inOrder params allItems).
    split.
    + rewrite Hstrip, slice0_take by exact Hl. reflexivity.
    + rewrite Hlen, slice0_length by exact Hl. rewrite Horder. reflexivity.
  - intros Hc. unfold selectItems. rewrite Hc. cbn [negb].
    apply Forall_map, Forall_forall. intros item _. reflexivity.
  - intros Hc item. unfold selectItems. rewrite Hc. cbn [negb].
    fold (inOrder params allItems). intros Hin.
    assert (Hord : item ∈ inOrder params allItems).
    { destruct (sliceLimit params) as [l|]; [|exact Hin].
      unfold slice0 in Hin. destruct (_ <? 0)%Z; eapply subseteq_take; exact Hin. }
    unfold inOrder in Hord. destruct (sortOrder params) as [[|]|]; try exact Hord.
    apply list_elem_of_In, in_rev, list_elem_of_In, Hord.
  - intros Hall. unfold selectItems. rewrite Hlen.
    assert (Hnone : sliceLimit params = None).
    { unfold sliceLimit. destruct Hall as [->|[->| ->]]; [reflexivity| |];
        destruct (all params); reflexivity. }
    rewrite Hnone. apply Horder.
Qed.

Lemma rss_items_selected_witness :
  length
    (selectItems {| limit := Some 2%Q; all := false; includeContent := false;
                    sortOrder := Some oldest |}
       [sampleItem 1; sampleItem 2; sampleItem 3])
  = kept 2 3
  /\ length
       (selectItems {| limit := Some 0%Q; all := false; includeContent := false;
                       sortOrder := None |}
          [sampleItem 1; sampleItem 2; sampleItem 3])
     = 3%nat.
Proof.
  split.
  - apply (proj1 (proj2 (rss_items_selected
             {| limit := Some 2%Q; all := false; includeContent := false;
                sortOrder := Some oldest |} [sampleItem 1; sampleItem 2; sampleItem 3])) 2%Q);
      [reflexivity|discriminate].
  - apply (proj2 (proj2 (proj2 (proj2 (rss_items_selected
             {| limit := Some 0%Q; all := false; includeContent := false;
                sortOrder := None |} [sampleItem 1; sampleItem 2; sampleItem 3]))))).
    right. left. reflexivity.
Defined.

End RssFacts.

(** ** The repository response *)
Module GitRepoFacts.
Import JSNumber JSString Git GitFacts.
Import Feed(result, Ok, Thrown).

Lemma filter_filter_length {A} (f g : A -> bool) (l : list A) :
  (length (List.filter f (List.filter g l)) <= length (List.filter f l))%nat.
Proof.
  induction l as [|x l IH]; cbn [List.filter]; [lia|].
  destruct (g x); cbn [List.filter]; destruct (f x); cbn [length]; lia.
Qed.

Section RepoFacts.
Variable isMatch : string -> string -> bool.

Local Abbreviation filterTree := (filterTree isMatch).
Local Abbreviation fetchTree := (fetchTree isMatch).
Local Abbreviation fetchGitHubRepo := (fetchGitHubRepo isMatch).

Lemma filterTree_files tree includes excludes :
  (length (List.filter isFile (filterTree tree includes excludes))
   <= length (List.filter isFile tree))%nat
  /\ (hasPatterns includes = false -> hasPatterns excludes = false ->
      filterTree tree includes excludes = tree).
Proof.
  unfold Git.filterTree. split.
  - destruct (negb (hasPatterns includes) && negb (hasPatterns excludes)); [lia|].
    apply filter_filter_length.
  - intros -> ->. reflexivity.
Qed.

Lemma filesToFetch_files params entries :
  (length (filesToFetch params entries) <= length (List.filter isFile entries))%nat.
Proof.
  unfold filesToFetch. rewrite length_take.
  etransitivity; [apply Nat.le_min_r|].
  etransitivity; [apply List.filter_length_le|].
  induction entries as [|f entries IH]; cbn [List.filter]; [lia|].
  destruct (isFile f); cbn [andb]; [|exact IH].
  destruct (Qle_bool _ _); cbn [length]; lia.
Qed.

Lemma fetchTree_counts gh params branchName :
  let '(tree, commitSha, total) := fetchTree gh params branchName in
  (length (List.filter isFile (default [] tree)) <= total)%nat
  /\ (hasPatterns (includePatterns params) = false ->
      hasPatterns (excludePatterns params) = false ->
      length (List.filter isFile (default [] tree)) = total).
Proof.
  unfold Git.fetchTree.
  destruct (includeTree params || includeContent params); [|split; reflexivity].
  destruct (getTree gh branchName) as [r|]; [|split; reflexivity].
  destruct (ok r); [|split; reflexivity].
  cbn [default]. split; [apply filterTree_files|].
  intros Hi He. rewrite (proj2 (filterTree_files _ _ _) Hi He). reflexivity.
Qed.

End RepoFacts.

(** X19.  [fetchGitHubRepo] fails only when the repository call fails: when
    that call answers with a success status the function returns a response
    for that repository, whatever the other three endpoints answer; and an
    error it throws is the error of the repository call, "Repository not
    found" for status 404 and "GitHub API error" with the status
    otherwise. *)
Theorem only_the_repository_call_is_fatal (isMatch : string -> string -> bool) (gh : GitHub)
    (owner repoName : string) (params : GitQueryParams) :
  (forall r, getRepo gh = Ok r -> ok r = true ->
     exists response,
       fetchGitHubRepo isMatch gh owner repoName params = Ok response
       /\ repo response = body r
       /\ meta_branch (meta response)
          = default (default_branch (body r)) (Feed.truthyString (branch params)))
  /\ (forall msg, fetchGitHubRepo isMatch gh owner repoName params = Thrown msg ->
        getRepo gh = Thrown msg
        \/ exists r,
             getRepo gh = Ok r /\ ok r = false
             /\ msg = if (status r =? 404)%Z
                      then "Repository not found: " +:+ owner +:+ "/" +:+ repoName
                      else "GitHub API error: " +:+ toString (inject_Z (status r)))
  /\ (forall response,
        fetchGitHubRepo isMatch gh owner repoName params = Ok response ->
        (forall r, getTree gh (meta_branch (meta response)) = Ok r -> ok r = false) ->
        files response = [] /\ tree response = None
        /\ commitSha (meta response) = "unknown"%string
        /\ totalFileCount (meta response) = 0%nat).
Proof.
  unfold fetchGitHubRepo. split; [|split].
  - intros r Hr Hok. rewrite Hr, Hok. cbn [negb].
    destruct (fetchTree isMatch gh params _) as [[treeOpt sha] total].
    eexists. split; [reflexivity|]. cbn [repo meta meta_branch]. split; [reflexivity|].
    destruct (Feed.truthyString (branch params)); reflexivity.
  - intros msg. destruct (getRepo gh) as [r|msg'].
    + destruct (ok r) eqn:Hok; cbn [negb].
      * destruct (fetchTree isMatch gh params _) as [[treeOpt sha] total]. discriminate.
      * intros H. right. exists r. split; [reflexivity|]. split; [exact Hok|].
        destruct (status r =? 404)%Z; injection H as <-; reflexivity.
    + intros H. injection H as <-. left. reflexivity.
  - intros response. destruct (getRepo gh) as [r|]; [|discriminate].
    destruct (negb (ok r)); [destruct (status r =? 404)%Z; discriminate|].
    set (branchName := match Feed.truthyString (branch params) with
                       | Some b => b
                       | None => default_branch (body r)
                       end).
    destruct (fetchTree isMatch gh params branchName) as [[treeOpt sha] total] eqn:Htree.
    intros H. injection H as <-. cbn [files tree meta meta_branch commitSha totalFileCount].
    intros Hdown. unfold fetchTree in Htree.
    assert (Hnone : (treeOpt, sha, total) = (None, None, O)).
    { rewrite <- Htree. destruct (includeTree params || includeContent params); [|reflexivity].
      destruct (getTree gh branchName) as [t|]; [|reflexivity].
      rewrite (Hdown t eq_refl). reflexivity. }
    injection Hnone as -> -> ->. cbn [default Feed.truthyString].
    repeat split. destruct (includeTree params); reflexivity.
Qed.

(** X20.  The counts of a response: the files returned with their content
    are at most the files of the filtered tree ([filteredFileCount]), which
    are at most the files of the whole tree ([totalFileCount]); without
    patterns the two counts are equal; and without [includeContent] no file
    content is returned. *)
Theorem file_counts_ordered (isMatch : string -> string -> bool) (gh : GitHub)
    (owner repoName : string) (params : GitQueryParams) (response : GitResponse) :
  fetchGitHubRepo isMatch gh owner repoName params = Ok response ->
  (length (files response) <= filteredFileCount (meta response))%nat
  /\ (filteredFileCount (meta response) <= totalFileCount (meta response))%nat
  /\ (hasPatterns (includePatterns params) = false ->
      hasPatterns (excludePatterns params) = false ->
      filteredFileCount (meta response) = totalFileCount (meta response))
  /\ (includeContent params = false -> files response = [])
  /\ (includeTree params = false -> tree response = None).
Proof.
  unfold fetchGitHubRepo. destruct (getRepo gh) as [r|]; [|discriminate].
  destruct (negb (ok r)); [destruct (status r =? 404)%Z; discriminate|].
  set (branchName := match Feed.truthyString (branch params) with
                     | Some b => b
                     | None => default_branch (body r)
                     end).
  pose proof (fetchTree_counts isMatch gh params branchName) as Hcounts.
  destruct (fetchTree isMatch gh params branchName) as [[treeOpt sha] total].
  destruct Hcounts as [Hle Heq].
  intros H. injection H as <-.
  cbn [files tree meta filteredFileCount totalFileCount].
  split; [|split; [exact Hle|split; [exact Heq|split]]].
  - destruct treeOpt as [entries|]; [|cbn; lia].
    destruct (includeContent params); [|cbn; lia].
    etransitivity; [apply fetchContents_length|]. cbn [default]. apply filesToFetch_files.
  - intros ->. destruct treeOpt; reflexivity.
  - intros ->. reflexivity.
Qed.

Lemma file_counts_ordered_witness :
  exists response,
    fetchGitHubRepo globMatch sampleGitHub "owner" "repo" (sampleGitParams None) = Ok response
    /\ (length (files response) <= filteredFileCount (meta response))%nat
    /\ (filteredFileCount (meta response) <= totalFileCount (meta response))%nat.
Proof.
  assert (Hrun : {response | fetchGitHubRepo globMatch sampleGitHub "owner" "repo"
                                (sampleGitParams None) = Ok response})
    by (eexists; vm_compute; reflexivity).
  destruct Hrun as [response Hrun]. exists response. split; [exact Hrun|].
  destruct (file_counts_ordered globMatch sampleGitHub "owner" "repo" (sampleGitParams None)
              response Hrun) as (H1 & H2 & _).
  split; assumption.
Defined.

End GitRepoFacts.
